(** * Reference-counted handles of [smart_ptrs.h]: [SharedPtr] and [WeakPtr]

    A shallow embedding of the two handle classes and of the control block
    they share, over an explicit store:

    - every handle object lives in a store indexed by the identity of the
      object (its [this] address), so that [this != &other] is a comparison
      of identities and aliasing through a shared [ControlBlock] is explicit;
    - control blocks live in a heap; [new ControlBlock()] draws a fresh
      allocation identity, [delete block_] removes the block, and reading a
      counter through a pointer to a removed block is undefined behaviour
      (the computation yields [None]);
    - every executed [delete] is recorded in a log, most recent first.

    [size_t] counters are 64-bit integers with wrap-around. *)

From stdpp Require Import gmap list fin_maps.

(* stdpp's solvers clear hypotheses by name after using them. *)
Set Warnings "-clear-no-such-hyp".

(** ** Data model *)

(** Identities are natural numbers: [var] names a handle object, [loc] a
    [ControlBlock] allocation and [addr] a [std::string] allocation.  A
    [std::string*] is an [option addr], [None] being [nullptr]. *)
Abbreviation var := nat.
Abbreviation loc := nat.
Abbreviation addr := nat.

Definition SIZE_MAX : Z := 2 ^ 64 - 1.

(** Arithmetic of [size_t]. *)
Definition wrap (z : Z) : Z := (z mod 2 ^ 64)%Z.

(** [class ControlBlock { size_t shared_count_ = 0; size_t weak_count_ = 0; }] *)
Record ControlBlock := mkBlock {
  shared_count_ : Z;
  weak_count_ : Z
}.

(** Fields of a [SharedPtr]: [std::string* ptr_; ControlBlock* block_]. *)
Record SharedPtr := mkShared {
  ptr_ : option addr;
  block_ : option loc
}.

(** Fields of a [WeakPtr]: [ControlBlock* block_; std::string* ptr_]. *)
Record WeakPtr := mkWeak {
  wblock_ : option loc;
  wptr_ : option addr
}.

Inductive event :=
  | FreeValue (p : addr)   (* [delete ptr_] on a non-null pointer *)
  | FreeBlock (b : loc).   (* [delete block_] *)

Global Instance ControlBlock_eq_dec : EqDecision ControlBlock.
Proof. solve_decision. Defined.
Global Instance SharedPtr_eq_dec : EqDecision SharedPtr.
Proof. solve_decision. Defined.
Global Instance WeakPtr_eq_dec : EqDecision WeakPtr.
Proof. solve_decision. Defined.
Global Instance event_eq_dec : EqDecision event.
Proof. solve_decision. Defined.

Record State := mkState {
  shared : gmap var SharedPtr;    (* the live [SharedPtr] objects *)
  weak : gmap var WeakPtr;        (* the live [WeakPtr] objects *)
  heap : gmap loc ControlBlock;   (* the live control blocks *)
  next : loc;                     (* identity of the next allocation *)
  log : list event                (* executed deletes, most recent first *)
}.

Definition init : State := mkState ∅ ∅ ∅ 0 [].

Definition with_shared (f : gmap var SharedPtr → gmap var SharedPtr) (st : State) : State :=
  mkState (f (shared st)) (weak st) (heap st) (next st) (log st).
Definition with_weak (f : gmap var WeakPtr → gmap var WeakPtr) (st : State) : State :=
  mkState (shared st) (f (weak st)) (heap st) (next st) (log st).
Definition with_heap (f : gmap loc ControlBlock → gmap loc ControlBlock) (st : State) : State :=
  mkState (shared st) (weak st) (f (heap st)) (next st) (log st).

(** ** Computations over the store

    [None] is undefined behaviour: a field of an object that does not exist,
    a counter behind a dangling [block_], a second [delete] of a block. *)

Definition M (A : Type) : Type := State → option (A * State).

Definition ret {A} (a : A) : M A := λ st, Some (a, st).
Definition bind {A B} (m : M A) (k : A → M B) : M B :=
  λ st, match m st with
        | Some (a, st') => k a st'
        | None => None
        end.
Definition fail {A} : M A := λ _, None.

Notation "x <- m ;; k" := (bind m (λ x, k))
  (at level 100, m at next level, right associativity).
Notation "m ;;; k" := (bind m (λ _, k))
  (at level 100, right associativity).

(** *** Fields of handle objects *)

Definition s_ptr (x : var) : M (option addr) :=
  λ st, match shared st !! x with Some h => Some (ptr_ h, st) | None => None end.
Definition s_block (x : var) : M (option loc) :=
  λ st, match shared st !! x with Some h => Some (block_ h, st) | None => None end.
Definition set_s_ptr (x : var) (p : option addr) : M unit :=
  λ st, match shared st !! x with
        | Some h => Some (tt, with_shared (insert x (mkShared p (block_ h))) st)
        | None => None
        end.
Definition set_s_block (x : var) (b : option loc) : M unit :=
  λ st, match shared st !! x with
        | Some h => Some (tt, with_shared (insert x (mkShared (ptr_ h) b)) st)
        | None => None
        end.

Definition w_ptr (w : var) : M (option addr) :=
  λ st, match weak st !! w with Some h => Some (wptr_ h, st) | None => None end.
Definition w_block (w : var) : M (option loc) :=
  λ st, match weak st !! w with Some h => Some (wblock_ h, st) | None => None end.
Definition set_w_ptr (w : var) (p : option addr) : M unit :=
  λ st, match weak st !! w with
        | Some h => Some (tt, with_weak (insert w (mkWeak (wblock_ h) p)) st)
        | None => None
        end.
Definition set_w_block (w : var) (b : option loc) : M unit :=
  λ st, match weak st !! w with
        | Some h => Some (tt, with_weak (insert w (mkWeak b (wptr_ h))) st)
        | None => None
        end.

(** *** Object lifetime: storage for a new handle object, initialised by the
    constructor's member initialisers, and the end of an object's life. *)

Definition construct_s (x : var) (p : option addr) (b : option loc) : M unit :=
  λ st, match shared st !! x with
        | None => Some (tt, with_shared (insert x (mkShared p b)) st)
        | Some _ => None
        end.
Definition end_s (x : var) : M unit :=
  λ st, match shared st !! x with
        | Some _ => Some (tt, with_shared (delete x) st)
        | None => None
        end.
Definition construct_w (w : var) (b : option loc) (p : option addr) : M unit :=
  λ st, match weak st !! w with
        | None => Some (tt, with_weak (insert w (mkWeak b p)) st)
        | Some _ => None
        end.
Definition end_w (w : var) : M unit :=
  λ st, match weak st !! w with
        | Some _ => Some (tt, with_weak (delete w) st)
        | None => None
        end.

(** *** Control blocks *)

Definition shared_count (b : loc) : M Z :=
  λ st, match heap st !! b with Some blk => Some (shared_count_ blk, st) | None => None end.
Definition weak_count (b : loc) : M Z :=
  λ st, match heap st !! b with Some blk => Some (weak_count_ blk, st) | None => None end.
Definition set_shared_count (b : loc) (c : Z) : M unit :=
  λ st, match heap st !! b with
        | Some blk => Some (tt, with_heap (insert b (mkBlock c (weak_count_ blk))) st)
        | None => None
        end.
Definition set_weak_count (b : loc) (c : Z) : M unit :=
  λ st, match heap st !! b with
        | Some blk => Some (tt, with_heap (insert b (mkBlock (shared_count_ blk) c)) st)
        | None => None
        end.

(** [new ControlBlock()]: both counters start at 0. *)
Definition new_ControlBlock : M loc :=
  λ st, Some (next st,
              mkState (shared st) (weak st) (<[next st := mkBlock 0 0]> (heap st))
                      (S (next st)) (log st)).

(** [delete block_] *)
Definition delete_block (b : loc) : M unit :=
  λ st, match heap st !! b with
        | Some _ => Some (tt, mkState (shared st) (weak st) (delete b (heap st))
                                      (next st) (FreeBlock b :: log st))
        | None => None
        end.

(** [delete ptr_]; deleting [nullptr] does nothing. *)
Definition delete_string (p : option addr) : M unit :=
  λ st, match p with
        | Some a => Some (tt, mkState (shared st) (weak st) (heap st) (next st)
                                      (FreeValue a :: log st))
        | None => Some (tt, st)
        end.

(** [++block_->shared_count_] and [++block_->weak_count_]; going through a
    null [block_] is undefined. *)
Definition incr_shared (b : option loc) : M unit :=
  match b with
  | Some blk => c <- shared_count blk ;; set_shared_count blk (wrap (c + 1))
  | None => fail
  end.
Definition incr_weak (b : option loc) : M unit :=
  match b with
  | Some blk => c <- weak_count blk ;; set_weak_count blk (wrap (c + 1))
  | None => fail
  end.

(** [block_ != nullptr && block_->shared_count_ > 0], evaluated left to
    right with short circuit. *)
Definition alive (b : option loc) : M bool :=
  match b with
  | Some blk => c <- shared_count blk ;; ret (0 <? c)%Z
  | None => ret false
  end.

(** ** [SharedPtr] *)

(** [void Release()] *)
Definition SharedPtr_Release (this : var) : M unit :=
  b <- s_block this ;;
  match b with
  | Some blk =>
      c <- shared_count blk ;;
      set_shared_count blk (wrap (c - 1)) ;;;
      if (wrap (c - 1) =? 0)%Z then
        p <- s_ptr this ;;
        delete_string p ;;;
        set_s_ptr this None ;;;
        w <- weak_count blk ;;
        if (w =? 0)%Z then
          delete_block blk ;;;
          set_s_block this None
        else ret tt
      else ret tt
  | None => ret tt
  end.

(** [SharedPtr() = default] *)
Definition SharedPtr_default (this : var) : M unit :=
  construct_s this None None.

(** [explicit SharedPtr(std::string* ptr) : ptr_(ptr)] *)
Definition SharedPtr_from_raw (this : var) (ptr : option addr) : M unit :=
  construct_s this ptr None ;;;
  match ptr with
  | Some _ =>
      b <- new_ControlBlock ;;
      set_s_block this (Some b) ;;;
      b' <- s_block this ;;
      incr_shared b'
  | None => ret tt
  end.

(** [SharedPtr(const SharedPtr& other) : ptr_(other.ptr_), block_(other.block_)] *)
Definition SharedPtr_copy (this other : var) : M unit :=
  p <- s_ptr other ;;
  b <- s_block other ;;
  construct_s this p b ;;;
  b' <- s_block this ;;
  match b' with
  | Some _ => incr_shared b'
  | None => ret tt
  end.

(** [SharedPtr(SharedPtr&& other) noexcept : ptr_(other.ptr_), block_(other.block_)] *)
Definition SharedPtr_move (this other : var) : M unit :=
  p <- s_ptr other ;;
  b <- s_block other ;;
  construct_s this p b ;;;
  set_s_block other None ;;;
  set_s_ptr other None.

(** [SharedPtr::SharedPtr(const WeakPtr& ptr)] *)
Definition SharedPtr_from_weak (this ptr : var) : M unit :=
  construct_s this None None ;;;
  b <- w_block ptr ;;
  a <- alive b ;;
  if a then
    p <- w_ptr ptr ;;
    set_s_ptr this p ;;;
    b1 <- w_block ptr ;;
    set_s_block this b1 ;;;
    b2 <- s_block this ;;
    incr_shared b2
  else
    set_s_ptr this None ;;;
    set_s_block this None.

(** [SharedPtr& operator=(const SharedPtr& other)] *)
Definition SharedPtr_assign (this other : var) : M unit :=
  if decide (this ≠ other) then
    SharedPtr_Release this ;;;
    p <- s_ptr other ;;
    set_s_ptr this p ;;;
    b <- s_block other ;;
    set_s_block this b ;;;
    b' <- s_block this ;;
    match b' with
    | Some _ => incr_shared b'
    | None => ret tt
    end
  else ret tt.

(** [SharedPtr& operator=(SharedPtr&& other) noexcept] *)
Definition SharedPtr_move_assign (this other : var) : M unit :=
  if decide (this ≠ other) then
    SharedPtr_Release this ;;;
    p <- s_ptr other ;;
    set_s_ptr this p ;;;
    b <- s_block other ;;
    set_s_block this b ;;;
    set_s_block other None ;;;
    set_s_ptr other None
  else ret tt.

(** [~SharedPtr()] *)
Definition SharedPtr_dtor (this : var) : M unit :=
  SharedPtr_Release this ;;;
  end_s this.

(** [std::string* Get() const] *)
Definition SharedPtr_Get (this : var) : M (option addr) := s_ptr this.

(** [void Reset(std::string* new_ptr = nullptr)] *)
Definition SharedPtr_Reset (this : var) (new_ptr : option addr) : M unit :=
  SharedPtr_Release this ;;;
  match new_ptr with
  | Some _ =>
      set_s_ptr this new_ptr ;;;
      b <- new_ControlBlock ;;
      set_s_block this (Some b) ;;;
      b' <- s_block this ;;
      match b' with
      | Some blk => set_shared_count blk 1
      | None => fail
      end
  | None =>
      set_s_ptr this None ;;;
      set_s_block this None
  end.

(** ** [WeakPtr] *)

(** [void Release()] *)
Definition WeakPtr_Release (this : var) : M unit :=
  b <- w_block this ;;
  match b with
  | Some blk =>
      c <- weak_count blk ;;
      set_weak_count blk (wrap (c - 1)) ;;;
      w <- weak_count blk ;;
      both <- (if (w =? 0)%Z then s <- shared_count blk ;; ret (s =? 0)%Z
               else ret false) ;;
      (if both then delete_block blk else ret tt) ;;;
      set_w_block this None
  | None => ret tt
  end ;;;
  set_w_ptr this None.

(** [WeakPtr() = default] *)
Definition WeakPtr_default (this : var) : M unit :=
  construct_w this None None.

(** [explicit WeakPtr(std::string* ptr) : ptr_(ptr)]; [block_] takes its
    default member initialiser [nullptr] before the body tests it. *)
Definition WeakPtr_from_raw (this : var) (ptr : option addr) : M unit :=
  construct_w this None ptr ;;;
  b <- w_block this ;;
  match b with
  | Some blk => set_weak_count blk 1
  | None => ret tt
  end.

(** [WeakPtr(const WeakPtr& other) : block_(other.block_), ptr_(other.ptr_)] *)
Definition WeakPtr_copy (this other : var) : M unit :=
  b <- w_block other ;;
  p <- w_ptr other ;;
  construct_w this b p ;;;
  b' <- w_block this ;;
  match b' with
  | Some _ => incr_weak b'
  | None => ret tt
  end.

(** [WeakPtr(WeakPtr&& other) noexcept : block_(other.block_), ptr_(other.ptr_)] *)
Definition WeakPtr_move (this other : var) : M unit :=
  b <- w_block other ;;
  p <- w_ptr other ;;
  construct_w this b p ;;;
  set_w_block other None ;;;
  set_w_ptr other None.

(** [explicit WeakPtr(const SharedPtr& shared) : block_(shared.block_), ptr_(shared.ptr_)] *)
Definition WeakPtr_from_shared (this shared_ : var) : M unit :=
  b <- s_block shared_ ;;
  p <- s_ptr shared_ ;;
  construct_w this b p ;;;
  b' <- w_block this ;;
  match b' with
  | Some _ => incr_weak b'
  | None => ret tt
  end.

(** [~WeakPtr()] *)
Definition WeakPtr_dtor (this : var) : M unit :=
  WeakPtr_Release this ;;;
  end_w this.

(** [WeakPtr& operator=(const WeakPtr& other)] *)
Definition WeakPtr_assign (this other : var) : M unit :=
  if decide (this ≠ other) then
    WeakPtr_Release this ;;;
    p <- w_ptr other ;;
    set_w_ptr this p ;;;
    b <- w_block other ;;
    set_w_block this b ;;;
    b' <- w_block this ;;
    match b' with
    | Some _ => incr_weak b'
    | None => ret tt
    end
  else ret tt.

(** [WeakPtr& operator=(WeakPtr&& other) noexcept] *)
Definition WeakPtr_move_assign (this other : var) : M unit :=
  if decide (this ≠ other) then
    WeakPtr_Release this ;;;
    p <- w_ptr other ;;
    set_w_ptr this p ;;;
    b <- w_block other ;;
    set_w_block this b ;;;
    set_w_ptr other None ;;;
    set_w_block other None
  else ret tt.

(** [SharedPtr Lock() const]; the returned object is [result], built in
    place by the constructor from a [WeakPtr] applied to this object, or by
    the default constructor. *)
Definition WeakPtr_Lock (this result : var) : M unit :=
  b <- w_block this ;;
  a <- alive b ;;
  if a then SharedPtr_from_weak result this
  else SharedPtr_default result.

(** [bool IsExpired() const] *)
Definition WeakPtr_IsExpired (this : var) : M bool :=
  b <- w_block this ;;
  match b with
  | None => ret true
  | Some blk => c <- shared_count blk ;; ret (c =? 0)%Z
  end.

(** ** Programs over handles

    One command per statement a caller can write.  [x], [y] name [SharedPtr]
    objects and [w], [v] name [WeakPtr] objects. *)

Inductive cmd :=
  | SDefault (x : var)                     (* [SharedPtr x;] *)
  | SNew (x : var) (p : option addr)       (* [SharedPtr x(p);] *)
  | SCopy (x y : var)                      (* [SharedPtr x(y);] *)
  | SMove (x y : var)                      (* [SharedPtr x(std::move(y));] *)
  | SUpgrade (x w : var)                   (* [SharedPtr x(w);] *)
  | SAssign (x y : var)                    (* [x = y;] *)
  | SMoveAssign (x y : var)                (* [x = std::move(y);] *)
  | SReset (x : var) (p : option addr)     (* [x.Reset(p);] *)
  | SDestroy (x : var)                     (* end of the life of [x] *)
  | WDefault (w : var)                     (* [WeakPtr w;] *)
  | WNew (w : var) (p : option addr)       (* [WeakPtr w(p);] *)
  | WCopy (w v : var)                      (* [WeakPtr w(v);] *)
  | WMove (w v : var)                      (* [WeakPtr w(std::move(v));] *)
  | WObserve (w x : var)                   (* [WeakPtr w(x);] *)
  | WAssign (w v : var)                    (* [w = v;] *)
  | WMoveAssign (w v : var)                (* [w = std::move(v);] *)
  | WDestroy (w : var)                     (* end of the life of [w] *)
  | WLock (x w : var).                     (* [SharedPtr x = w.Lock();] *)

Definition exec (c : cmd) : M unit :=
  match c with
  | SDefault x => SharedPtr_default x
  | SNew x p => SharedPtr_from_raw x p
  | SCopy x y => SharedPtr_copy x y
  | SMove x y => SharedPtr_move x y
  | SUpgrade x w => SharedPtr_from_weak x w
  | SAssign x y => SharedPtr_assign x y
  | SMoveAssign x y => SharedPtr_move_assign x y
  | SReset x p => SharedPtr_Reset x p
  | SDestroy x => SharedPtr_dtor x
  | WDefault w => WeakPtr_default w
  | WNew w p => WeakPtr_from_raw w p
  | WCopy w v => WeakPtr_copy w v
  | WMove w v => WeakPtr_move w v
  | WObserve w x => WeakPtr_from_shared w x
  | WAssign w v => WeakPtr_assign w v
  | WMoveAssign w v => WeakPtr_move_assign w v
  | WDestroy w => WeakPtr_dtor w
  | WLock x w => WeakPtr_Lock w x
  end.

(** *** What the caller owes

    Objects named by a statement exist (or, for a declaration, the name is
    free); a raw pointer handed to an owning handle is the caller's alone:
    no [SharedPtr] holds it and it has not been deleted; and the program
    never holds more than [SIZE_MAX] handles of a kind at once. *)

Definition owned (st : State) (p : addr) : Prop :=
  map_Exists (λ _ h, ptr_ h = Some p) (shared st).

Definition exclusive (st : State) (p : option addr) : Prop :=
  match p with
  | Some a => ¬ owned st a ∧ FreeValue a ∉ log st
  | None => True
  end.

Global Instance owned_dec st p : Decision (owned st p).
Proof. unfold owned. apply _. Defined.
Global Instance exclusive_dec st p : Decision (exclusive st p).
Proof. destruct p; simpl; apply _. Defined.

Definition room_s (st : State) : Prop := (Z.of_nat (size (shared st)) < SIZE_MAX)%Z.
Definition room_w (st : State) : Prop := (Z.of_nat (size (weak st)) < SIZE_MAX)%Z.

Definition cmd_ok (st : State) (c : cmd) : Prop :=
  match c with
  | SDefault x => shared st !! x = None ∧ room_s st
  | SNew x p => shared st !! x = None ∧ room_s st ∧ exclusive st p
  | SCopy x y | SMove x y =>
      shared st !! x = None ∧ room_s st ∧ is_Some (shared st !! y)
  | SUpgrade x w | WLock x w =>
      shared st !! x = None ∧ room_s st ∧ is_Some (weak st !! w)
  | SAssign x y | SMoveAssign x y =>
      is_Some (shared st !! x) ∧ is_Some (shared st !! y)
  | SReset x p => is_Some (shared st !! x) ∧ exclusive st p
  | SDestroy x => is_Some (shared st !! x)
  | WDefault w | WNew w _ => weak st !! w = None ∧ room_w st
  | WCopy w v | WMove w v =>
      weak st !! w = None ∧ room_w st ∧ is_Some (weak st !! v)
  | WObserve w x => weak st !! w = None ∧ room_w st ∧ is_Some (shared st !! x)
  | WAssign w v | WMoveAssign w v =>
      is_Some (weak st !! w) ∧ is_Some (weak st !! v)
  | WDestroy w => is_Some (weak st !! w)
  end.

Global Instance cmd_ok_dec st c : Decision (cmd_ok st c).
Proof. destruct c; simpl; unfold room_s, room_w; apply _. Defined.

(** Outcome of a program: it runs to a final state, the caller breaks one of
    its obligations, or the handles themselves run into undefined behaviour. *)
Inductive outcome :=
  | Done (st : State)
  | Rejected
  | Undefined.

Fixpoint run (prog : list cmd) (st : State) : outcome :=
  match prog with
  | [] => Done st
  | c :: rest =>
      if decide (cmd_ok st c) then
        match exec c st with
        | Some (_, st') => run rest st'
        | None => Undefined
        end
      else Rejected
  end.

(** ** Reference counting, seen from the handles

    [s_refs st b] and [w_refs st b] count the live [SharedPtr] and [WeakPtr]
    objects whose [block_] is [b]. *)

Definition ind (o : option loc) (b : loc) : nat :=
  if decide (o = Some b) then 1 else 0.

Definition refs {A} (f : A → option loc) (m : gmap var A) (b : loc) : nat :=
  size (filter (λ kv, f kv.2 = Some b) m).

Definition s_refs (st : State) (b : loc) : nat := refs block_ (shared st) b.
Definition w_refs (st : State) (b : loc) : nat := refs wblock_ (weak st) b.

(** Well-formed states: the counters of every live block are the numbers of
    handles that point to it, a block is live exactly while some handle
    points to it, owning handles agree on which value belongs to which
    block, and the log never repeats a delete. *)
Record wf (st : State) : Prop := mkWf {
  wf_handle : ∀ x h, shared st !! x = Some h →
      (ptr_ h = None ↔ block_ h = None);
  wf_blocks : ∀ b,
      match heap st !! b with
      | Some blk =>
          shared_count_ blk = Z.of_nat (s_refs st b) ∧
          weak_count_ blk = Z.of_nat (w_refs st b) ∧
          0 < s_refs st b + w_refs st b
      | None => s_refs st b = 0 ∧ w_refs st b = 0
      end;
  wf_same : ∀ x h x' h', shared st !! x = Some h → shared st !! x' = Some h' →
      is_Some (block_ h) → (block_ h' = block_ h ↔ ptr_ h' = ptr_ h);
  wf_observed : ∀ w hw x hs, weak st !! w = Some hw → shared st !! x = Some hs →
      is_Some (block_ hs) → wblock_ hw = block_ hs → wptr_ hw = ptr_ hs;
  wf_freed_block : ∀ b, FreeBlock b ∈ log st ↔ b < next st ∧ heap st !! b = None;
  wf_alloc : ∀ b, is_Some (heap st !! b) → b < next st;
  wf_nodup : NoDup (log st);
  wf_freed_value : ∀ p, FreeValue p ∈ log st → ¬ owned st p;
  wf_size_s : (Z.of_nat (size (shared st)) ≤ SIZE_MAX)%Z;
  wf_size_w : (Z.of_nat (size (weak st)) ≤ SIZE_MAX)%Z
}.

(** The block behind a pointer is live and its counter can be incremented
    without wrapping around. *)
Definition room_in_block_s (st : State) (o : option loc) : Prop :=
  ∀ b, o = Some b → ∃ blk, heap st !! b = Some blk ∧
                           (0 ≤ shared_count_ blk < SIZE_MAX)%Z.
Definition room_in_block_w (st : State) (o : option loc) : Prop :=
  ∀ b, o = Some b → ∃ blk, heap st !! b = Some blk ∧
                           (0 ≤ weak_count_ blk < SIZE_MAX)%Z.


(** Every owning handle of [st'] is empty or already occurs in [st]; every
    observer of [st'] is detached, already occurs in [st], or mirrors an
    owning handle of [st]. *)
Definition s_sub (st st' : State) : Prop :=
  ∀ x h, shared st' !! x = Some h →
    h = mkShared None None ∨ ∃ y, shared st !! y = Some h.
Definition w_sub (st st' : State) : Prop :=
  ∀ w h, weak st' !! w = Some h →
    wblock_ h = None ∨ (∃ v, weak st !! v = Some h) ∨
    ∃ y hs, shared st !! y = Some hs ∧ h = mkWeak (block_ hs) (ptr_ hs).

(** ** The transitions, one handle at a time

    The net effect of each member function, written as a function of the
    state.  [exec_post] below proves that the member functions compute
    exactly these states from every well-formed state. *)

Definition empty_s : SharedPtr := mkShared None None.
Definition empty_w : WeakPtr := mkWeak None None.

Definition put_s (x : var) (h : SharedPtr) : State → State := with_shared (insert x h).
Definition put_w (w : var) (h : WeakPtr) : State → State := with_weak (insert w h).

Definition frees (p : option addr) : list event :=
  match p with Some a => [FreeValue a] | None => [] end.

Definition push (evs : list event) (st : State) : State :=
  mkState (shared st) (weak st) (heap st) (next st) (evs ++ log st).

(** The counters of a block just before its last owner, its last reference
    held by an owner, and its last reference held by an observer let go. *)
Definition last_owner (blk : ControlBlock) : Prop := shared_count_ blk = 1%Z.
Definition last_ref_s (blk : ControlBlock) : Prop :=
  shared_count_ blk = 1%Z ∧ weak_count_ blk = 0%Z.
Definition last_ref_w (blk : ControlBlock) : Prop :=
  weak_count_ blk = 1%Z ∧ shared_count_ blk = 0%Z.

(** One owning reference to [b], whose value is [p], goes away. *)
Definition drop_strong (p : option addr) (b : loc) (st : State) : State :=
  match heap st !! b with
  | Some blk =>
      if (shared_count_ blk =? 1)%Z then
        if (weak_count_ blk =? 0)%Z
        then push [FreeBlock b] (push (frees p) (with_heap (delete b) st))
        else push (frees p) (with_heap (insert b (mkBlock 0 (weak_count_ blk))) st)
      else with_heap (insert b (mkBlock (shared_count_ blk - 1) (weak_count_ blk))) st
  | None => st
  end.

(** One observing reference to [b] goes away. *)
Definition drop_weak (b : loc) (st : State) : State :=
  match heap st !! b with
  | Some blk =>
      if (weak_count_ blk =? 1)%Z && (shared_count_ blk =? 0)%Z
      then push [FreeBlock b] (with_heap (delete b) st)
      else with_heap (insert b (mkBlock (shared_count_ blk) (weak_count_ blk - 1))) st
  | None => st
  end.

Definition add_strong (b : loc) (st : State) : State :=
  match heap st !! b with
  | Some blk => with_heap (insert b (mkBlock (shared_count_ blk + 1) (weak_count_ blk))) st
  | None => st
  end.

Definition add_weak (b : loc) (st : State) : State :=
  match heap st !! b with
  | Some blk => with_heap (insert b (mkBlock (shared_count_ blk) (weak_count_ blk + 1))) st
  | None => st
  end.

Definition alloc (st : State) : State :=
  mkState (shared st) (weak st) (<[next st := mkBlock 1 0]> (heap st))
          (S (next st)) (log st).

(** The handle [x] gives up what it holds and becomes empty. *)
Definition detach_s (x : var) (st : State) : State :=
  match shared st !! x with
  | Some h =>
      match block_ h with
      | Some b => put_s x empty_s (drop_strong (ptr_ h) b st)
      | None => put_s x empty_s st
      end
  | None => st
  end.

Definition detach_w (w : var) (st : State) : State :=
  match weak st !! w with
  | Some h =>
      match wblock_ h with
      | Some b => put_w w empty_w (drop_weak b st)
      | None => put_w w empty_w st
      end
  | None => st
  end.

(** The handle [x] takes what [y] holds, next to [y]. *)
Definition share_s (x y : var) (st : State) : State :=
  match shared st !! y with
  | Some h =>
      match block_ h with
      | Some b => put_s x h (add_strong b st)
      | None => put_s x h st
      end
  | None => st
  end.

Definition share_w (w v : var) (st : State) : State :=
  match weak st !! v with
  | Some h =>
      match wblock_ h with
      | Some b => put_w w h (add_weak b st)
      | None => put_w w h st
      end
  | None => st
  end.

(** The observer [w] attaches to what the owner [x] holds. *)
Definition observe_w (w x : var) (st : State) : State :=
  match shared st !! x with
  | Some h =>
      match block_ h with
      | Some b => put_w w (mkWeak (block_ h) (ptr_ h)) (add_weak b st)
      | None => put_w w (mkWeak (block_ h) (ptr_ h)) st
      end
  | None => st
  end.

(** Whether the block behind an observer still has an owner. *)
Definition live (st : State) (b : option loc) : bool :=
  match b with
  | Some blk =>
      match heap st !! blk with
      | Some c => (0 <? shared_count_ c)%Z
      | None => false
      end
  | None => false
  end.

(** The owner [x] attaches to what the observer [w] sees, if it is alive. *)
Definition upgrade_s (x w : var) (st : State) : State :=
  match weak st !! w with
  | Some h =>
      if live st (wblock_ h) then
        match wblock_ h with
        | Some b => put_s x (mkShared (wptr_ h) (wblock_ h)) (add_strong b st)
        | None => st
        end
      else put_s x empty_s st
  | None => st
  end.

(** The handle [x] takes what [y] holds and [y] becomes empty. *)
Definition move_s (x y : var) (st : State) : State :=
  match shared st !! y with
  | Some h => put_s y empty_s (put_s x h st)
  | None => st
  end.

Definition move_w (w v : var) (st : State) : State :=
  match weak st !! v with
  | Some h => put_w v empty_w (put_w w h st)
  | None => st
  end.

(** The handle [x] becomes the first owner of [p]. *)
Definition adopt_s (x : var) (p : option addr) (st : State) : State :=
  match p with
  | Some _ => put_s x (mkShared p (Some (next st))) (alloc st)
  | None => put_s x empty_s st
  end.

Definition post (c : cmd) (st : State) : State :=
  match c with
  | SDefault x => put_s x empty_s st
  | SNew x p => adopt_s x p (put_s x empty_s st)
  | SCopy x y => share_s x y (put_s x empty_s st)
  | SMove x y => move_s x y (put_s x empty_s st)
  | SUpgrade x w | WLock x w => upgrade_s x w (put_s x empty_s st)
  | SAssign x y => if decide (x ≠ y) then share_s x y (detach_s x st) else st
  | SMoveAssign x y => if decide (x ≠ y) then move_s x y (detach_s x st) else st
  | SReset x p => adopt_s x p (detach_s x st)
  | SDestroy x => with_shared (delete x) (detach_s x st)
  | WDefault w => put_w w empty_w st
  | WNew w p => put_w w (mkWeak None p) st
  | WCopy w v => share_w w v (put_w w empty_w st)
  | WMove w v => move_w w v (put_w w empty_w st)
  | WObserve w x => observe_w w x (put_w w empty_w st)
  | WAssign w v => if decide (w ≠ v) then share_w w v (detach_w w st) else st
  | WMoveAssign w v => if decide (w ≠ v) then move_w w v (detach_w w st) else st
  | WDestroy w => with_weak (delete w) (detach_w w st)
  end.

(** ** Vocabulary of the lifetime properties *)

(** The statement hands the raw pointer [a] to an owning handle. *)
Definition adopts (c : cmd) (a : addr) : Prop :=
  match c with
  | SNew _ p | SReset _ p => p = Some a
  | _ => False
  end.

Definition adopted (prog : list cmd) (a : addr) : Prop :=
  Exists (λ c, adopts c a) prog.

(** The owning handle, or the observer, on which the statement calls
    [Release()]: assignment over a distinct handle, [Reset], destruction. *)
Definition releases_s (c : cmd) : option var :=
  match c with
  | SAssign x y | SMoveAssign x y => if decide (x ≠ y) then Some x else None
  | SReset x _ | SDestroy x => Some x
  | _ => None
  end.

Definition releases_w (c : cmd) : option var :=
  match c with
  | WAssign w v | WMoveAssign w v => if decide (w ≠ v) then Some w else None
  | WDestroy w => Some w
  | _ => None
  end.

(** The value [a] is held by an owning handle or has been deleted. *)
Definition accounted (st : State) (a : addr) : Prop :=
  owned st a ∨ FreeValue a ∈ log st.

(** The statement [c] releases the last owning handle of the value [a]:
    it calls [Release()] on a handle whose block has [shared_count_ = 1]. *)
Definition last_release (c : cmd) (st : State) (a : addr) : Prop :=
  ∃ x h b blk, releases_s c = Some x ∧ shared st !! x = Some h ∧
    ptr_ h = Some a ∧ block_ h = Some b ∧ heap st !! b = Some blk ∧
    shared_count_ blk = 1%Z.

(** The statement [c] releases the last handle of the block [b]: an owning
    handle when the counters are (1, 0), an observer when they are (0, 1). *)
Definition last_handle (c : cmd) (st : State) (b : loc) : Prop :=
  ∃ blk, heap st !! b = Some blk ∧
    ((∃ x h, releases_s c = Some x ∧ shared st !! x = Some h ∧
             block_ h = Some b ∧
             shared_count_ blk = 1%Z ∧ weak_count_ blk = 0%Z) ∨
     (∃ w h, releases_w c = Some w ∧ weak st !! w = Some h ∧
             wblock_ h = Some b ∧
             shared_count_ blk = 0%Z ∧ weak_count_ blk = 1%Z)).

(** ** The release rules, as relations between states

    [released_s st x h r]: from [st], where the owning handle [x] holds [h],
    [SharedPtr::Release()] followed by the clearing of both fields leads to
    [r].  [released_w] is the same for [WeakPtr::Release()]. *)

Definition released_s (st : State) (x : var) (h : SharedPtr) (r : State) : Prop :=
  shared r = <[x:=mkShared None None]> (shared st) ∧
  weak r = weak st ∧ next r = next st ∧
  match block_ h with
  | None => heap r = heap st ∧ log r = log st
  | Some b =>
      ∃ blk, heap st !! b = Some blk ∧ (1 ≤ shared_count_ blk)%Z ∧
        if decide (shared_count_ blk = 1%Z) then
          if decide (weak_count_ blk = 0%Z) then
            heap r = delete b (heap st) ∧
            log r = FreeBlock b :: frees (ptr_ h) ++ log st
          else
            heap r = <[b:=mkBlock 0 (weak_count_ blk)]> (heap st) ∧
            log r = frees (ptr_ h) ++ log st
        else
          heap r = <[b:=mkBlock (shared_count_ blk - 1) (weak_count_ blk)]> (heap st) ∧
          log r = log st
  end.

Definition released_w (st : State) (w : var) (h : WeakPtr) (r : State) : Prop :=
  weak r = <[w:=mkWeak None None]> (weak st) ∧
  shared r = shared st ∧ next r = next st ∧
  match wblock_ h with
  | None => heap r = heap st ∧ log r = log st
  | Some b =>
      ∃ blk, heap st !! b = Some blk ∧ (1 ≤ weak_count_ blk)%Z ∧
        if decide (weak_count_ blk = 1%Z ∧ shared_count_ blk = 0%Z) then
          heap r = delete b (heap st) ∧ log r = FreeBlock b :: log st
        else
          heap r = <[b:=mkBlock (shared_count_ blk) (weak_count_ blk - 1)]> (heap st) ∧
          log r = log st
  end.

(** The state a program ends in ([init] when it does not end). *)
Definition final (prog : list cmd) : State :=
  match run prog init with
  | Done st => st
  | _ => init
  end.

(** ** Member access

    [std::string& operator*() const] returns the string behind [ptr_]: the
    result is the identity of that string.  The body is one dereference with
    no test, so a null [ptr_], or one whose string has been deleted, is
    undefined behaviour. *)
Definition SharedPtr_deref (this : var) : M addr :=
  p <- s_ptr this ;;
  match p with
  | Some a => λ st, if decide (FreeValue a ∈ log st) then None else Some (a, st)
  | None => fail
  end.

(** [std::string* operator->() const] *)
Definition SharedPtr_arrow (this : var) : M (option addr) := s_ptr this.

(** Statements on observers only, and statements that build, assign or end
    owning handles ([Lock()] and the upgrading constructor read an observer
    and build an owning handle). *)
Definition observer_stmt (c : cmd) : Prop :=
  match c with
  | WDefault _ | WNew _ _ | WCopy _ _ | WMove _ _ | WObserve _ _
  | WAssign _ _ | WMoveAssign _ _ | WDestroy _ => True
  | _ => False
  end.

Definition owner_stmt (c : cmd) : Prop :=
  match c with
  | SDefault _ | SNew _ _ | SCopy _ _ | SMove _ _ | SUpgrade _ _
  | SAssign _ _ | SMoveAssign _ _ | SReset _ _ | SDestroy _ | WLock _ _ => True
  | _ => False
  end.

(** ** Sample programs *)

(** Two owners of one value, of which the first has gone. *)
Definition two_owners : list cmd := [SNew 0 (Some 7); SCopy 1 0; SDestroy 0].
(** Two owners of one value. *)
Definition sharing : list cmd := [SNew 0 (Some 7); SCopy 1 0].
(** An owner and an observer of its value. *)
Definition owner_and_observer : list cmd := [SNew 0 (Some 7); WObserve 0 0].
(** An observer that has outlived the only owner. *)
Definition owner_then_observer : list cmd :=
  [SNew 0 (Some 7); WObserve 0 0; SDestroy 0].
(** An owner and an empty owning handle. *)
Definition owner_and_empty : list cmd := [SNew 0 (Some 7); SDefault 1].

(** An owner, an observer of its value and an empty observer. *)
Definition observer_and_empty : list cmd :=
  [SNew 0 (Some 7); WObserve 0 0; WDefault 1].
(** Two owners of one value, both gone. *)
Definition all_gone : list cmd :=
  [SNew 0 (Some 7); SCopy 1 0; SDestroy 0; SDestroy 1].

(** * Proofs *)

(** ** Counting the handles that point to a block *)

Section refs.
Context {A : Type} (f : A → option loc).
Implicit Types (m : gmap var A) (h : A) (b : loc).

Lemma refs_insert_fresh m x h b :
  m !! x = None → refs f (<[x:=h]> m) b = refs f m b + ind (f h) b.
Proof.
  intros Hx. unfold refs, ind. rewrite map_filter_insert. simpl.
  case_decide.
  - rewrite map_size_insert_None; [lia|].
    apply map_lookup_filter_None. by left.
  - rewrite delete_id by done. lia.
Qed.

Lemma refs_delete m x h b :
  m !! x = Some h → refs f m b = refs f (delete x m) b + ind (f h) b.
Proof.
  intros Hx. rewrite <- (insert_id m x h) at 1 by done.
  rewrite <- insert_delete_eq. apply refs_insert_fresh, lookup_delete_eq.
Qed.

Lemma refs_insert m x h h' b :
  m !! x = Some h →
  refs f (<[x:=h']> m) b + ind (f h) b = refs f m b + ind (f h') b.
Proof.
  intros Hx. rewrite <- insert_delete_eq.
  rewrite refs_insert_fresh by apply lookup_delete_eq.
  rewrite (refs_delete m x h b Hx). lia.
Qed.

Lemma refs_le_size m b : refs f m b ≤ size m.
Proof. apply map_subseteq_size, map_filter_subseteq. Qed.

Lemma refs_pos m b :
  0 < refs f m b ↔ ∃ x h, m !! x = Some h ∧ f h = Some b.
Proof.
  unfold refs. split.
  - intros Hpos.
    destruct (map_size_ne_0_lookup_1 (filter (λ kv, f kv.2 = Some b) m))
      as [x [h Hh]]; [lia|].
    apply map_lookup_filter_Some in Hh as [? ?]. eauto.
  - intros (x & h & Hx & Hb).
    assert (size (filter (λ kv : var * A, f kv.2 = Some b) m) ≠ 0); [|lia].
    apply (map_size_ne_0_lookup_2 _ x). exists h.
    by apply map_lookup_filter_Some.
Qed.

Lemma refs_zero m b :
  refs f m b = 0 ↔ ∀ x h, m !! x = Some h → f h ≠ Some b.
Proof.
  split.
  - intros Hz x h Hx Hb.
    assert (0 < refs f m b) by (apply refs_pos; eauto). lia.
  - intros Hno. destruct (refs f m b) eqn:E; [done|].
    destruct (proj1 (refs_pos m b)) as (x & h & Hx & Hb); [lia|].
    by destruct (Hno x h Hx).
Qed.

Lemma refs_two m x y h h' b :
  x ≠ y → m !! x = Some h → m !! y = Some h' →
  f h = Some b → f h' = Some b → 2 ≤ refs f m b.
Proof.
  intros Hne Hx Hy Hb Hb'.
  rewrite (refs_delete m x h b Hx). unfold ind. rewrite decide_True by done.
  assert (0 < refs f (delete x m) b); [|lia].
  apply refs_pos. exists y, h'. by rewrite lookup_delete_ne.
Qed.
End refs.

(** ** Consequences of well-formedness *)

Ltac sst :=
  unfold put_s, put_w, push, with_shared, with_weak, with_heap, alloc,
         s_refs, w_refs, empty_s, empty_w in *; simpl in *.

Ltac inserts :=
  repeat match goal with
  | H : <[_:=_]> _ !! _ = Some _ |- _ =>
      apply lookup_insert_Some in H as [[-> <-]|[? H]]
  | H : delete _ _ !! _ = Some _ |- _ =>
      apply lookup_delete_Some in H as [? H]
  end; simpl in *.

Ltac count_known f m x h' b tac :=
  lazymatch goal with
  | _ : refs f (<[x:=h']> m) b + _ = _ |- _ => fail
  | _ : refs f (<[x:=h']> m) b = _ |- _ => fail
  | _ => tac
  end.

Ltac count_at b :=
  repeat match goal with
  | H : ?m !! ?x = Some ?h |- context [refs ?f (<[?x:=?h']> ?m) _] =>
      count_known f m x h' b ltac:(pose proof (refs_insert f m x h h' b H))
  | H : ?m !! ?x = Some ?h, _ : context [refs ?f (<[?x:=?h']> ?m) _] |- _ =>
      count_known f m x h' b ltac:(pose proof (refs_insert f m x h h' b H))
  | H : ?m !! ?x = None |- context [refs ?f (<[?x:=?h']> ?m) _] =>
      count_known f m x h' b ltac:(pose proof (refs_insert_fresh f m x h' b H))
  | H : ?m !! ?x = Some ?h |- context [refs ?f (delete ?x ?m) _] =>
      lazymatch goal with
      | _ : refs f m b = refs f (delete x m) b + _ |- _ => fail
      | _ => pose proof (refs_delete f m x h b H)
      end
  end; unfold ind in *; simpl in *; repeat case_decide; simplify_eq; try lia.

Section basics.
Context (st : State) (Hwf : wf st).

Lemma wf_shared_block x h b :
  shared st !! x = Some h → block_ h = Some b →
  ∃ blk, heap st !! b = Some blk ∧
         shared_count_ blk = Z.of_nat (s_refs st b) ∧
         weak_count_ blk = Z.of_nat (w_refs st b) ∧ 1 ≤ s_refs st b.
Proof.
  intros Hx Hb.
  assert (0 < s_refs st b) by (apply refs_pos; eauto).
  pose proof (wf_blocks st Hwf b) as Hblk.
  destruct (heap st !! b) as [blk|]; [|lia].
  exists blk. intuition lia.
Qed.

Lemma wf_weak_block w h b :
  weak st !! w = Some h → wblock_ h = Some b →
  ∃ blk, heap st !! b = Some blk ∧
         shared_count_ blk = Z.of_nat (s_refs st b) ∧
         weak_count_ blk = Z.of_nat (w_refs st b) ∧ 1 ≤ w_refs st b.
Proof.
  intros Hx Hb.
  assert (0 < w_refs st b) by (apply refs_pos; eauto).
  pose proof (wf_blocks st Hwf b) as Hblk.
  destruct (heap st !! b) as [blk|]; [|lia].
  exists blk. intuition lia.
Qed.

Lemma wf_ptr_Some x h b :
  shared st !! x = Some h → block_ h = Some b → is_Some (ptr_ h).
Proof.
  intros Hx Hb. destruct (ptr_ h) eqn:E; [eauto|].
  apply (wf_handle st Hwf x h Hx) in E. congruence.
Qed.

Lemma wf_block_None x h :
  shared st !! x = Some h → block_ h = None → h = empty_s.
Proof.
  intros Hx Hb. destruct h as [p b]. simpl in *. subst.
  pose proof (proj2 (wf_handle st Hwf x _ Hx) eq_refl) as E.
  simpl in E. by subst.
Qed.

Lemma wf_s_refs_bound b : (Z.of_nat (s_refs st b) ≤ SIZE_MAX)%Z.
Proof.
  pose proof (refs_le_size block_ (shared st) b).
  pose proof (wf_size_s st Hwf). unfold s_refs. lia.
Qed.

Lemma wf_w_refs_bound b : (Z.of_nat (w_refs st b) ≤ SIZE_MAX)%Z.
Proof.
  pose proof (refs_le_size wblock_ (weak st) b).
  pose proof (wf_size_w st Hwf). unfold w_refs. lia.
Qed.
End basics.

Lemma owned_put st x h p :
  owned (put_s x h st) p ↔
  ptr_ h = Some p ∨ ∃ y hy, y ≠ x ∧ shared st !! y = Some hy ∧ ptr_ hy = Some p.
Proof.
  unfold owned, map_Exists. sst. split.
  - intros (y & hy & Hy & Hp). inserts; eauto 10.
  - intros [Hp|(y & hy & Hne & Hy & Hp)].
    + exists x, h. by rewrite lookup_insert_eq.
    + exists y, hy. by rewrite lookup_insert_ne.
Qed.

(** What [drop_strong] leaves behind. *)
Lemma drop_strong_shared st p b : shared (drop_strong p b st) = shared st.
Proof. unfold drop_strong. by repeat case_match. Qed.
Lemma drop_strong_weak st p b : weak (drop_strong p b st) = weak st.
Proof. unfold drop_strong. by repeat case_match. Qed.
Lemma drop_strong_next st p b : next (drop_strong p b st) = next st.
Proof. unfold drop_strong. by repeat case_match. Qed.

Section drop_strong.
Context (st : State) (p : option addr) (b : loc) (blk : ControlBlock).
Context (Hblk : heap st !! b = Some blk).

Lemma drop_strong_heap b' :
  heap (drop_strong p b st) !! b' =
  if decide (b' = b) then
    if decide (last_ref_s blk) then None
    else Some (mkBlock (shared_count_ blk - 1) (weak_count_ blk))
  else heap st !! b'.
Proof.
  unfold drop_strong, last_ref_s. rewrite Hblk.
  destruct (Z.eqb_spec (shared_count_ blk) 1) as [E1|E1];
    [destruct (Z.eqb_spec (weak_count_ blk) 0) as [E2|E2]|]; simpl;
    repeat case_decide; subst;
    rewrite ?lookup_delete_eq, ?lookup_insert_eq, ?lookup_delete_ne,
      ?lookup_insert_ne by done; try done; try lia.
  by rewrite E1.
Qed.
Lemma drop_strong_log :
  log (drop_strong p b st) =
  (if decide (last_ref_s blk) then [FreeBlock b] else []) ++
  (if decide (last_owner blk) then frees p else []) ++ log st.
Proof.
  unfold drop_strong, last_ref_s, last_owner. rewrite Hblk.
  destruct (Z.eqb_spec (shared_count_ blk) 1) as [E1|E1];
    [destruct (Z.eqb_spec (weak_count_ blk) 0) as [E2|E2]|]; simpl;
    repeat case_decide; try done; lia.
Qed.
End drop_strong.

Lemma wf_detach_s st x :
  wf st → is_Some (shared st !! x) → wf (detach_s x st).
Proof.
  intros Hwf [h Hx]. unfold detach_s. rewrite Hx.
  destruct (block_ h) as [b|] eqn:Hb.
  2:{ rewrite (wf_block_None st Hwf x h Hx Hb) in Hx.
      unfold put_s, with_shared. rewrite insert_id by done. by destruct st. }
  destruct (wf_shared_block st Hwf x h b Hx Hb) as (blk & Hblk & Hs & Hw & Hpos).
  destruct (wf_ptr_Some st Hwf x h b Hx Hb) as [a Ha].
  assert (Hothers : ∀ y hy, y ≠ x → shared st !! y = Some hy →
                     block_ hy = Some b → ¬ last_owner blk).
  { intros y hy Hne Hy Hyb Hl. red in Hl.
    pose proof (refs_two block_ (shared st) x y h hy b). unfold s_refs in *.
    naive_solver lia. }
  split.
  - (* wf_handle *)
    sst. rewrite drop_strong_shared. intros y hy Hy. inserts; [done|].
    by apply (wf_handle st Hwf y).
  - (* wf_blocks *)
    intros b'. sst. rewrite (drop_strong_heap st _ b blk Hblk).
    rewrite drop_strong_shared, drop_strong_weak.
    pose proof (wf_blocks st Hwf b') as Hb'. unfold last_ref_s.
    unfold s_refs, w_refs in *.
    destruct (decide (b' = b)) as [->|Hne].
    + rewrite Hblk in Hb'. case_decide as Hl; [destruct Hl|]; count_at b.
    + destruct (heap st !! b'); count_at b'.
  - (* wf_same *)
    sst. rewrite drop_strong_shared.
    intros y hy y' hy' Hy Hy' Hsome. inserts.
    + by destruct Hsome as [? [=]].
    + destruct Hsome as [b' Hb']. rewrite Hb'.
      destruct (wf_ptr_Some st Hwf y hy b' Hy Hb') as [a' ->]. naive_solver.
    + by destruct Hsome as [? [=]].
    + by apply (wf_same st Hwf y hy y' hy').
  - (* wf_observed *)
    sst. rewrite drop_strong_shared, drop_strong_weak.
    intros w hw y hy Hw' Hy Hsome. inserts; [by destruct Hsome as [? [=]]|].
    by apply (wf_observed st Hwf w hw y hy).
  - (* wf_freed_block *)
    intros b'. sst. rewrite (drop_strong_log st _ b blk), drop_strong_next,
      (drop_strong_heap st _ b blk) by done.
    rewrite !elem_of_app, (wf_freed_block st Hwf b').
    assert (b < next st) by (apply (wf_alloc st Hwf); eauto).
    rewrite Ha. repeat case_decide; subst; simpl;
      rewrite ?elem_of_cons, ?elem_of_nil; naive_solver.
  - (* wf_alloc *)
    intros b'. sst. rewrite drop_strong_next, (drop_strong_heap st _ b blk) by done.
    intros Hsome. apply (wf_alloc st Hwf).
    repeat case_decide; subst; eauto.
  - (* wf_nodup *)
    sst. rewrite (drop_strong_log st _ b blk) by done.
    assert (FreeBlock b ∉ log st).
    { rewrite (wf_freed_block st Hwf b). intros [_ ?]. congruence. }
    assert (FreeValue a ∉ log st).
    { intros Hin. apply (wf_freed_value st Hwf a Hin). by exists x, h. }
    pose proof (wf_nodup st Hwf). rewrite Ha.
    repeat case_decide; simpl; repeat (constructor; [set_solver|]); done.
  - (* wf_freed_value *)
    intros q. rewrite owned_put, drop_strong_shared. simpl.
    rewrite (drop_strong_log st _ b blk) by done.
    rewrite !elem_of_app. intros Hin [?|(y & hy & Hne & Hy & Hq)]; [done|].
    destruct Hin as [Hin|[Hin|Hin]].
    + case_decide; set_solver.
    + case_decide as Hl; [|set_solver]. rewrite Ha in Hin.
      apply list_elem_of_singleton in Hin. simplify_eq.
      apply (Hothers y hy Hne Hy); [|done].
      rewrite <- Hb. apply (wf_same st Hwf x h y hy Hx Hy); [eauto|congruence].
    + apply (wf_freed_value st Hwf q Hin). by exists y, hy.
  - sst. rewrite drop_strong_shared.
    rewrite map_size_insert_Some by eauto. apply (wf_size_s st Hwf).
  - sst. rewrite drop_strong_weak. apply (wf_size_w st Hwf).
Qed.

(** ** Transitions that create no new kind of handle *)

Section handles_sub.
Context (st st' : State) (Hwf : wf st).
Context (Hs : s_sub st st') (Hw : w_sub st st').

Lemma sub_handle x h :
  shared st' !! x = Some h → (ptr_ h = None ↔ block_ h = None).
Proof.
  intros Hx. destruct (Hs x h Hx) as [->|[y Hy]]; [done|].
  by apply (wf_handle st Hwf y).
Qed.

Lemma sub_same x h x' h' :
  shared st' !! x = Some h → shared st' !! x' = Some h' →
  is_Some (block_ h) → (block_ h' = block_ h ↔ ptr_ h' = ptr_ h).
Proof.
  intros Hx Hx' Hsome.
  destruct (Hs x h Hx) as [->|[y Hy]]; [by destruct Hsome as [? [=]]|].
  destruct (Hs x' h' Hx') as [->|[y' Hy']]; [|by apply (wf_same st Hwf y h y' h')].
  destruct Hsome as [b Hb]. rewrite Hb.
  destruct (wf_ptr_Some st Hwf y h b Hy Hb) as [a ->]. done.
Qed.

Lemma sub_observed w hw x hs :
  weak st' !! w = Some hw → shared st' !! x = Some hs →
  is_Some (block_ hs) → wblock_ hw = block_ hs → wptr_ hw = ptr_ hs.
Proof.
  intros Hw' Hx Hsome Heq.
  destruct (Hs x hs Hx) as [->|[y Hy]]; [by destruct Hsome as [? [=]]|].
  destruct (Hw w hw Hw') as [Hn|[[v Hv]|(z & hz & Hz & ->)]].
  - rewrite Hn in Heq. rewrite <- Heq in Hsome. by destruct Hsome as [? [=]].
  - by apply (wf_observed st Hwf v hw y hs).
  - simpl in *. by apply (wf_same st Hwf y hs z hz).
Qed.

Lemma sub_owned p : owned st' p → owned st p.
Proof.
  intros (x & h & Hx & Hp).
  destruct (Hs x h Hx) as [->|[y Hy]]; [done|]. by exists y, h.
Qed.
End handles_sub.

(** A transition that neither allocates nor deletes. *)
Lemma wf_quiet st st' :
  wf st → s_sub st st' → w_sub st st' →
  log st' = log st → next st' = next st →
  (∀ b, heap st' !! b = None ↔ heap st !! b = None) →
  (∀ b, match heap st' !! b with
        | Some blk =>
            shared_count_ blk = Z.of_nat (s_refs st' b) ∧
            weak_count_ blk = Z.of_nat (w_refs st' b) ∧
            0 < s_refs st' b + w_refs st' b
        | None => s_refs st' b = 0 ∧ w_refs st' b = 0
        end) →
  (Z.of_nat (size (shared st')) ≤ SIZE_MAX)%Z →
  (Z.of_nat (size (weak st')) ≤ SIZE_MAX)%Z →
  wf st'.
Proof.
  intros Hwf Hs Hw Hlog Hnext Hdom Hblocks Hss Hsw. split; try done.
  - by apply (sub_handle st).
  - by apply (sub_same st).
  - by apply (sub_observed st).
  - intros b. rewrite Hlog, Hnext, Hdom. apply (wf_freed_block st Hwf).
  - intros b Hsome. rewrite Hnext. apply (wf_alloc st Hwf).
    destruct (heap st !! b) eqn:E; [eauto|].
    apply Hdom in E. rewrite E in Hsome. by destruct Hsome as [? [=]].
  - rewrite Hlog. apply (wf_nodup st Hwf).
  - intros p. rewrite Hlog. intros Hin Hown.
    apply (wf_freed_value st Hwf p Hin). by apply (sub_owned st st').
Qed.

Lemma s_sub_refl st : s_sub st st.
Proof. intros x h Hx. eauto. Qed.
Lemma w_sub_refl st : w_sub st st.
Proof. intros x h Hx. eauto. Qed.

Lemma s_sub_same st st' : shared st' = shared st → s_sub st st'.
Proof. intros E x h Hx. rewrite E in Hx. eauto. Qed.
Lemma w_sub_same st st' : weak st' = weak st → w_sub st st'.
Proof. intros E x h Hx. rewrite E in Hx. eauto. Qed.

Lemma add_strong_heap st b blk b' :
  heap st !! b = Some blk →
  heap (add_strong b st) !! b' =
  if decide (b' = b) then Some (mkBlock (shared_count_ blk + 1) (weak_count_ blk))
  else heap st !! b'.
Proof.
  intros Hb. unfold add_strong. rewrite Hb. simpl. case_decide; subst.
  - by rewrite lookup_insert_eq.
  - by rewrite lookup_insert_ne.
Qed.

Lemma add_weak_heap st b blk b' :
  heap st !! b = Some blk →
  heap (add_weak b st) !! b' =
  if decide (b' = b) then Some (mkBlock (shared_count_ blk) (weak_count_ blk + 1))
  else heap st !! b'.
Proof.
  intros Hb. unfold add_weak. rewrite Hb. simpl. case_decide; subst.
  - by rewrite lookup_insert_eq.
  - by rewrite lookup_insert_ne.
Qed.

Lemma add_strong_proj st b :
  shared (add_strong b st) = shared st ∧ weak (add_strong b st) = weak st ∧
  next (add_strong b st) = next st ∧ log (add_strong b st) = log st.
Proof. unfold add_strong. by case_match. Qed.

Lemma add_weak_proj st b :
  shared (add_weak b st) = shared st ∧ weak (add_weak b st) = weak st ∧
  next (add_weak b st) = next st ∧ log (add_weak b st) = log st.
Proof. unfold add_weak. by case_match. Qed.

Lemma wf_new_s st x :
  wf st → shared st !! x = None → room_s st → wf (put_s x empty_s st).
Proof.
  intros Hwf Hx Hroom. apply (wf_quiet st); try done.
  - intros y h Hy. sst. inserts; eauto.
  - by apply w_sub_same.
  - intros b. pose proof (wf_blocks st Hwf b) as Hb. sst.
    destruct (heap st !! b); count_at b.
  - sst. rewrite map_size_insert_None by done. unfold room_s in Hroom. lia.
  - apply (wf_size_w st Hwf).
Qed.

Lemma wf_end_s st x :
  wf st → shared st !! x = Some empty_s → wf (with_shared (delete x) st).
Proof.
  intros Hwf Hx. apply (wf_quiet st); try done.
  - intros y h Hy. sst. inserts; eauto.
  - by apply w_sub_same.
  - intros b. pose proof (wf_blocks st Hwf b) as Hb. sst.
    destruct (heap st !! b); count_at b.
  - sst. rewrite map_size_delete_Some by eauto.
    pose proof (wf_size_s st Hwf). lia.
  - apply (wf_size_w st Hwf).
Qed.

Lemma wf_share_s st x y :
  wf st → x ≠ y → shared st !! x = Some empty_s → is_Some (shared st !! y) →
  wf (share_s x y st).
Proof.
  intros Hwf Hne Hx [h Hy]. unfold share_s. rewrite Hy.
  destruct (block_ h) as [b|] eqn:Hb.
  2:{ rewrite (wf_block_None st Hwf y h Hy Hb).
      unfold put_s, with_shared. rewrite insert_id by done. by destruct st. }
  destruct (wf_shared_block st Hwf y h b Hy Hb) as (blk & Hblk & Hs & Hw & Hpos).
  destruct (add_strong_proj st b) as (Esh & Ewk & Enx & Elg).
  apply (wf_quiet st); try done.
  - intros z hz Hz. sst. rewrite Esh in Hz. inserts; eauto.
  - apply w_sub_same. sst. by rewrite Ewk.
  - intros b'. sst. rewrite (add_strong_heap st b blk) by done.
    case_decide; [subst; by rewrite Hblk|done].
  - intros b'. pose proof (wf_blocks st Hwf b') as Hb'. sst.
    rewrite (add_strong_heap st b blk), Esh, Ewk by done.
    destruct (decide (b' = b)) as [->|Hnb];
      [rewrite Hblk in Hb'; count_at b|destruct (heap st !! b'); count_at b'].
  - sst. rewrite Esh, map_size_insert_Some by eauto. apply (wf_size_s st Hwf).
  - sst. rewrite Ewk. apply (wf_size_w st Hwf).
Qed.

Lemma wf_move_s st x y :
  wf st → x ≠ y → shared st !! x = Some empty_s → is_Some (shared st !! y) →
  wf (move_s x y st).
Proof.
  intros Hwf Hne Hx [h Hy]. unfold move_s. rewrite Hy.
  assert (Hy' : <[x:=h]> (shared st) !! y = Some h) by by rewrite lookup_insert_ne.
  apply (wf_quiet st); try done.
  - intros z hz Hz. sst. inserts; eauto.
  - by apply w_sub_same.
  - intros b. pose proof (wf_blocks st Hwf b) as Hb. sst.
    destruct (heap st !! b); count_at b.
  - sst. rewrite !map_size_insert_Some by eauto. apply (wf_size_s st Hwf).
  - apply (wf_size_w st Hwf).
Qed.

Lemma live_spec st w h :
  wf st → weak st !! w = Some h →
  live st (wblock_ h) = true ↔
  ∃ b y hs, wblock_ h = Some b ∧ shared st !! y = Some hs ∧ block_ hs = Some b.
Proof.
  intros Hwf Hw. unfold live. destruct (wblock_ h) as [b|] eqn:Hb.
  - destruct (wf_weak_block st Hwf w h b Hw Hb) as (blk & -> & Hs & _).
    rewrite Z.ltb_lt, Hs. split.
    + intros Hpos. destruct (proj1 (refs_pos block_ (shared st) b)) as (y & hs & ? & ?).
      { unfold s_refs in *. lia. }
      eauto 10.
    + intros (? & y & hs & [= <-] & Hy & Hyb).
      assert (0 < s_refs st b) by (apply refs_pos; eauto). lia.
  - split; [done|]. by intros (? & ? & ? & [=] & _).
Qed.

Lemma wf_upgrade_s st x w :
  wf st → shared st !! x = Some empty_s → is_Some (weak st !! w) →
  wf (upgrade_s x w st).
Proof.
  intros Hwf Hx [hw Hw]. unfold upgrade_s. rewrite Hw.
  destruct (live st (wblock_ hw)) eqn:Hlive.
  2:{ unfold put_s, with_shared. rewrite insert_id by done. by destruct st. }
  apply (live_spec st w hw Hwf Hw) in Hlive as (b & y & hs & Hb & Hy & Hyb).
  rewrite Hb.
  destruct (wf_shared_block st Hwf y hs b Hy Hyb) as (blk & Hblk & Hs & Hwc & Hpos).
  destruct (add_strong_proj st b) as (Esh & Ewk & Enx & Elg).
  assert (mkShared (wptr_ hw) (Some b) = hs) as ->.
  { rewrite (wf_observed st Hwf w hw y hs Hw Hy); [|eauto|congruence].
    rewrite <- Hyb. by destruct hs. }
  apply (wf_quiet st); try done.
  - intros z hz Hz. sst. rewrite Esh in Hz. inserts; eauto.
  - apply w_sub_same. sst. by rewrite Ewk.
  - intros b'. sst. rewrite (add_strong_heap st b blk) by done.
    case_decide; [subst; by rewrite Hblk|done].
  - intros b'. pose proof (wf_blocks st Hwf b') as Hb'. sst.
    rewrite (add_strong_heap st b blk), Esh, Ewk by done.
    destruct (decide (b' = b)) as [->|Hnb];
      [rewrite Hblk in Hb'; count_at b|destruct (heap st !! b'); count_at b'].
  - sst. rewrite Esh, map_size_insert_Some by eauto. apply (wf_size_s st Hwf).
  - sst. rewrite Ewk. apply (wf_size_w st Hwf).
Qed.

Lemma wf_fresh_block st :
  wf st → heap st !! next st = None ∧ s_refs st (next st) = 0 ∧
          w_refs st (next st) = 0.
Proof.
  intros Hwf. pose proof (wf_blocks st Hwf (next st)) as Hb.
  pose proof (wf_alloc st Hwf (next st)) as Ha.
  destruct (heap st !! next st); [|done].
  assert (next st < next st) by eauto. lia.
Qed.

Lemma wf_adopt_s st x p :
  wf st → shared st !! x = Some empty_s → exclusive st p →
  wf (adopt_s x p st).
Proof.
  intros Hwf Hx Hex. unfold adopt_s. destruct p as [a|].
  2:{ unfold put_s, with_shared. rewrite insert_id by done. by destruct st. }
  destruct Hex as [Hown Hfree].
  destruct (wf_fresh_block st Hwf) as (Hnone & Hs0 & Hw0).
  assert (Hnoblk : ∀ y hy, shared st !! y = Some hy → block_ hy ≠ Some (next st)).
  { by apply refs_zero. }
  assert (Hnoptr : ∀ y hy, shared st !! y = Some hy → ptr_ hy ≠ Some a).
  { intros y hy Hy Hp. apply Hown. by exists y, hy. }
  split.
  - intros y hy Hy. sst. inserts; [done|]. by apply (wf_handle st Hwf y).
  - intros b. pose proof (wf_blocks st Hwf b) as Hb. sst.
    destruct (decide (b = next st)) as [->|Hnb].
    + rewrite lookup_insert_eq. simpl. count_at (next st).
    + rewrite lookup_insert_ne by done. destruct (heap st !! b); count_at b.
  - intros y hy y' hy' Hy Hy' Hsome. sst. inserts.
    + done.
    + split; intros E; symmetry in E;
        [by destruct (Hnoblk _ _ Hy)|by destruct (Hnoptr _ _ Hy)].
    + split; intros E; [by destruct (Hnoblk _ _ Hy')|by destruct (Hnoptr _ _ Hy')].
    + by apply (wf_same st Hwf y hy y' hy').
  - intros w hw y hy Hw Hy Hsome Heq. sst. inserts.
    + apply (refs_zero wblock_ (weak st) (next st)) in Hw; [done|]. done.
    + by apply (wf_observed st Hwf w hw y hy).
  - intros b. sst. rewrite (wf_freed_block st Hwf b).
    destruct (decide (b = next st)) as [->|Hnb].
    + rewrite lookup_insert_eq. split; [lia|]. by intros [_ ?].
    + rewrite lookup_insert_ne by done. split; intros [? ?]; split; (done || lia).
  - intros b. sst. destruct (decide (b = next st)) as [->|Hnb]; [lia|].
    rewrite lookup_insert_ne by done. intros Hsome.
    pose proof (wf_alloc st Hwf b Hsome). lia.
  - apply (wf_nodup st Hwf).
  - intros q Hin. change (log _) with (log st) in Hin.
    rewrite owned_put. simpl. intros [E|(y & hy & _ & Hy & Hq)].
    + by simplify_eq.
    + apply (wf_freed_value st Hwf q Hin). by exists y, hy.
  - sst. rewrite map_size_insert_Some by eauto. apply (wf_size_s st Hwf).
  - apply (wf_size_w st Hwf).
Qed.

(** What [drop_weak] leaves behind. *)
Lemma drop_weak_proj st b :
  shared (drop_weak b st) = shared st ∧ weak (drop_weak b st) = weak st ∧
  next (drop_weak b st) = next st.
Proof. unfold drop_weak. by repeat case_match. Qed.

Section drop_weak.
Context (st : State) (b : loc) (blk : ControlBlock).
Context (Hblk : heap st !! b = Some blk).

Lemma drop_weak_heap b' :
  heap (drop_weak b st) !! b' =
  if decide (b' = b) then
    if decide (last_ref_w blk) then None
    else Some (mkBlock (shared_count_ blk) (weak_count_ blk - 1))
  else heap st !! b'.
Proof.
  unfold drop_weak, last_ref_w. rewrite Hblk.
  destruct (Z.eqb_spec (weak_count_ blk) 1) as [E1|E1];
    [destruct (Z.eqb_spec (shared_count_ blk) 0) as [E2|E2]|]; simpl;
    repeat case_decide; subst;
    rewrite ?lookup_delete_eq, ?lookup_insert_eq, ?lookup_delete_ne,
      ?lookup_insert_ne by done; try done; try lia.
  all: by destruct_and?.
Qed.

Lemma drop_weak_log :
  log (drop_weak b st) =
  (if decide (last_ref_w blk) then [FreeBlock b] else []) ++ log st.
Proof.
  unfold drop_weak, last_ref_w. rewrite Hblk.
  destruct (Z.eqb_spec (weak_count_ blk) 1) as [E1|E1];
    [destruct (Z.eqb_spec (shared_count_ blk) 0) as [E2|E2]|]; simpl;
    repeat case_decide; try done; lia.
Qed.
End drop_weak.

Lemma wf_detach_w st w :
  wf st → is_Some (weak st !! w) → wf (detach_w w st).
Proof.
  intros Hwf [h Hw]. unfold detach_w. rewrite Hw.
  destruct (wblock_ h) as [b|] eqn:Hb.
  - destruct (wf_weak_block st Hwf w h b Hw Hb) as (blk & Hblk & Hs & Hwc & Hpos).
    destruct (drop_weak_proj st b) as (Esh & Ewk & Enx).
    assert (Hsub : s_sub st (put_w w empty_w (drop_weak b st))).
    { apply s_sub_same. sst. by rewrite Esh. }
    assert (Hwsub : w_sub st (put_w w empty_w (drop_weak b st))).
    { intros v hv Hv. sst. rewrite Ewk in Hv. inserts; eauto. }
    split.
    + by apply (sub_handle st).
    + intros b'. sst. rewrite (drop_weak_heap st b blk Hblk), Esh, Ewk.
      pose proof (wf_blocks st Hwf b') as Hb'. unfold last_ref_w.
      unfold s_refs, w_refs in *.
      destruct (decide (b' = b)) as [->|Hne].
      * rewrite Hblk in Hb'. case_decide as Hl; [destruct Hl|]; count_at b.
      * destruct (heap st !! b'); count_at b'.
    + by apply (sub_same st).
    + by apply (sub_observed st).
    + intros b'. sst. rewrite (drop_weak_log st b blk), Enx,
        (drop_weak_heap st b blk) by done.
      rewrite !elem_of_app, (wf_freed_block st Hwf b').
      assert (b < next st) by (apply (wf_alloc st Hwf); eauto).
      repeat case_decide; subst; simpl;
        rewrite ?elem_of_cons, ?elem_of_nil; naive_solver.
    + intros b'. sst. rewrite Enx, (drop_weak_heap st b blk) by done.
      intros Hsome. apply (wf_alloc st Hwf).
      repeat case_decide; subst; eauto.
    + sst. rewrite (drop_weak_log st b blk) by done.
      assert (FreeBlock b ∉ log st).
      { rewrite (wf_freed_block st Hwf b). intros [_ ?]. congruence. }
      pose proof (wf_nodup st Hwf).
      case_decide; simpl; repeat (constructor; [set_solver|]); done.
    + intros q Hin Hown. apply (sub_owned st _ Hsub) in Hown.
      apply (wf_freed_value st Hwf q); [|done].
      sst. rewrite (drop_weak_log st b blk) in Hin by done.
      case_decide; set_solver.
    + sst. rewrite Esh. apply (wf_size_s st Hwf).
    + sst. rewrite Ewk, map_size_insert_Some by eauto. apply (wf_size_w st Hwf).
  - apply (wf_quiet st); try done.
    + by apply s_sub_same.
    + intros v hv Hv. sst. inserts; eauto.
    + intros b. pose proof (wf_blocks st Hwf b) as Hb'. sst.
      destruct (heap st !! b); count_at b.
    + apply (wf_size_s st Hwf).
    + sst. rewrite map_size_insert_Some by eauto. apply (wf_size_w st Hwf).
Qed.

Lemma wf_raw_w st w p :
  wf st → weak st !! w = None → room_w st → wf (put_w w (mkWeak None p) st).
Proof.
  intros Hwf Hw Hroom. apply (wf_quiet st); try done.
  - by apply s_sub_same.
  - intros v hv Hv. sst. inserts; eauto.
  - intros b. pose proof (wf_blocks st Hwf b) as Hb. sst.
    destruct (heap st !! b); count_at b.
  - apply (wf_size_s st Hwf).
  - sst. rewrite map_size_insert_None by done. unfold room_w in Hroom. lia.
Qed.

Lemma wf_end_w st w :
  wf st → weak st !! w = Some empty_w → wf (with_weak (delete w) st).
Proof.
  intros Hwf Hw. apply (wf_quiet st); try done.
  - by apply s_sub_same.
  - intros v hv Hv. sst. inserts; eauto.
  - intros b. pose proof (wf_blocks st Hwf b) as Hb. sst.
    destruct (heap st !! b); count_at b.
  - apply (wf_size_s st Hwf).
  - sst. rewrite map_size_delete_Some by eauto.
    pose proof (wf_size_w st Hwf). lia.
Qed.

Lemma wf_share_w st w v :
  wf st → w ≠ v → weak st !! w = Some empty_w → is_Some (weak st !! v) →
  wf (share_w w v st).
Proof.
  intros Hwf Hne Hw [h Hv]. unfold share_w. rewrite Hv.
  destruct (wblock_ h) as [b|] eqn:Hb.
  - destruct (wf_weak_block st Hwf v h b Hv Hb) as (blk & Hblk & Hs & Hwc & Hpos).
    destruct (add_weak_proj st b) as (Esh & Ewk & Enx & Elg).
    apply (wf_quiet st); try done.
    + apply s_sub_same. sst. by rewrite Esh.
    + intros z hz Hz. sst. rewrite Ewk in Hz. inserts; eauto.
    + intros b'. sst. rewrite (add_weak_heap st b blk) by done.
      case_decide; [subst; by rewrite Hblk|done].
    + intros b'. pose proof (wf_blocks st Hwf b') as Hb'. sst.
      rewrite (add_weak_heap st b blk), Esh, Ewk by done.
      destruct (decide (b' = b)) as [->|Hnb];
        [rewrite Hblk in Hb'; count_at b|destruct (heap st !! b'); count_at b'].
    + sst. rewrite Esh. apply (wf_size_s st Hwf).
    + sst. rewrite Ewk, map_size_insert_Some by eauto. apply (wf_size_w st Hwf).
  - apply (wf_quiet st); try done.
    + by apply s_sub_same.
    + intros z hz Hz. sst. inserts; eauto.
    + intros b. pose proof (wf_blocks st Hwf b) as Hb'. sst.
      destruct (heap st !! b); count_at b.
    + apply (wf_size_s st Hwf).
    + sst. rewrite map_size_insert_Some by eauto. apply (wf_size_w st Hwf).
Qed.

Lemma wf_move_w st w v :
  wf st → w ≠ v → weak st !! w = Some empty_w → is_Some (weak st !! v) →
  wf (move_w w v st).
Proof.
  intros Hwf Hne Hw [h Hv]. unfold move_w. rewrite Hv.
  assert (Hv' : <[w:=h]> (weak st) !! v = Some h) by by rewrite lookup_insert_ne.
  apply (wf_quiet st); try done.
  - by apply s_sub_same.
  - intros z hz Hz. sst. inserts; eauto.
  - intros b. pose proof (wf_blocks st Hwf b) as Hb. sst.
    destruct (heap st !! b); count_at b.
  - apply (wf_size_s st Hwf).
  - sst. rewrite !map_size_insert_Some by eauto. apply (wf_size_w st Hwf).
Qed.

Lemma wf_observe_w st w x :
  wf st → weak st !! w = Some empty_w → is_Some (shared st !! x) →
  wf (observe_w w x st).
Proof.
  intros Hwf Hw [h Hx]. unfold observe_w. rewrite Hx.
  destruct (block_ h) as [b|] eqn:Hb.
  - destruct (wf_shared_block st Hwf x h b Hx Hb) as (blk & Hblk & Hs & Hwc & Hpos).
    destruct (add_weak_proj st b) as (Esh & Ewk & Enx & Elg).
    apply (wf_quiet st); try done.
    + apply s_sub_same. sst. by rewrite Esh.
    + intros z hz Hz. sst. rewrite Ewk in Hz. inserts; [|eauto].
      right. right. exists x, h. by rewrite Hb.
    + intros b'. sst. rewrite (add_weak_heap st b blk) by done.
      case_decide; [subst; by rewrite Hblk|done].
    + intros b'. pose proof (wf_blocks st Hwf b') as Hb'. sst.
      rewrite (add_weak_heap st b blk), Esh, Ewk by done.
      destruct (decide (b' = b)) as [->|Hnb];
        [rewrite Hblk in Hb'; count_at b|destruct (heap st !! b'); count_at b'].
    + sst. rewrite Esh. apply (wf_size_s st Hwf).
    + sst. rewrite Ewk, map_size_insert_Some by eauto. apply (wf_size_w st Hwf).
  - apply (wf_quiet st); try done.
    + by apply s_sub_same.
    + intros z hz Hz. sst. inserts; eauto.
    + intros b. pose proof (wf_blocks st Hwf b) as Hb'. sst.
      destruct (heap st !! b); count_at b.
    + apply (wf_size_s st Hwf).
    + sst. rewrite map_size_insert_Some by eauto. apply (wf_size_w st Hwf).
Qed.

(** ** Symbolic execution of the member functions *)

Ltac unfold_m :=
  cbv [exec SharedPtr_Release SharedPtr_default SharedPtr_from_raw SharedPtr_copy
       SharedPtr_move SharedPtr_from_weak SharedPtr_assign SharedPtr_move_assign
       SharedPtr_dtor SharedPtr_Get SharedPtr_Reset WeakPtr_Release WeakPtr_default
       WeakPtr_from_raw WeakPtr_copy WeakPtr_move WeakPtr_from_shared WeakPtr_dtor
       WeakPtr_assign WeakPtr_move_assign WeakPtr_Lock WeakPtr_IsExpired
       incr_shared incr_weak alive
       bind ret fail s_ptr s_block set_s_ptr set_s_block w_ptr w_block set_w_ptr
       set_w_block construct_s end_s construct_w end_w shared_count weak_count
       set_shared_count set_weak_count new_ControlBlock delete_block delete_string
       with_shared with_weak with_heap shared weak heap next log].

Ltac unfold_post :=
  unfold detach_s, detach_w, share_s, share_w, move_s, move_w, observe_w,
    upgrade_s, adopt_s, drop_strong, drop_weak, add_strong, add_weak, alloc,
    live, push, frees, put_s, put_w, with_shared, with_weak, with_heap,
    empty_s, empty_w; simpl.

Ltac look :=
  repeat first
    [ rewrite lookup_insert_eq
    | rewrite lookup_insert_ne by congruence
    | rewrite lookup_delete_eq
    | rewrite lookup_delete_ne by congruence
    | match goal with H : ?m !! ?k = _ |- context [?m !! ?k] => rewrite H end
    | progress simpl ].

Ltac zlia :=
  unfold SIZE_MAX, room_s, room_w in *;
  change (2 ^ 64)%Z with 18446744073709551616%Z in *; lia.

Lemma wrap_small z : (0 ≤ z ≤ SIZE_MAX)%Z → wrap z = z.
Proof. unfold wrap. intros H. apply Z.mod_small. zlia. Qed.

Lemma bind_Some {A B} (m : M A) (k : A → M B) st a st' :
  m st = Some (a, st') → bind m k st = k a st'.
Proof. unfold bind. by intros ->. Qed.

Lemma wf_spare_s st x b :
  wf st → shared st !! x = Some empty_s → (Z.of_nat (s_refs st b) < SIZE_MAX)%Z.
Proof.
  intros Hwf Hx. unfold s_refs. rewrite (refs_delete block_ _ x _ b Hx).
  pose proof (refs_le_size block_ (delete x (shared st)) b).
  pose proof (wf_size_s st Hwf).
  assert (size (delete x (shared st)) < size (shared st)).
  { rewrite map_size_delete_Some by eauto.
    assert (size (shared st) ≠ 0); [|lia].
    apply map_size_non_empty_iff. intros E. by rewrite E in Hx. }
  unfold ind. simpl. lia.
Qed.

Lemma wf_spare_w st w b :
  wf st → weak st !! w = Some empty_w → (Z.of_nat (w_refs st b) < SIZE_MAX)%Z.
Proof.
  intros Hwf Hx. unfold w_refs. rewrite (refs_delete wblock_ _ w _ b Hx).
  pose proof (refs_le_size wblock_ (delete w (weak st)) b).
  pose proof (wf_size_w st Hwf).
  assert (size (delete w (weak st)) < size (weak st)).
  { rewrite map_size_delete_Some by eauto.
    assert (size (weak st) ≠ 0); [|lia].
    apply map_size_non_empty_iff. intros E. by rewrite E in Hx. }
  unfold ind. simpl. lia.
Qed.

Lemma wf_room_s_of_shared st x y h :
  wf st → shared st !! x = Some empty_s → shared st !! y = Some h →
  room_in_block_s st (block_ h).
Proof.
  intros Hwf Hx Hy b Hb.
  destruct (wf_shared_block st Hwf y h b Hy Hb) as (blk & ? & Hs & _).
  pose proof (wf_spare_s st x b Hwf Hx). exists blk. split; [done|lia].
Qed.

Lemma wf_room_s_of_weak st x w h :
  wf st → shared st !! x = Some empty_s → weak st !! w = Some h →
  room_in_block_s st (wblock_ h).
Proof.
  intros Hwf Hx Hy b Hb.
  destruct (wf_weak_block st Hwf w h b Hy Hb) as (blk & ? & Hs & _).
  pose proof (wf_spare_s st x b Hwf Hx). exists blk. split; [done|lia].
Qed.

Lemma wf_room_w_of_weak st w v h :
  wf st → weak st !! w = Some empty_w → weak st !! v = Some h →
  room_in_block_w st (wblock_ h).
Proof.
  intros Hwf Hx Hy b Hb.
  destruct (wf_weak_block st Hwf v h b Hy Hb) as (blk & ? & _ & Hw & _).
  pose proof (wf_spare_w st w b Hwf Hx). exists blk. split; [done|lia].
Qed.

Lemma wf_room_w_of_shared st w x h :
  wf st → weak st !! w = Some empty_w → shared st !! x = Some h →
  room_in_block_w st (block_ h).
Proof.
  intros Hwf Hx Hy b Hb.
  destruct (wf_shared_block st Hwf x h b Hy Hb) as (blk & ? & _ & Hw & _).
  pose proof (wf_spare_w st w b Hwf Hx). exists blk. split; [done|lia].
Qed.

(** ** The member functions compute the transitions *)

Lemma release_s_code st x h :
  wf st → shared st !! x = Some h →
  ∃ hx, SharedPtr_Release x st = Some (tt, put_s x hx (detach_s x st)).
Proof.
  intros Hwf Hx. destruct (block_ h) as [b|] eqn:Hb.
  - destruct (wf_shared_block st Hwf x h b Hx Hb) as (blk & Hblk & Hs & Hw & Hpos).
    destruct (wf_ptr_Some st Hwf x h b Hx Hb) as [a Ha].
    pose proof (wf_s_refs_bound st Hwf b).
    destruct st as [sh wk hp nx lg], h as [p bb]. simpl in *. subst.
    unfold_post. unfold_m. look.
    rewrite wrap_small by lia.
    replace (shared_count_ blk - 1 =? 0)%Z with (shared_count_ blk =? 1)%Z
      by (destruct (Z.eqb_spec (shared_count_ blk) 1),
            (Z.eqb_spec (shared_count_ blk - 1) 0); done || lia).
    destruct (shared_count_ blk =? 1)%Z eqn:E1; look.
    + apply Z.eqb_eq in E1. rewrite E1. simpl.
      destruct (weak_count_ blk =? 0)%Z; look.
      * eexists. by rewrite !insert_insert_eq, delete_insert_eq.
      * eexists. by rewrite !insert_insert_eq.
    + exists (mkShared (Some a) (Some b)).
      rewrite insert_insert_eq. by rewrite (insert_id sh x).
  - destruct st as [sh wk hp nx lg], h as [p bb]. simpl in *. subst.
    unfold_post. unfold_m. look.
    exists (mkShared p None). by rewrite insert_insert_eq, insert_id.
Qed.

Lemma release_w_code st w h :
  wf st → weak st !! w = Some h →
  WeakPtr_Release w st = Some (tt, detach_w w st).
Proof.
  intros Hwf Hx. destruct (wblock_ h) as [b|] eqn:Hb.
  - destruct (wf_weak_block st Hwf w h b Hx Hb) as (blk & Hblk & Hs & Hw & Hpos).
    pose proof (wf_w_refs_bound st Hwf b).
    destruct st as [sh wk hp nx lg], h as [bb pp]. simpl in *. subst.
    unfold_post. unfold_m. look.
    rewrite wrap_small by lia.
    replace (weak_count_ blk - 1 =? 0)%Z with (weak_count_ blk =? 1)%Z
      by (destruct (Z.eqb_spec (weak_count_ blk) 1),
            (Z.eqb_spec (weak_count_ blk - 1) 0); done || lia).
    destruct (weak_count_ blk =? 1)%Z eqn:E1; look.
    + destruct (shared_count_ blk =? 0)%Z; look.
      * by rewrite !insert_insert_eq, delete_insert_eq.
      * by rewrite !insert_insert_eq.
    + by rewrite !insert_insert_eq.
  - destruct st as [sh wk hp nx lg], h as [bb pp]. simpl in *. subst.
    unfold_post. unfold_m. look. done.
Qed.

Lemma detach_s_shared st x :
  is_Some (shared st !! x) →
  shared (detach_s x st) = <[x:=empty_s]> (shared st) ∧
  weak (detach_s x st) = weak st.
Proof.
  intros [h Hx]. unfold detach_s. rewrite Hx.
  destruct (block_ h); simpl; by rewrite ?drop_strong_shared, ?drop_strong_weak.
Qed.

Lemma detach_w_weak st w :
  is_Some (weak st !! w) →
  weak (detach_w w st) = <[w:=empty_w]> (weak st) ∧
  shared (detach_w w st) = shared st.
Proof.
  intros [h Hx]. unfold detach_w. rewrite Hx.
  destruct (wblock_ h) as [b|]; simpl; [|done].
  by destruct (drop_weak_proj st b) as (-> & -> & _).
Qed.

Lemma exclusive_new st x p :
  exclusive st p → exclusive (put_s x empty_s st) p.
Proof.
  destruct p as [a|]; [|done]. intros [Hown Hlog]. split; [|done].
  rewrite owned_put. intros [?|(y & hy & _ & ? & ?)]; [done|].
  apply Hown. by exists y, hy.
Qed.

Lemma exclusive_detach st x p :
  wf st → is_Some (shared st !! x) → exclusive st p →
  exclusive (detach_s x st) p.
Proof.
  destruct p as [a|]; [|done]. intros Hwf [h Hx] [Hown Hlog].
  assert (ptr_ h ≠ Some a) by (intros ?; apply Hown; by exists x, h).
  unfold detach_s. rewrite Hx. destruct (block_ h) as [b|] eqn:Hb; split.
  - rewrite owned_put, drop_strong_shared. intros [?|(y & hy & _ & ? & ?)]; [done|].
    apply Hown. by exists y, hy.
  - destruct (wf_shared_block st Hwf x h b Hx Hb) as (blk & Hblk & _).
    simpl. rewrite (drop_strong_log st _ b blk Hblk).
    rewrite !elem_of_app. intros [Hin|[Hin|Hin]]; [| |done].
    + case_decide; set_solver.
    + case_decide; [|set_solver]. destruct (ptr_ h); set_solver.
  - rewrite owned_put. intros [?|(y & hy & _ & ? & ?)]; [done|].
    apply Hown. by exists y, hy.
  - done.
Qed.

Lemma wf_post st c : wf st → cmd_ok st c → wf (post c st).
Proof.
  intros Hwf Hok. destruct c; simpl in *.
  - (* SDefault *) destruct Hok. by apply wf_new_s.
  - (* SNew *) destruct Hok as (Hx & Hroom & Hex).
    apply wf_adopt_s; [by apply wf_new_s|apply lookup_insert_eq|by apply exclusive_new].
  - (* SCopy *) destruct Hok as (Hx & Hroom & Hy).
    assert (x ≠ y) by (intros ->; rewrite Hx in Hy; by destruct Hy as [? [=]]).
    apply wf_share_s; [by apply wf_new_s|done|apply lookup_insert_eq|].
    simpl. by rewrite lookup_insert_ne.
  - (* SMove *) destruct Hok as (Hx & Hroom & Hy).
    assert (x ≠ y) by (intros ->; rewrite Hx in Hy; by destruct Hy as [? [=]]).
    apply wf_move_s; [by apply wf_new_s|done|apply lookup_insert_eq|].
    simpl. by rewrite lookup_insert_ne.
  - (* SUpgrade *) destruct Hok as (Hx & Hroom & Hw).
    apply wf_upgrade_s; [by apply wf_new_s|apply lookup_insert_eq|done].
  - (* SAssign *) destruct Hok as (Hx & Hy). case_decide; [|done].
    destruct (detach_s_shared st x Hx) as [Es Ew].
    apply wf_share_s; [by apply wf_detach_s|done|..]; rewrite Es.
    + apply lookup_insert_eq.
    + by rewrite lookup_insert_ne.
  - (* SMoveAssign *) destruct Hok as (Hx & Hy). case_decide; [|done].
    destruct (detach_s_shared st x Hx) as [Es Ew].
    apply wf_move_s; [by apply wf_detach_s|done|..]; rewrite Es.
    + apply lookup_insert_eq.
    + by rewrite lookup_insert_ne.
  - (* SReset *) destruct Hok as (Hx & Hex).
    destruct (detach_s_shared st x Hx) as [Es Ew].
    apply wf_adopt_s; [by apply wf_detach_s| |by apply exclusive_detach].
    rewrite Es. apply lookup_insert_eq.
  - (* SDestroy *)
    destruct (detach_s_shared st x Hok) as [Es Ew].
    apply wf_end_s; [by apply wf_detach_s|]. rewrite Es. apply lookup_insert_eq.
  - (* WDefault *) destruct Hok. by apply wf_raw_w.
  - (* WNew *) destruct Hok. by apply wf_raw_w.
  - (* WCopy *) destruct Hok as (Hx & Hroom & Hy).
    assert (w ≠ v) by (intros ->; rewrite Hx in Hy; by destruct Hy as [? [=]]).
    apply wf_share_w; [by apply wf_raw_w|done|apply lookup_insert_eq|].
    simpl. by rewrite lookup_insert_ne.
  - (* WMove *) destruct Hok as (Hx & Hroom & Hy).
    assert (w ≠ v) by (intros ->; rewrite Hx in Hy; by destruct Hy as [? [=]]).
    apply wf_move_w; [by apply wf_raw_w|done|apply lookup_insert_eq|].
    simpl. by rewrite lookup_insert_ne.
  - (* WObserve *) destruct Hok as (Hx & Hroom & Hy).
    apply wf_observe_w; [by apply wf_raw_w|apply lookup_insert_eq|done].
  - (* WAssign *) destruct Hok as (Hx & Hy). case_decide; [|done].
    destruct (detach_w_weak st w Hx) as [Ew Es].
    apply wf_share_w; [by apply wf_detach_w|done|..]; rewrite Ew.
    + apply lookup_insert_eq.
    + by rewrite lookup_insert_ne.
  - (* WMoveAssign *) destruct Hok as (Hx & Hy). case_decide; [|done].
    destruct (detach_w_weak st w Hx) as [Ew Es].
    apply wf_move_w; [by apply wf_detach_w|done|..]; rewrite Ew.
    + apply lookup_insert_eq.
    + by rewrite lookup_insert_ne.
  - (* WDestroy *)
    destruct (detach_w_weak st w Hok) as [Ew Es].
    apply wf_end_w; [by apply wf_detach_w|]. rewrite Ew. apply lookup_insert_eq.
  - (* WLock *) destruct Hok as (Hx & Hroom & Hw).
    apply wf_upgrade_s; [by apply wf_new_s|apply lookup_insert_eq|done].
Qed.

Section exec_post.
Context (st : State) (Hwf : wf st).

Lemma exec_SDefault x : cmd_ok st (SDefault x) →
  exec (SDefault x) st = Some (tt, post (SDefault x) st).
Proof.
  intros [Hx _]. destruct st as [sh wk hp nx lg]. simpl in *.
  unfold_post. unfold_m. by look.
Qed.

Lemma exec_SNew x p : cmd_ok st (SNew x p) →
  exec (SNew x p) st = Some (tt, post (SNew x p) st).
Proof.
  intros (Hx & _). destruct st as [sh wk hp nx lg]. simpl in *.
  unfold_post. unfold_m. look. destruct p as [a|]; look.
  - by rewrite !insert_insert_eq.
  - by rewrite insert_insert_eq.
Qed.

Lemma exec_SCopy x y : cmd_ok st (SCopy x y) →
  exec (SCopy x y) st = Some (tt, post (SCopy x y) st).
Proof.
  intros (Hx & Hroom & [h Hy]).
  assert (x ≠ y) by congruence.
  pose proof (wf_room_s_of_shared (put_s x empty_s st) x y h) as Hr.
  simpl in Hr. rewrite lookup_insert_eq, lookup_insert_ne in Hr by done.
  specialize (Hr (wf_new_s st x Hwf Hx Hroom) eq_refl Hy).
  destruct st as [sh wk hp nx lg], h as [p [b|]]; simpl in *;
    unfold_post; unfold_m; look.
  - destruct (Hr b eq_refl) as (blk & Hblk & ?). simpl in Hblk. look.
    rewrite wrap_small by lia. by rewrite insert_insert_eq.
  - by rewrite insert_insert_eq.
Qed.

Lemma exec_SMove x y : cmd_ok st (SMove x y) →
  exec (SMove x y) st = Some (tt, post (SMove x y) st).
Proof.
  intros (Hx & Hroom & [h Hy]).
  assert (x ≠ y) by congruence.
  destruct st as [sh wk hp nx lg], h as [p b]; simpl in *.
  unfold_post. unfold_m. look.
  by rewrite !insert_insert_eq.
Qed.

Lemma exec_upgrade x w :
  shared st !! x = None → room_s st → is_Some (weak st !! w) →
  SharedPtr_from_weak x w st = Some (tt, upgrade_s x w (put_s x empty_s st)).
Proof.
  intros Hx Hroom [h Hw].
  pose proof (wf_room_s_of_weak (put_s x empty_s st) x w h) as Hr.
  simpl in Hr. rewrite lookup_insert_eq in Hr.
  specialize (Hr (wf_new_s st x Hwf Hx Hroom) eq_refl Hw).
  destruct st as [sh wk hp nx lg], h as [[b|] p]; simpl in *;
    unfold_post; unfold_m; look.
  - destruct (Hr b eq_refl) as (blk & Hblk & ?). simpl in Hblk. look.
    destruct (0 <? shared_count_ blk)%Z; look.
    + rewrite wrap_small by lia. by rewrite !insert_insert_eq.
    + by rewrite !insert_insert_eq.
  - by rewrite !insert_insert_eq.
Qed.

Lemma exec_SUpgrade x w : cmd_ok st (SUpgrade x w) →
  exec (SUpgrade x w) st = Some (tt, post (SUpgrade x w) st).
Proof. intros (Hx & Hroom & Hw). by apply exec_upgrade. Qed.

Lemma exec_WLock x w : cmd_ok st (WLock x w) →
  exec (WLock x w) st = Some (tt, post (WLock x w) st).
Proof.
  intros (Hx & Hroom & Hw). simpl. rewrite <- (exec_upgrade x w Hx Hroom Hw).
  destruct Hw as [h Hw].
  pose proof (wf_room_s_of_weak (put_s x empty_s st) x w h) as Hr.
  simpl in Hr. rewrite lookup_insert_eq in Hr.
  specialize (Hr (wf_new_s st x Hwf Hx Hroom) eq_refl Hw).
  destruct st as [sh wk hp nx lg], h as [[b|] p]; simpl in *;
    unfold_m; look; [|by rewrite !insert_insert_eq].
  destruct (Hr b eq_refl) as (blk & Hblk & ?). simpl in Hblk. look.
  destruct (0 <? shared_count_ blk)%Z eqn:E; look; rewrite ?E; look;
    by rewrite ?insert_insert_eq.
Qed.

(** The state between [Release()] and the assignments that follow it. *)
Lemma after_release x h :
  shared st !! x = Some h →
  ∃ hx s, SharedPtr_Release x st = Some (tt, put_s x hx s) ∧
          s = detach_s x st ∧ wf s ∧ shared s !! x = Some empty_s ∧
          (∀ y, x ≠ y → shared s !! y = shared st !! y) ∧ weak s = weak st.
Proof.
  intros Hx. destruct (release_s_code st x h Hwf Hx) as [hx Hrel].
  destruct (detach_s_shared st x) as [Es Ew]; [eauto|].
  exists hx, (detach_s x st). split_and!; try done.
  - apply wf_detach_s; eauto.
  - rewrite Es. apply lookup_insert_eq.
  - intros y Hne. rewrite Es. by apply lookup_insert_ne.
Qed.

Lemma exec_SAssign x y : cmd_ok st (SAssign x y) →
  exec (SAssign x y) st = Some (tt, post (SAssign x y) st).
Proof.
  intros ([hx Hx] & [hy Hy]). simpl. unfold SharedPtr_assign.
  case_decide as Hne; [|done].
  destruct (after_release x hx Hx) as (hx' & s & Hrel & <- & Hwf' & Hx' & Hoth & Hwk).
  rewrite (bind_Some _ _ _ _ _ Hrel).
  rewrite <- (Hoth y Hne) in Hy.
  pose proof (wf_room_s_of_shared s x y hy Hwf' Hx' Hy) as Hr.
  clear Hrel Hoth Hwk Hwf'.
  destruct s as [sh wk hp nx lg], hy as [p [b|]]; simpl in *;
    unfold_post; unfold_m; look.
  - destruct (Hr b eq_refl) as (blk & Hblk & ?). simpl in Hblk. look.
    rewrite wrap_small by lia. by rewrite !insert_insert_eq.
  - by rewrite !insert_insert_eq.
Qed.

Lemma exec_SMoveAssign x y : cmd_ok st (SMoveAssign x y) →
  exec (SMoveAssign x y) st = Some (tt, post (SMoveAssign x y) st).
Proof.
  intros ([hx Hx] & [hy Hy]). simpl. unfold SharedPtr_move_assign.
  case_decide as Hne; [|done].
  destruct (after_release x hx Hx) as (hx' & s & Hrel & <- & Hwf' & Hx' & Hoth & Hwk).
  rewrite (bind_Some _ _ _ _ _ Hrel).
  rewrite <- (Hoth y Hne) in Hy.
  clear Hrel Hoth Hwk Hwf'.
  destruct s as [sh wk hp nx lg], hy as [p b]; simpl in *;
    unfold_post; unfold_m; look.
  by rewrite !insert_insert_eq.
Qed.

Lemma exec_SReset x p : cmd_ok st (SReset x p) →
  exec (SReset x p) st = Some (tt, post (SReset x p) st).
Proof.
  intros ([hx Hx] & Hex). simpl. unfold SharedPtr_Reset.
  destruct (after_release x hx Hx) as (hx' & s & Hrel & <- & Hwf' & Hx' & Hoth & Hwk).
  rewrite (bind_Some _ _ _ _ _ Hrel).
  clear Hrel Hoth Hwk Hwf'.
  destruct s as [sh wk hp nx lg], p as [a|]; simpl in *;
    unfold_post; unfold_m; look; by rewrite !insert_insert_eq.
Qed.

Lemma exec_SDestroy x : cmd_ok st (SDestroy x) →
  exec (SDestroy x) st = Some (tt, post (SDestroy x) st).
Proof.
  intros [hx Hx]. simpl. unfold SharedPtr_dtor.
  destruct (after_release x hx Hx) as (hx' & s & Hrel & <- & Hwf' & Hx' & Hoth & Hwk).
  rewrite (bind_Some _ _ _ _ _ Hrel).
  clear Hrel Hoth Hwk Hwf'.
  destruct s as [sh wk hp nx lg]; simpl in *;
    unfold_post; unfold_m; look. by rewrite delete_insert_eq.
Qed.

Lemma exec_WDefault w : cmd_ok st (WDefault w) →
  exec (WDefault w) st = Some (tt, post (WDefault w) st).
Proof.
  intros [Hw _]. destruct st as [sh wk hp nx lg]. simpl in *.
  unfold_post. unfold_m. by look.
Qed.

Lemma exec_WNew w p : cmd_ok st (WNew w p) →
  exec (WNew w p) st = Some (tt, post (WNew w p) st).
Proof.
  intros [Hw _]. destruct st as [sh wk hp nx lg]. simpl in *.
  unfold_post. unfold_m. by look.
Qed.

Lemma exec_WCopy w v : cmd_ok st (WCopy w v) →
  exec (WCopy w v) st = Some (tt, post (WCopy w v) st).
Proof.
  intros (Hw & Hroom & [h Hv]).
  assert (w ≠ v) by congruence.
  pose proof (wf_room_w_of_weak (put_w w empty_w st) w v h) as Hr.
  simpl in Hr. rewrite lookup_insert_eq, lookup_insert_ne in Hr by done.
  specialize (Hr (wf_raw_w st w None Hwf Hw Hroom) eq_refl Hv).
  destruct st as [sh wk hp nx lg], h as [[b|] p]; simpl in *;
    unfold_post; unfold_m; look.
  - destruct (Hr b eq_refl) as (blk & Hblk & ?). simpl in Hblk. look.
    rewrite wrap_small by lia. by rewrite insert_insert_eq.
  - by rewrite insert_insert_eq.
Qed.

Lemma exec_WMove w v : cmd_ok st (WMove w v) →
  exec (WMove w v) st = Some (tt, post (WMove w v) st).
Proof.
  intros (Hw & Hroom & [h Hv]).
  assert (w ≠ v) by congruence.
  destruct st as [sh wk hp nx lg], h as [b p]; simpl in *.
  unfold_post. unfold_m. look.
  by rewrite !insert_insert_eq.
Qed.

Lemma exec_WObserve w x : cmd_ok st (WObserve w x) →
  exec (WObserve w x) st = Some (tt, post (WObserve w x) st).
Proof.
  intros (Hw & Hroom & [h Hx]).
  pose proof (wf_room_w_of_shared (put_w w empty_w st) w x h) as Hr.
  simpl in Hr. rewrite lookup_insert_eq in Hr.
  specialize (Hr (wf_raw_w st w None Hwf Hw Hroom) eq_refl Hx).
  destruct st as [sh wk hp nx lg], h as [p [b|]]; simpl in *;
    unfold_post; unfold_m; look.
  - destruct (Hr b eq_refl) as (blk & Hblk & ?). simpl in Hblk. look.
    rewrite wrap_small by lia. by rewrite insert_insert_eq.
  - by rewrite insert_insert_eq.
Qed.

Lemma after_release_w w h :
  weak st !! w = Some h →
  ∃ s, WeakPtr_Release w st = Some (tt, s) ∧
       s = detach_w w st ∧ wf s ∧ weak s !! w = Some empty_w ∧
       (∀ v, w ≠ v → weak s !! v = weak st !! v) ∧ shared s = shared st.
Proof.
  intros Hw. destruct (detach_w_weak st w) as [Ew Es]; [eauto|].
  exists (detach_w w st). split_and!; try done.
  - by apply (release_w_code st w h).
  - apply wf_detach_w; eauto.
  - rewrite Ew. apply lookup_insert_eq.
  - intros y Hne. rewrite Ew. by apply lookup_insert_ne.
Qed.

Lemma exec_WAssign w v : cmd_ok st (WAssign w v) →
  exec (WAssign w v) st = Some (tt, post (WAssign w v) st).
Proof.
  intros ([hw Hw] & [hv Hv]). simpl. unfold WeakPtr_assign.
  case_decide as Hne; [|done].
  destruct (after_release_w w hw Hw) as (s & Hrel & <- & Hwf' & Hw' & Hoth & Hsh).
  rewrite (bind_Some _ _ _ _ _ Hrel).
  rewrite <- (Hoth v Hne) in Hv.
  pose proof (wf_room_w_of_weak s w v hv Hwf' Hw' Hv) as Hr.
  clear Hrel Hoth Hsh Hwf'.
  destruct s as [sh wk hp nx lg], hv as [[b|] p]; simpl in *;
    unfold_post; unfold_m; look.
  - destruct (Hr b eq_refl) as (blk & Hblk & ?). simpl in Hblk. look.
    rewrite wrap_small by lia. by rewrite !insert_insert_eq.
  - by rewrite !insert_insert_eq.
Qed.

Lemma exec_WMoveAssign w v : cmd_ok st (WMoveAssign w v) →
  exec (WMoveAssign w v) st = Some (tt, post (WMoveAssign w v) st).
Proof.
  intros ([hw Hw] & [hv Hv]). simpl. unfold WeakPtr_move_assign.
  case_decide as Hne; [|done].
  destruct (after_release_w w hw Hw) as (s & Hrel & <- & Hwf' & Hw' & Hoth & Hsh).
  rewrite (bind_Some _ _ _ _ _ Hrel).
  rewrite <- (Hoth v Hne) in Hv.
  clear Hrel Hoth Hsh Hwf'.
  destruct s as [sh wk hp nx lg], hv as [b p]; simpl in *;
    unfold_post; unfold_m; look.
  by rewrite !insert_insert_eq.
Qed.

Lemma exec_WDestroy w : cmd_ok st (WDestroy w) →
  exec (WDestroy w) st = Some (tt, post (WDestroy w) st).
Proof.
  intros [hw Hw]. simpl. unfold WeakPtr_dtor.
  destruct (after_release_w w hw Hw) as (s & Hrel & <- & Hwf' & Hw' & Hoth & Hsh).
  rewrite (bind_Some _ _ _ _ _ Hrel).
  clear Hrel Hoth Hsh Hwf'.
  destruct s as [sh wk hp nx lg]; simpl in *;
    unfold_post; unfold_m; by look.
Qed.

(** From a well-formed state, every statement the caller may write runs
    without undefined behaviour and computes its transition. *)
Theorem exec_post c : cmd_ok st c → exec c st = Some (tt, post c st).
Proof.
  destruct c.
  - apply exec_SDefault.
  - apply exec_SNew.
  - apply exec_SCopy.
  - apply exec_SMove.
  - apply exec_SUpgrade.
  - apply exec_SAssign.
  - apply exec_SMoveAssign.
  - apply exec_SReset.
  - apply exec_SDestroy.
  - apply exec_WDefault.
  - apply exec_WNew.
  - apply exec_WCopy.
  - apply exec_WMove.
  - apply exec_WObserve.
  - apply exec_WAssign.
  - apply exec_WMoveAssign.
  - apply exec_WDestroy.
  - apply exec_WLock.
Qed.
End exec_post.

(** ** What a statement adds to the log *)

Ltac quiet_log :=
  unfold share_s, share_w, move_s, move_w, observe_w, upgrade_s, adopt_s,
    add_strong, add_weak, alloc, put_s, put_w;
  repeat case_match; reflexivity.

Lemma log_share_s x y st : log (share_s x y st) = log st.
Proof. quiet_log. Qed.
Lemma log_share_w w v st : log (share_w w v st) = log st.
Proof. quiet_log. Qed.
Lemma log_move_s x y st : log (move_s x y st) = log st.
Proof. quiet_log. Qed.
Lemma log_move_w w v st : log (move_w w v st) = log st.
Proof. quiet_log. Qed.
Lemma log_observe_w w x st : log (observe_w w x st) = log st.
Proof. quiet_log. Qed.
Lemma log_upgrade_s x w st : log (upgrade_s x w st) = log st.
Proof. quiet_log. Qed.
Lemma log_adopt_s x p st : log (adopt_s x p st) = log st.
Proof. quiet_log. Qed.

Lemma log_post st c :
  log (post c st) =
  match releases_s c, releases_w c with
  | Some x, _ => log (detach_s x st)
  | None, Some w => log (detach_w w st)
  | None, None => log st
  end.
Proof.
  destruct c; simpl; repeat case_decide;
    rewrite ?log_share_s, ?log_share_w, ?log_move_s, ?log_move_w,
      ?log_observe_w, ?log_upgrade_s, ?log_adopt_s; done.
Qed.

Lemma log_detach_s st x h :
  shared st !! x = Some h →
  log (detach_s x st) =
  match block_ h with
  | Some b =>
      match heap st !! b with
      | Some blk =>
          (if decide (last_ref_s blk) then [FreeBlock b] else []) ++
          (if decide (last_owner blk) then frees (ptr_ h) else []) ++ log st
      | None => log st
      end
  | None => log st
  end.
Proof.
  intros Hx. unfold detach_s. rewrite Hx.
  destruct (block_ h) as [b|]; [|done].
  destruct (heap st !! b) as [blk|] eqn:Hblk.
  - apply (drop_strong_log st _ b blk Hblk).
  - unfold drop_strong. simpl. by rewrite Hblk.
Qed.

Lemma log_detach_w st w h :
  weak st !! w = Some h →
  log (detach_w w st) =
  match wblock_ h with
  | Some b =>
      match heap st !! b with
      | Some blk => (if decide (last_ref_w blk) then [FreeBlock b] else []) ++ log st
      | None => log st
      end
  | None => log st
  end.
Proof.
  intros Hx. unfold detach_w. rewrite Hx.
  destruct (wblock_ h) as [b|]; [|done].
  destruct (heap st !! b) as [blk|] eqn:Hblk.
  - apply (drop_weak_log st b blk Hblk).
  - unfold drop_weak. simpl. by rewrite Hblk.
Qed.

Lemma releases_s_ok st c x :
  cmd_ok st c → releases_s c = Some x → is_Some (shared st !! x).
Proof.
  destruct c; simpl; try done; repeat case_decide; intros Hok [= <-];
    tauto.
Qed.

Lemma releases_w_ok st c w :
  cmd_ok st c → releases_w c = Some w → is_Some (weak st !! w).
Proof.
  destruct c; simpl; try done; repeat case_decide; intros Hok [= <-];
    tauto.
Qed.

Lemma releases_one c x : releases_s c = Some x → releases_w c = None.
Proof. by destruct c. Qed.

(** A value is deleted by a statement exactly when the statement releases
    its last owning handle. *)
Lemma new_value_iff st c a :
  wf st → cmd_ok st c →
  (FreeValue a ∈ log (post c st) ∧ FreeValue a ∉ log st) ↔ last_release c st a.
Proof.
  intros Hwf Hok. rewrite log_post. split.
  - intros [Hin Hnew].
    destruct (releases_s c) as [x|] eqn:Hrs.
    + destruct (releases_s_ok st c x Hok Hrs) as [h Hx].
      rewrite (log_detach_s st x h Hx) in Hin.
      destruct (block_ h) as [b|] eqn:Hb; [|done].
      destruct (heap st !! b) as [blk|] eqn:Hblk; [|done].
      rewrite !elem_of_app in Hin. destruct Hin as [Hin|[Hin|Hin]]; [| |done].
      * case_decide; set_solver.
      * case_decide as Hl; [|set_solver].
        destruct (ptr_ h) as [a'|] eqn:Ha; simpl in Hin; [|set_solver].
        apply list_elem_of_singleton in Hin. simplify_eq.
        by exists x, h, b, blk.
    + destruct (releases_w c) as [w|] eqn:Hrw; [|done].
      destruct (releases_w_ok st c w Hok Hrw) as [h Hw].
      rewrite (log_detach_w st w h Hw) in Hin.
      destruct (wblock_ h) as [b|]; [|done].
      destruct (heap st !! b) as [blk|]; [|done].
      rewrite elem_of_app in Hin. destruct Hin as [Hin|Hin]; [|done].
      case_decide; set_solver.
  - intros (x & h & b & blk & Hrs & Hx & Ha & Hb & Hblk & Hone).
    rewrite Hrs, (log_detach_s st x h Hx), Hb, Hblk, Ha. split.
    + rewrite !elem_of_app. right. left.
      rewrite decide_True by done. set_solver.
    + intros Hin. apply (wf_freed_value st Hwf a Hin). by exists x, h.
Qed.

(** A block is deleted by a statement exactly when the statement releases
    the last handle that points to it, whichever kind it is. *)
Lemma new_block_iff st c b :
  wf st → cmd_ok st c →
  (FreeBlock b ∈ log (post c st) ∧ FreeBlock b ∉ log st) ↔ last_handle c st b.
Proof.
  intros Hwf Hok. rewrite log_post. split.
  - intros [Hin Hnew].
    destruct (releases_s c) as [x|] eqn:Hrs.
    + destruct (releases_s_ok st c x Hok Hrs) as [h Hx].
      rewrite (log_detach_s st x h Hx) in Hin.
      destruct (block_ h) as [b'|] eqn:Hb; [|done].
      destruct (heap st !! b') as [blk|] eqn:Hblk; [|done].
      rewrite !elem_of_app in Hin. destruct Hin as [Hin|[Hin|Hin]]; [| |done].
      * case_decide as Hl; [|set_solver].
        apply list_elem_of_singleton in Hin. simplify_eq.
        destruct Hl. exists blk. split; [done|]. left. by exists x, h.
      * case_decide; [|set_solver]. destruct (ptr_ h); set_solver.
    + destruct (releases_w c) as [w|] eqn:Hrw; [|done].
      destruct (releases_w_ok st c w Hok Hrw) as [h Hw].
      rewrite (log_detach_w st w h Hw) in Hin.
      destruct (wblock_ h) as [b'|] eqn:Hb; [|done].
      destruct (heap st !! b') as [blk|] eqn:Hblk; [|done].
      rewrite elem_of_app in Hin. destruct Hin as [Hin|Hin]; [|done].
      case_decide as Hl; [|set_solver].
      apply list_elem_of_singleton in Hin. simplify_eq.
      destruct Hl. exists blk. split; [done|]. right. by exists w, h.
  - intros (blk & Hblk & [(x & h & Hrs & Hx & Hb & Hs & Hw)|(w & h & Hrw & Hx & Hb & Hs & Hw)]).
    + rewrite Hrs, (log_detach_s st x h Hx), Hb, Hblk. split.
      * rewrite decide_True by done. set_solver.
      * rewrite (wf_freed_block st Hwf b). intros [_ ?]. congruence.
    + destruct (releases_s c) as [x|] eqn:Hrs.
      { apply releases_one in Hrs. congruence. }
      rewrite Hrw, (log_detach_w st w h Hx), Hb, Hblk. split.
      * rewrite decide_True by done. set_solver.
      * rewrite (wf_freed_block st Hwf b). intros [_ ?]. congruence.
Qed.

(** ** Which values are held, before and after a statement *)

Lemma owned_same st st' a : shared st' = shared st → owned st' a ↔ owned st a.
Proof. unfold owned. by intros ->. Qed.

Lemma owned_fill st x h a :
  (∀ hx, shared st !! x = Some hx → ptr_ hx = None) →
  owned (put_s x h st) a ↔ ptr_ h = Some a ∨ owned st a.
Proof.
  intros Hx. rewrite owned_put. split.
  - intros [?|(y & hy & _ & Hy & Ha)]; [by left|]. right. by exists y, hy.
  - intros [?|(y & hy & Hy & Ha)]; [by left|]. right. exists y, hy.
    split_and!; try done. intros ->. apply Hx in Hy. congruence.
Qed.

Lemma owned_end st x a :
  shared st !! x = Some empty_s →
  owned (with_shared (delete x) st) a ↔ owned st a.
Proof.
  intros Hx. unfold owned, map_Exists. simpl. split.
  - intros (y & hy & Hy & Ha). apply lookup_delete_Some in Hy as [? Hy]. eauto.
  - intros (y & hy & Hy & Ha). exists y, hy. split; [|done].
    apply lookup_delete_Some. split; [|done]. intros ->. by simplify_eq.
Qed.

Lemma empty_stays st st' x :
  shared st !! x = Some empty_s → shared st' = shared st →
  ∀ hx, shared st' !! x = Some hx → ptr_ hx = None.
Proof. intros Hx -> hx Hhx. rewrite Hx in Hhx. by simplify_eq. Qed.

Section owned_ops.
Context (st : State) (x : var) (Hx : shared st !! x = Some empty_s).


Lemma owned_share_s y a : owned (share_s x y st) a ↔ owned st a.
Proof.
  unfold share_s. destruct (shared st !! y) as [h|] eqn:Hy; [|done].
  assert (ptr_ h = Some a → owned st a) by (intros ?; by exists y, h).
  destruct (block_ h) as [b|].
  - rewrite owned_fill by (apply (empty_stays st _ x Hx); apply add_strong_proj).
    rewrite (owned_same st (add_strong b st)) by apply add_strong_proj. tauto.
  - rewrite owned_fill by by apply (empty_stays st _ x Hx). tauto.
Qed.

Lemma owned_move_s y a : x ≠ y → owned (move_s x y st) a ↔ owned st a.
Proof.
  intros Hne. unfold move_s. destruct (shared st !! y) as [h|] eqn:Hy; [|done].
  rewrite owned_put. simpl. split.
  - intros [?|(z & hz & Hz & Hl & Ha)]; [done|].
    apply lookup_insert_Some in Hl as [[-> <-]|[? Hl]]; [by exists y, h|by exists z, hz].
  - intros (z & hz & Hz & Ha). right.
    destruct (decide (z = y)) as [->|Hzy].
    + exists x, h. rewrite lookup_insert_eq. by simplify_eq.
    + exists z, hz. split_and!; try done. rewrite lookup_insert_ne; [done|].
      intros ->. rewrite Hx in Hz. by simplify_eq.
Qed.

Lemma owned_upgrade_s w a : wf st → owned (upgrade_s x w st) a ↔ owned st a.
Proof.
  intros Hwf. unfold upgrade_s. destruct (weak st !! w) as [h|] eqn:Hw; [|done].
  destruct (live st (wblock_ h)) eqn:Hlive.
  - apply (live_spec st w h Hwf Hw) in Hlive as (b & y & hs & Hb & Hy & Hyb).
    rewrite Hb. rewrite owned_fill by (apply (empty_stays st _ x Hx); apply add_strong_proj).
    rewrite (owned_same st (add_strong b st)) by apply add_strong_proj. simpl.
    assert (wptr_ h = Some a → owned st a); [|tauto].
    intros Ha. exists y, hs. split; [done|].
    rewrite <- (wf_observed st Hwf w h y hs Hw Hy); [done|eauto|congruence].
  - rewrite owned_fill by by apply (empty_stays st _ x Hx). simpl. intuition congruence.
Qed.

Lemma owned_adopt_s p a : owned (adopt_s x p st) a ↔ owned st a ∨ p = Some a.
Proof.
  unfold adopt_s. destruct p as [a'|].
  - rewrite owned_fill by by apply (empty_stays st _ x Hx). simpl.
    rewrite (owned_same st (alloc st)) by done. tauto.
  - rewrite owned_fill by by apply (empty_stays st _ x Hx). simpl. intuition congruence.
Qed.
End owned_ops.

Lemma owned_new st x a :
  shared st !! x = None → owned (put_s x empty_s st) a ↔ owned st a.
Proof.
  intros Hx. rewrite owned_fill by (intros hx; by rewrite Hx). simpl.
  intuition congruence.
Qed.

(** Releasing an owning handle deletes its value or leaves it to another
    owning handle. *)
Lemma accounted_detach_s st x a :
  wf st → is_Some (shared st !! x) →
  accounted (detach_s x st) a ↔ accounted st a.
Proof.
  intros Hwf [h Hx]. unfold accounted.
  rewrite (log_detach_s st x h Hx). unfold detach_s. rewrite Hx.
  destruct (block_ h) as [b|] eqn:Hb.
  2:{ rewrite (wf_block_None st Hwf x h Hx Hb) in Hx.
      rewrite owned_fill by (intros hx; rewrite Hx; by intros [= <-]).
      simpl. intuition congruence. }
  destruct (wf_shared_block st Hwf x h b Hx Hb) as (blk & Hblk & Hs & Hw & Hpos).
  destruct (wf_ptr_Some st Hwf x h b Hx Hb) as [a' Ha].
  rewrite Hblk, Ha, owned_put, drop_strong_shared. simpl.
  rewrite !elem_of_app.
  split.
  - intros [[?|(y & hy & Hne & Hy & Hp)]|[Hin|[Hin|Hin]]]; try done.
    + left. by exists y, hy.
    + case_decide; set_solver.
    + case_decide; [|set_solver]. apply list_elem_of_singleton in Hin.
      simplify_eq. left. by exists x, h.
    + by right.
  - intros [(y & hy & Hy & Hp)|Hin]; [|by right; right; right].
    destruct (decide (y = x)) as [->|Hne]; [|left; right; by exists y, hy].
    simplify_eq. destruct (decide (last_owner blk)) as [Hl|Hl].
    + right. right. left. set_solver.
    + left. right. unfold last_owner in Hl.
      assert (2 ≤ s_refs st b) as Htwo by lia.
      unfold s_refs in Htwo. rewrite (refs_delete block_ _ x h b Hx) in Htwo.
      unfold ind in Htwo. rewrite decide_True in Htwo by done.
      destruct (proj1 (refs_pos block_ (delete x (shared st)) b)) as (y & hy & Hy & Hyb);
        [lia|].
      apply lookup_delete_Some in Hy as [Hne Hy].
      exists y, hy. split_and!; try done.
      rewrite <- Ha. apply (wf_same st Hwf x h y hy Hx Hy); [eauto|congruence].
Qed.

Lemma accounted_detach_w st w a :
  accounted (detach_w w st) a ↔ accounted st a.
Proof.
  unfold accounted.
  destruct (weak st !! w) as [h|] eqn:Hw; [|by unfold detach_w; rewrite Hw].
  destruct (detach_w_weak st w) as [_ Es]; [eauto|].
  rewrite (owned_same st (detach_w w st)) by done.
  rewrite (log_detach_w st w h Hw).
  destruct (wblock_ h) as [b|]; [|done].
  destruct (heap st !! b) as [blk|]; [|done].
  rewrite elem_of_app. case_decide; set_solver.
Qed.

Lemma shared_share_w w v st : shared (share_w w v st) = shared st.
Proof.
  unfold share_w. repeat case_match; try done. simpl. apply add_weak_proj.
Qed.
Lemma shared_move_w w v st : shared (move_w w v st) = shared st.
Proof. unfold move_w. by repeat case_match. Qed.
Lemma shared_observe_w w x st : shared (observe_w w x st) = shared st.
Proof.
  unfold observe_w. repeat case_match; try done. simpl. apply add_weak_proj.
Qed.

Lemma accounted_quiet st st' a :
  log st' = log st → (owned st' a ↔ owned st a) →
  accounted st' a ↔ accounted st a.
Proof. unfold accounted. intros -> ->. done. Qed.

Lemma accounted_post st c a :
  wf st → cmd_ok st c →
  accounted (post c st) a ↔ accounted st a ∨ adopts c a.
Proof.
  intros Hwf Hok.
  assert (Hnew : ∀ x, shared (put_s x empty_s st) !! x = Some empty_s).
  { intros x. apply lookup_insert_eq. }
  assert (Hdet : ∀ x, is_Some (shared st !! x) →
                      shared (detach_s x st) !! x = Some empty_s).
  { intros x Hx. destruct (detach_s_shared st x Hx) as [-> _].
    apply lookup_insert_eq. }
  destruct c; simpl in *.
  - (* SDefault *) destruct Hok.
    rewrite (accounted_quiet st) by (done || by apply owned_new). tauto.
  - (* SNew *) destruct Hok as (Hx & _).
    unfold accounted. rewrite log_adopt_s, owned_adopt_s by done.
    rewrite owned_new by done. simpl. tauto.
  - (* SCopy *) destruct Hok as (Hx & _).
    rewrite (accounted_quiet (put_s x empty_s st))
      by (apply log_share_s || by apply owned_share_s).
    rewrite (accounted_quiet st) by (done || by apply owned_new). tauto.
  - (* SMove *) destruct Hok as (Hx & _ & Hy).
    assert (x ≠ y) by (intros ->; rewrite Hx in Hy; by destruct Hy as [? [=]]).
    rewrite (accounted_quiet (put_s x empty_s st))
      by (apply log_move_s || by apply owned_move_s).
    rewrite (accounted_quiet st) by (done || by apply owned_new). tauto.
  - (* SUpgrade *) destruct Hok as (Hx & Hroom & _).
    rewrite (accounted_quiet (put_s x empty_s st))
      by (apply log_upgrade_s || (apply owned_upgrade_s; [done|by apply wf_new_s])).
    rewrite (accounted_quiet st) by (done || by apply owned_new). tauto.
  - (* SAssign *) destruct Hok as (Hx & Hy). case_decide; [|tauto].
    rewrite (accounted_quiet (detach_s x st))
      by (apply log_share_s || (apply owned_share_s; by apply Hdet)).
    rewrite accounted_detach_s by done. tauto.
  - (* SMoveAssign *) destruct Hok as (Hx & Hy). case_decide; [|tauto].
    rewrite (accounted_quiet (detach_s x st))
      by (apply log_move_s || (apply owned_move_s; [by apply Hdet|done])).
    rewrite accounted_detach_s by done. tauto.
  - (* SReset *) destruct Hok as (Hx & _).
    unfold accounted at 1. rewrite log_adopt_s, owned_adopt_s by by apply Hdet.
    pose proof (accounted_detach_s st x a Hwf Hx) as Hacc.
    unfold accounted in *. tauto.
  - (* SDestroy *)
    rewrite (accounted_quiet (detach_s x st))
      by (done || (apply owned_end; by apply Hdet)).
    rewrite accounted_detach_s by done. tauto.
  - (* WDefault *) rewrite (accounted_quiet st) by done. tauto.
  - (* WNew *) rewrite (accounted_quiet st) by done. tauto.
  - (* WCopy *)
    rewrite (accounted_quiet (put_w w empty_w st))
      by (apply log_share_w || apply owned_same, shared_share_w).
    rewrite (accounted_quiet st) by done. tauto.
  - (* WMove *)
    rewrite (accounted_quiet (put_w w empty_w st))
      by (apply log_move_w || apply owned_same, shared_move_w).
    rewrite (accounted_quiet st) by done. tauto.
  - (* WObserve *)
    rewrite (accounted_quiet (put_w w empty_w st))
      by (apply log_observe_w || apply owned_same, shared_observe_w).
    rewrite (accounted_quiet st) by done. tauto.
  - (* WAssign *) case_decide; [|tauto].
    rewrite (accounted_quiet (detach_w w st))
      by (apply log_share_w || apply owned_same, shared_share_w).
    rewrite accounted_detach_w. tauto.
  - (* WMoveAssign *) case_decide; [|tauto].
    rewrite (accounted_quiet (detach_w w st))
      by (apply log_move_w || apply owned_same, shared_move_w).
    rewrite accounted_detach_w. tauto.
  - (* WDestroy *)
    rewrite (accounted_quiet (detach_w w st)) by done.
    rewrite accounted_detach_w. tauto.
  - (* WLock *) destruct Hok as (Hx & Hroom & _).
    rewrite (accounted_quiet (put_s x empty_s st))
      by (apply log_upgrade_s || (apply owned_upgrade_s; [done|by apply wf_new_s])).
    rewrite (accounted_quiet st) by (done || by apply owned_new). tauto.
Qed.

(** ** Programs *)

Lemma wf_init : wf init.
Proof.
  split; simpl; try done.
  - intros b. rewrite lookup_empty. split; [by intros ?%elem_of_nil|lia].
  - intros b Hb. rewrite lookup_empty in Hb. by destruct Hb as [? [=]].
  - constructor.
  - intros p ?%elem_of_nil. done.
Qed.

Lemma accounted_init a : ¬ accounted init a.
Proof.
  intros [(x & h & Hx & _)|Hin]; [simpl in Hx; by rewrite lookup_empty in Hx|].
  by apply elem_of_nil in Hin.
Qed.

Lemma run_app p1 p2 st :
  run (p1 ++ p2) st =
  match run p1 st with
  | Done st' => run p2 st'
  | o => o
  end.
Proof.
  revert st. induction p1 as [|c p1 IH]; intros st; simpl; [done|].
  case_decide; [|done]. destruct (exec c st) as [[[] st']|]; [apply IH|done].
Qed.

Lemma run_inv prog st0 :
  wf st0 →
  run prog st0 ≠ Undefined ∧
  ∀ st, run prog st0 = Done st →
        wf st ∧ ∀ a, accounted st a ↔ accounted st0 a ∨ adopted prog a.
Proof.
  revert st0. induction prog as [|c prog IH]; intros st0 Hwf; simpl.
  - split; [done|]. intros st [= <-]. split; [done|]. intros a.
    unfold adopted. rewrite Exists_nil. tauto.
  - case_decide as Hok; [|split; [done|by intros ?]].
    rewrite (exec_post st0 Hwf c Hok).
    destruct (IH (post c st0) (wf_post st0 c Hwf Hok)) as [Hsafe Hdone].
    split; [done|]. intros st Hrun.
    destruct (Hdone st Hrun) as [Hwf' Hacc]. split; [done|]. intros a.
    rewrite Hacc, accounted_post by done.
    unfold adopted. rewrite Exists_cons. tauto.
Qed.

Lemma reachable_wf prog st : run prog init = Done st → wf st.
Proof. intros Hrun. by apply (run_inv prog init wf_init). Qed.

Lemma reachable_accounted prog st a :
  run prog init = Done st → accounted st a ↔ adopted prog a.
Proof.
  intros Hrun. destruct (run_inv prog init wf_init) as [_ H].
  destruct (H st Hrun) as [_ ->]. pose proof (accounted_init a). tauto.
Qed.

Lemma run_snoc prog c st :
  run prog init = Done st → cmd_ok st c →
  run (prog ++ [c]) init = Done (post c st).
Proof.
  intros Hrun Hok. rewrite run_app, Hrun. simpl.
  rewrite decide_True by done.
  by rewrite (exec_post st (reachable_wf prog st Hrun) c Hok).
Qed.

Lemma count_occ_NoDup (l : list event) e :
  NoDup l → count_occ event_eq_dec l e = if decide (e ∈ l) then 1 else 0.
Proof.
  intros Hnd. case_decide as Hin.
  - apply NoDup_ListNoDup in Hnd. apply list_elem_of_In in Hin.
    by apply NoDup_count_occ'.
  - apply count_occ_not_In. by rewrite <- list_elem_of_In.
Qed.

(** ** The transitions obey the release rules *)

Lemma detach_s_released st x h :
  wf st → shared st !! x = Some h → released_s st x h (detach_s x st).
Proof.
  intros Hwf Hx. unfold released_s.
  destruct (detach_s_shared st x) as [Es Ew]; [eauto|].
  split_and!; try done.
  { unfold detach_s. rewrite Hx. destruct (block_ h); simpl;
      by rewrite ?drop_strong_next. }
  unfold detach_s. rewrite Hx. destruct (block_ h) as [b|] eqn:Hb; [|done].
  destruct (wf_shared_block st Hwf x h b Hx Hb) as (blk & Hblk & Hs & Hw & Hpos).
  exists blk. split_and!; [done|lia|].
  unfold drop_strong. simpl. rewrite Hblk.
  destruct (Z.eqb_spec (shared_count_ blk) 1) as [E1|E1];
    [destruct (Z.eqb_spec (weak_count_ blk) 0) as [E2|E2]|];
    repeat case_decide; try done.
Qed.

Lemma detach_w_released st w h :
  wf st → weak st !! w = Some h → released_w st w h (detach_w w st).
Proof.
  intros Hwf Hx. unfold released_w.
  destruct (detach_w_weak st w) as [Es Ew]; [eauto|].
  split_and!; try done.
  { unfold detach_w. rewrite Hx. destruct (wblock_ h) as [b|]; simpl; [|done].
    apply drop_weak_proj. }
  unfold detach_w. rewrite Hx. destruct (wblock_ h) as [b|] eqn:Hb; [|done].
  destruct (wf_weak_block st Hwf w h b Hx Hb) as (blk & Hblk & Hs & Hw & Hpos).
  exists blk. split_and!; [done|lia|].
  unfold drop_weak. simpl. rewrite Hblk.
  destruct (Z.eqb_spec (weak_count_ blk) 1) as [E1|E1];
    destruct (Z.eqb_spec (shared_count_ blk) 0) as [E2|E2];
    case_decide; try done; tauto.
Qed.

(** The statement that releases the last owning handle of a block leaves
    the block with [shared_count_ = 0], or deleted when no observer is
    left. *)
Lemma last_release_zero st c x h b blk :
  wf st → cmd_ok st c →
  releases_s c = Some x → shared st !! x = Some h → block_ h = Some b →
  heap st !! b = Some blk → shared_count_ blk = 1%Z →
  match heap (post c st) !! b with
  | Some blk' => shared_count_ blk' = 0%Z
  | None => weak_count_ blk = 0%Z
  end.
Proof.
  intros Hwf Hok Hrel Hx Hb Hblk Hone.
  assert (Hdet : match heap (detach_s x st) !! b with
                 | Some blk' => shared_count_ blk' = 0%Z
                 | None => weak_count_ blk = 0%Z
                 end).
  { unfold detach_s. rewrite Hx, Hb. simpl.
    rewrite (drop_strong_heap st _ b blk Hblk), decide_True by done.
    unfold last_ref_s. case_decide as Hl; [by destruct Hl|]. simpl. lia. }
  assert (Hlt : b < next st) by (apply (wf_alloc st Hwf); eauto).
  assert (Hnext : next (detach_s x st) = next st).
  { unfold detach_s. rewrite Hx, Hb. simpl. apply drop_strong_next. }
  assert (Hother : ∀ y hy, x ≠ y → shared st !! y = Some hy → block_ hy ≠ Some b).
  { intros y hy Hne Hy Hyb.
    pose proof (refs_two block_ (shared st) x y h hy b Hne Hx Hy Hb Hyb).
    destruct (wf_shared_block st Hwf x h b Hx Hb) as (blk' & Hblk' & Hs & _).
    unfold s_refs in Hs. simplify_eq. lia. }
  destruct (detach_s_shared st x) as [Es _]; [eauto|].
  destruct c; simpl in Hrel; try done; repeat case_decide; simplify_eq; simpl.
  - (* SAssign *) rewrite decide_True by done.
    unfold share_s. rewrite Es, lookup_insert_ne by done.
    destruct Hok as [_ [hy Hy]]. rewrite Hy.
    destruct (block_ hy) as [b'|] eqn:Hyb; simpl; [|done].
    unfold add_strong. destruct (heap (detach_s x st) !! b') eqn:Hb'; [|done].
    simpl. rewrite lookup_insert_ne; [done|].
    intros ->. by apply (Hother y hy).
  - (* SMoveAssign *) rewrite decide_True by done.
    unfold move_s. rewrite Es, lookup_insert_ne by done.
    destruct Hok as [_ [hy Hy]]. by rewrite Hy.
  - (* SReset *) unfold adopt_s. destruct p as [a|]; simpl; [|done].
    rewrite lookup_insert_ne by lia. done.
  - (* SDestroy *) done.
Qed.

(** * The claims *)

(** C1. Whatever statements a program has run, and whatever statement [c]
    it runs next: [c] runs without undefined behaviour; no value is ever
    deleted twice; a value has been deleted exactly when it was handed to an
    owning handle and no owning handle holds it any more; [c] deletes the
    value [a] exactly when it calls [Release()] on an owning handle of [a]
    whose block has [shared_count_ = 1], so that no earlier release deletes
    it; and that call leaves the block with [shared_count_ = 0], or deleted
    when its [weak_count_] was 0. *)
Theorem value_destroyed_exactly_once prog c st :
  run prog init = Done st → cmd_ok st c →
  ∃ st', exec c st = Some (tt, st') ∧
    run (prog ++ [c]) init = Done st' ∧
    (∀ a, count_occ event_eq_dec (log st') (FreeValue a) ≤ 1) ∧
    (∀ a, FreeValue a ∈ log st' ↔ adopted (prog ++ [c]) a ∧ ¬ owned st' a) ∧
    (∀ a, FreeValue a ∈ log st' ∧ FreeValue a ∉ log st ↔ last_release c st a) ∧
    (∀ x h b blk, releases_s c = Some x → shared st !! x = Some h →
       block_ h = Some b → heap st !! b = Some blk → shared_count_ blk = 1%Z →
       match heap st' !! b with
       | Some blk' => shared_count_ blk' = 0%Z
       | None => weak_count_ blk = 0%Z
       end).
Proof.
  intros Hrun Hok. pose proof (reachable_wf prog st Hrun) as Hwf.
  exists (post c st).
  pose proof (run_snoc prog c st Hrun Hok) as Hrun'.
  pose proof (reachable_wf _ _ Hrun') as Hwf'.
  split_and!.
  - by apply exec_post.
  - done.
  - intros a. rewrite count_occ_NoDup by apply (wf_nodup _ Hwf').
    case_decide; lia.
  - intros a. rewrite <- (reachable_accounted _ _ a Hrun').
    pose proof (wf_freed_value _ Hwf' a). unfold accounted. tauto.
  - intros a. by apply new_value_iff.
  - intros x h b blk. by apply last_release_zero.
Qed.

Lemma value_destroyed_exactly_once_witness :
  run two_owners init = Done (final two_owners) ∧
  cmd_ok (final two_owners) (SDestroy 1) ∧
  ∃ st', exec (SDestroy 1) (final two_owners) = Some (tt, st') ∧
    run (two_owners ++ [SDestroy 1]) init = Done st' ∧
    (∀ a, count_occ event_eq_dec (log st') (FreeValue a) ≤ 1) ∧
    (∀ a, FreeValue a ∈ log st' ↔
          adopted (two_owners ++ [SDestroy 1]) a ∧ ¬ owned st' a) ∧
    (∀ a, FreeValue a ∈ log st' ∧ FreeValue a ∉ log (final two_owners) ↔
          last_release (SDestroy 1) (final two_owners) a) ∧
    (∀ x h b blk, releases_s (SDestroy 1) = Some x →
       shared (final two_owners) !! x = Some h →
       block_ h = Some b → heap (final two_owners) !! b = Some blk →
       shared_count_ blk = 1%Z →
       match heap st' !! b with
       | Some blk' => shared_count_ blk' = 0%Z
       | None => weak_count_ blk = 0%Z
       end).
Proof.
  assert (H1 : run two_owners init = Done (final two_owners))
    by (vm_compute; reflexivity).
  assert (H2 : cmd_ok (final two_owners) (SDestroy 1))
    by (vm_compute; eauto).
  exact (conj H1 (conj H2 (value_destroyed_exactly_once _ _ _ H1 H2))).
Defined.

(** C2. Whatever statements a program has run, and whatever statement [c]
    it runs next: no control block is ever deleted twice; a block that has
    been allocated has been deleted exactly when no handle of either kind
    points to it; the counters of a live block are the numbers of owning and
    observing handles that point to it; and [c] deletes the block [b]
    exactly when it calls [Release()] on the last handle of [b], be it an
    owning handle (counters 1 and 0 before the call) or an observer
    (counters 0 and 1). *)
Theorem block_destroyed_exactly_once prog c st :
  run prog init = Done st → cmd_ok st c →
  ∃ st', exec c st = Some (tt, st') ∧
    run (prog ++ [c]) init = Done st' ∧
    (∀ b, count_occ event_eq_dec (log st') (FreeBlock b) ≤ 1) ∧
    (∀ b, FreeBlock b ∈ log st' ↔
          b < next st' ∧ s_refs st' b = 0 ∧ w_refs st' b = 0) ∧
    (∀ b blk, heap st' !! b = Some blk →
          shared_count_ blk = Z.of_nat (s_refs st' b) ∧
          weak_count_ blk = Z.of_nat (w_refs st' b)) ∧
    (∀ b, FreeBlock b ∈ log st' ∧ FreeBlock b ∉ log st ↔ last_handle c st b).
Proof.
  intros Hrun Hok. pose proof (reachable_wf prog st Hrun) as Hwf.
  exists (post c st).
  pose proof (run_snoc prog c st Hrun Hok) as Hrun'.
  pose proof (reachable_wf _ _ Hrun') as Hwf'.
  split_and!.
  - by apply exec_post.
  - done.
  - intros b. rewrite count_occ_NoDup by apply (wf_nodup _ Hwf').
    case_decide; lia.
  - intros b. rewrite (wf_freed_block _ Hwf' b).
    pose proof (wf_blocks _ Hwf' b) as Hb.
    destruct (heap (post c st) !! b); split; intros [? ?]; split; try done; lia.
  - intros b blk Hblk. pose proof (wf_blocks _ Hwf' b) as Hb.
    rewrite Hblk in Hb. tauto.
  - intros b. by apply new_block_iff.
Qed.

Lemma block_destroyed_exactly_once_witness :
  run owner_then_observer init = Done (final owner_then_observer) ∧
  cmd_ok (final owner_then_observer) (WDestroy 0) ∧
  ∃ st', exec (WDestroy 0) (final owner_then_observer) = Some (tt, st') ∧
    run (owner_then_observer ++ [WDestroy 0]) init = Done st' ∧
    (∀ b, count_occ event_eq_dec (log st') (FreeBlock b) ≤ 1) ∧
    (∀ b, FreeBlock b ∈ log st' ↔
          b < next st' ∧ s_refs st' b = 0 ∧ w_refs st' b = 0) ∧
    (∀ b blk, heap st' !! b = Some blk →
          shared_count_ blk = Z.of_nat (s_refs st' b) ∧
          weak_count_ blk = Z.of_nat (w_refs st' b)) ∧
    (∀ b, FreeBlock b ∈ log st' ∧ FreeBlock b ∉ log (final owner_then_observer) ↔
          last_handle (WDestroy 0) (final owner_then_observer) b).
Proof.
  assert (H1 : run owner_then_observer init = Done (final owner_then_observer))
    by (vm_compute; reflexivity).
  assert (H2 : cmd_ok (final owner_then_observer) (WDestroy 0))
    by (vm_compute; eauto).
  exact (conj H1 (conj H2 (block_destroyed_exactly_once _ _ _ H1 H2))).
Defined.

(** C3. [Lock()] on an observer [w] of a reachable state, building its
    result in a new object [x].  The call changes no observer, no log entry
    and no other owning handle.  When [w] has a control block whose
    [shared_count_] is positive, the result holds the pointer and the block
    of [w], which are those of every owning handle on that block, and the
    only change to the heap is [shared_count_ + 1] in that block.  When [w]
    has no control block, or its block has [shared_count_ = 0], the result
    is empty and the heap is unchanged.  An observer's block is always
    live, so these are all the cases. *)
Theorem Lock_spec prog st w x hw :
  run prog init = Done st →
  shared st !! x = None → room_s st → weak st !! w = Some hw →
  ∃ st', WeakPtr_Lock w x st = Some (tt, st') ∧
    weak st' = weak st ∧ log st' = log st ∧ next st' = next st ∧
    (∀ y, y ≠ x → shared st' !! y = shared st !! y) ∧
    match wblock_ hw with
    | Some b =>
        ∃ blk, heap st !! b = Some blk ∧
          ((0 < shared_count_ blk)%Z →
             shared st' !! x = Some (mkShared (wptr_ hw) (Some b)) ∧
             heap st' =
               <[b:=mkBlock (shared_count_ blk + 1) (weak_count_ blk)]> (heap st) ∧
             (∀ y hy, shared st !! y = Some hy → block_ hy = Some b →
                      ptr_ hy = wptr_ hw)) ∧
          (shared_count_ blk = 0%Z →
             shared st' !! x = Some (mkShared None None) ∧ heap st' = heap st) ∧
          (0 ≤ shared_count_ blk)%Z
    | None =>
        shared st' !! x = Some (mkShared None None) ∧ heap st' = heap st
    end.
Proof.
  intros Hrun Hx Hroom Hw. pose proof (reachable_wf prog st Hrun) as Hwf.
  assert (Hok : cmd_ok st (WLock x w)) by (simpl; eauto).
  pose proof (exec_WLock st Hwf x w Hok) as Hexec. simpl in Hexec.
  eexists. split; [exact Hexec|].
  unfold upgrade_s. simpl. rewrite Hw.
  destruct (wblock_ hw) as [b|] eqn:Hb; simpl.
  - destruct (wf_weak_block st Hwf w hw b Hw Hb) as (blk & Hblk & Hs & Hwc & Hpos).
    rewrite Hblk.
    destruct (Z.ltb_spec 0 (shared_count_ blk)) as [Hlt|Hle]; simpl.
    + unfold add_strong. simpl. rewrite Hblk. simpl.
      split_and!; try done.
      * intros y Hy. by rewrite !lookup_insert_ne.
      * exists blk. split_and!; [done| |lia|lia].
        intros _. split_and!.
        -- by rewrite lookup_insert_eq.
        -- done.
        -- intros y hy Hy Hyb. symmetry.
           apply (wf_observed st Hwf w hw y hy Hw Hy); [eauto|congruence].
    + split_and!; try done.
      * intros y Hy. by rewrite !lookup_insert_ne.
      * exists blk. split_and!; [done|lia| |lia].
        intros _. by rewrite insert_insert_eq, lookup_insert_eq.
  - split_and!; try done.
    + intros y Hy. by rewrite !lookup_insert_ne.
    + by rewrite insert_insert_eq, lookup_insert_eq.
Qed.

Lemma Lock_spec_witness :
  run owner_and_observer init = Done (final owner_and_observer) ∧
  shared (final owner_and_observer) !! 1 = None ∧
  room_s (final owner_and_observer) ∧
  weak (final owner_and_observer) !! 0 = Some (mkWeak (Some 0) (Some 7)) ∧
  ∃ st', WeakPtr_Lock 0 1 (final owner_and_observer) = Some (tt, st') ∧
    weak st' = weak (final owner_and_observer) ∧
    log st' = log (final owner_and_observer) ∧
    next st' = next (final owner_and_observer) ∧
    (∀ y, y ≠ 1 → shared st' !! y = shared (final owner_and_observer) !! y) ∧
    ∃ blk, heap (final owner_and_observer) !! 0 = Some blk ∧
      ((0 < shared_count_ blk)%Z →
         shared st' !! 1 = Some (mkShared (Some 7) (Some 0)) ∧
         heap st' =
           <[0:=mkBlock (shared_count_ blk + 1) (weak_count_ blk)]>
             (heap (final owner_and_observer)) ∧
         (∀ y hy, shared (final owner_and_observer) !! y = Some hy →
                  block_ hy = Some 0 → ptr_ hy = Some 7)) ∧
      (shared_count_ blk = 0%Z →
         shared st' !! 1 = Some (mkShared None None) ∧
         heap st' = heap (final owner_and_observer)) ∧
      (0 ≤ shared_count_ blk)%Z.
Proof.
  assert (H1 : run owner_and_observer init = Done (final owner_and_observer))
    by (vm_compute; reflexivity).
  assert (H2 : shared (final owner_and_observer) !! 1 = None)
    by (vm_compute; reflexivity).
  assert (H3 : room_s (final owner_and_observer)) by (vm_compute; reflexivity).
  assert (H4 : weak (final owner_and_observer) !! 0 = Some (mkWeak (Some 0) (Some 7)))
    by (vm_compute; reflexivity).
  exact (conj H1 (conj H2 (conj H3 (conj H4
           (Lock_spec _ _ 0 1 _ H1 H2 H3 H4))))).
Defined.

(** C4. [IsExpired()] on an observer [w] of a reachable state returns a
    boolean and leaves the state as it is.  The result is [true] exactly
    when [w] has no control block or the block's [shared_count_] is 0, and
    [false] exactly when some owning handle points to the block of [w]. *)
Theorem IsExpired_spec prog st w hw :
  run prog init = Done st → weak st !! w = Some hw →
  ∃ r, WeakPtr_IsExpired w st = Some (r, st) ∧
    (r = true ↔
       wblock_ hw = None ∨
       ∃ b blk, wblock_ hw = Some b ∧ heap st !! b = Some blk ∧
                shared_count_ blk = 0%Z) ∧
    (r = false ↔
       ∃ x hs b, shared st !! x = Some hs ∧ block_ hs = Some b ∧
                 wblock_ hw = Some b).
Proof.
  intros Hrun Hw. pose proof (reachable_wf prog st Hrun) as Hwf.
  unfold WeakPtr_IsExpired, bind, w_block, shared_count, ret. rewrite Hw.
  destruct (wblock_ hw) as [b|] eqn:Hb.
  - destruct (wf_weak_block st Hwf w hw b Hw Hb) as (blk & Hblk & Hs & Hwc & Hpos).
    rewrite Hblk. eexists. split; [done|]. split.
    + rewrite Z.eqb_eq. split; [intros E; right; by exists b, blk|].
      intros [?|(b' & blk' & ? & ? & ?)]; [done|]. by simplify_eq.
    + rewrite <- not_true_iff_false, Z.eqb_eq, Hs. split.
      * intros Hne.
        destruct (proj1 (refs_pos block_ (shared st) b)) as (x & hs & Hx & Hxb).
        { unfold s_refs in Hne. lia. }
        by exists x, hs, b.
      * intros (x & hs & b' & Hx & Hxb & [= <-]).
        assert (0 < s_refs st b) by (apply refs_pos; eauto). lia.
  - exists true. split; [done|]. split.
    + split; [by left|done].
    + split; [done|]. by intros (? & ? & ? & _ & _ & [=]).
Qed.

Lemma IsExpired_spec_witness :
  run owner_then_observer init = Done (final owner_then_observer) ∧
  weak (final owner_then_observer) !! 0 = Some (mkWeak (Some 0) (Some 7)) ∧
  ∃ r, WeakPtr_IsExpired 0 (final owner_then_observer) =
         Some (r, final owner_then_observer) ∧
    (r = true ↔
       Some 0 = None ∨
       ∃ b blk, Some 0 = Some b ∧ heap (final owner_then_observer) !! b = Some blk ∧
                shared_count_ blk = 0%Z) ∧
    (r = false ↔
       ∃ x hs b, shared (final owner_then_observer) !! x = Some hs ∧
                 block_ hs = Some b ∧ Some 0 = Some b).
Proof.
  assert (H1 : run owner_then_observer init = Done (final owner_then_observer))
    by (vm_compute; reflexivity).
  assert (H2 : weak (final owner_then_observer) !! 0 = Some (mkWeak (Some 0) (Some 7)))
    by (vm_compute; reflexivity).
  exact (conj H1 (conj H2 (IsExpired_spec _ _ 0 _ H1 H2))).
Defined.

(** C5. [SharedPtr(ptr)] at a free object identity [x] succeeds and touches
    no observer, no log entry and no other owning handle.  With a non-null
    [ptr], [x] holds [ptr] and a control block allocated by the call, whose
    counters are 1 and 0; with a null [ptr], [x] is empty and the heap and
    the allocation counter are unchanged.  In a reachable state the
    identity drawn for the new block is not in the heap before the call. *)
Theorem SharedPtr_from_raw_spec st x ptr :
  shared st !! x = None →
  ∃ st', SharedPtr_from_raw x ptr st = Some (tt, st') ∧
    weak st' = weak st ∧ log st' = log st ∧
    (∀ y, y ≠ x → shared st' !! y = shared st !! y) ∧
    match ptr with
    | Some a =>
        shared st' !! x = Some (mkShared (Some a) (Some (next st))) ∧
        heap st' = <[next st:=mkBlock 1 0]> (heap st) ∧
        next st' = S (next st) ∧
        (∀ prog, run prog init = Done st → heap st !! next st = None)
    | None =>
        shared st' !! x = Some (mkShared None None) ∧
        heap st' = heap st ∧ next st' = next st
    end.
Proof.
  intros Hx. destruct st as [sh wk hp nx lg]. simpl in *.
  destruct ptr as [a|]; unfold_m; look.
  - eexists. split; [done|]. simpl. split_and!; try done.
    + intros y Hy. by rewrite !lookup_insert_ne.
    + by rewrite lookup_insert_eq.
    + by rewrite insert_insert_eq.
    + intros prog Hrun. apply (wf_fresh_block _ (reachable_wf _ _ Hrun)).
  - eexists. split; [done|]. simpl. split_and!; try done.
    + intros y Hy. by rewrite !lookup_insert_ne.
    + by rewrite lookup_insert_eq.
Qed.

Lemma SharedPtr_from_raw_spec_witness :
  shared init !! 0 = None ∧
  ∃ st', SharedPtr_from_raw 0 (Some 7) init = Some (tt, st') ∧
    weak st' = weak init ∧ log st' = log init ∧
    (∀ y, y ≠ 0 → shared st' !! y = shared init !! y) ∧
    shared st' !! 0 = Some (mkShared (Some 7) (Some (next init))) ∧
    heap st' = <[next init:=mkBlock 1 0]> (heap init) ∧
    next st' = S (next init) ∧
    (∀ prog, run prog init = Done init → heap init !! next init = None).
Proof.
  assert (H1 : shared init !! 0 = None) by reflexivity.
  exact (conj H1 (SharedPtr_from_raw_spec init 0 (Some 7) H1)).
Defined.

Lemma Reset_code st x p :
  wf st → is_Some (shared st !! x) →
  SharedPtr_Reset x p st = Some (tt, adopt_s x p (detach_s x st)).
Proof.
  intros Hwf [hx Hx]. unfold SharedPtr_Reset.
  destruct (after_release st Hwf x hx Hx)
    as (hx' & s & Hrel & <- & Hwf' & Hx' & Hoth & Hwk).
  rewrite (bind_Some _ _ _ _ _ Hrel).
  clear Hrel Hoth Hwk Hwf'.
  destruct s as [sh wk hp nx lg], p as [a|]; simpl in *;
    unfold_post; unfold_m; look; by rewrite !insert_insert_eq.
Qed.

Lemma put_same st x h : shared st !! x = Some h → put_s x h st = st.
Proof.
  intros Hx. destruct st as [sh wk hp nx lg]. unfold put_s, with_shared.
  simpl in *. by rewrite insert_id.
Qed.

(** C6. [Reset(p)] on an owning handle [x] of a reachable state succeeds.
    It passes through the state [r] that the release rule gives from the
    current state: [shared_count_] of the block of [x] goes down by one; at
    zero the value is deleted, and the block too when [weak_count_] is zero;
    [x] is cleared.  From [r], a non-null [p] makes [x] hold [p] and a newly
    allocated block with counters 1 and 0, and a null [p] changes nothing
    more, so that [x] is empty. *)
Theorem Reset_spec prog st x h p :
  run prog init = Done st → shared st !! x = Some h →
  ∃ r st', SharedPtr_Reset x p st = Some (tt, st') ∧
    released_s st x h r ∧
    match p with
    | Some a =>
        st' = mkState (<[x:=mkShared (Some a) (Some (next r))]> (shared r))
                      (weak r) (<[next r:=mkBlock 1 0]> (heap r))
                      (S (next r)) (log r) ∧
        heap r !! next r = None
    | None => st' = r ∧ shared st' !! x = Some (mkShared None None)
    end.
Proof.
  intros Hrun Hx. pose proof (reachable_wf prog st Hrun) as Hwf.
  assert (Hwf' : wf (detach_s x st)) by (apply wf_detach_s; eauto).
  assert (Hx' : shared (detach_s x st) !! x = Some empty_s).
  { destruct (detach_s_shared st x) as [-> _]; [eauto|]. apply lookup_insert_eq. }
  exists (detach_s x st), (adopt_s x p (detach_s x st)). split_and!.
  - apply Reset_code; eauto.
  - by apply detach_s_released.
  - destruct p as [a|]; simpl.
    + split; [done|]. apply (wf_fresh_block _ Hwf').
    + rewrite (put_same _ x empty_s Hx'). split; [reflexivity|apply lookup_insert_eq].
Qed.

Lemma Reset_spec_witness :
  run owner_and_observer init = Done (final owner_and_observer) ∧
  shared (final owner_and_observer) !! 0 = Some (mkShared (Some 7) (Some 0)) ∧
  ∃ r st', SharedPtr_Reset 0 (Some 8) (final owner_and_observer) = Some (tt, st') ∧
    released_s (final owner_and_observer) 0 (mkShared (Some 7) (Some 0)) r ∧
    st' = mkState (<[0:=mkShared (Some 8) (Some (next r))]> (shared r))
                  (weak r) (<[next r:=mkBlock 1 0]> (heap r))
                  (S (next r)) (log r) ∧
    heap r !! next r = None.
Proof.
  assert (H1 : run owner_and_observer init = Done (final owner_and_observer))
    by (vm_compute; reflexivity).
  assert (H2 : shared (final owner_and_observer) !! 0
               = Some (mkShared (Some 7) (Some 0)))
    by (vm_compute; reflexivity).
  exact (conj H1 (conj H2 (Reset_spec _ _ 0 _ (Some 8) H1 H2))).
Defined.

(** C7, as stated, fails: two owning handles 0 and 1 share one block, whose
    [shared_count_] is 2; the move assignment [0 = std::move(1)] transfers
    the block to handle 0, empties handle 1, and leaves the transferred
    block with [shared_count_ = 1]. *)
Lemma move_assign_changes_strong_count :
  run sharing init = Done (final sharing) ∧
  heap (final sharing) !! 0 = Some (mkBlock 2 0) ∧
  exec (SMoveAssign 0 1) (final sharing)
    = Some (tt, post (SMoveAssign 0 1) (final sharing)) ∧
  shared (post (SMoveAssign 0 1) (final sharing)) !! 0
    = Some (mkShared (Some 7) (Some 0)) ∧
  shared (post (SMoveAssign 0 1) (final sharing)) !! 1
    = Some (mkShared None None) ∧
  heap (post (SMoveAssign 0 1) (final sharing)) !! 0 = Some (mkBlock 1 0) ∧
  heap (post (SMoveAssign 0 1) (final sharing)) ≠ heap (final sharing).
Proof.
  split_and!; try (vm_compute; reflexivity).
  intros E. apply (f_equal (lookup 0)) in E. vm_compute in E. discriminate.
Qed.

(** C7, amended.  Between distinct owning handles of a reachable state:
    move construction of [x] from [y] gives [x] what [y] held, empties [y]
    and changes nothing else, so no counter; move assignment first applies
    the release rule to what [x] held (which is where a [shared_count_] can
    go down, also that of the block being transferred when [x] and [y]
    shared it), then gives [x] what [y] held and empties [y] with no further
    change; and the destructor of an emptied handle only removes the
    handle. *)
Theorem move_transfers prog st x y hy :
  run prog init = Done st → shared st !! y = Some hy → x ≠ y →
  (shared st !! x = None →
     SharedPtr_move x y st =
     Some (tt, with_shared (λ m, <[y:=mkShared None None]> (<[x:=hy]> m)) st)) ∧
  (∀ hx, shared st !! x = Some hx →
     ∃ r, released_s st x hx r ∧
          SharedPtr_move_assign x y st =
          Some (tt, with_shared (λ m, <[y:=mkShared None None]> (<[x:=hy]> m)) r)) ∧
  (∀ st', shared st' !! y = Some (mkShared None None) →
     SharedPtr_dtor y st' = Some (tt, with_shared (delete y) st')).
Proof.
  intros Hrun Hy Hne. pose proof (reachable_wf prog st Hrun) as Hwf.
  split_and!.
  - intros Hx. destruct st as [sh wk hp nx lg], hy as [p b]. simpl in *.
    unfold_m. look. by rewrite !insert_insert_eq.
  - intros hx Hx. exists (detach_s x st). split; [by apply detach_s_released|].
    assert (Hok : cmd_ok st (SMoveAssign x y)) by (simpl; eauto).
    pose proof (exec_SMoveAssign st Hwf x y Hok) as Hexec. simpl in Hexec.
    rewrite decide_True in Hexec by done. rewrite Hexec.
    unfold move_s. destruct (detach_s_shared st x) as [Es _]; [eauto|].
    rewrite Es, lookup_insert_ne, Hy by done. done.
  - intros st' Hy'. destruct st' as [sh wk hp nx lg]. simpl in *.
    unfold_m. look. done.
Qed.

Lemma move_transfers_witness :
  run sharing init = Done (final sharing) ∧
  shared (final sharing) !! 1 = Some (mkShared (Some 7) (Some 0)) ∧
  0 ≠ 1 ∧
  (shared (final sharing) !! 0 = None →
     SharedPtr_move 0 1 (final sharing) =
     Some (tt, with_shared (λ m, <[1:=mkShared None None]>
                                   (<[0:=mkShared (Some 7) (Some 0)]> m))
                           (final sharing))) ∧
  (∀ hx, shared (final sharing) !! 0 = Some hx →
     ∃ r, released_s (final sharing) 0 hx r ∧
          SharedPtr_move_assign 0 1 (final sharing) =
          Some (tt, with_shared (λ m, <[1:=mkShared None None]>
                                        (<[0:=mkShared (Some 7) (Some 0)]> m)) r)) ∧
  (∀ st', shared st' !! 1 = Some (mkShared None None) →
     SharedPtr_dtor 1 st' = Some (tt, with_shared (delete 1) st')).
Proof.
  assert (H1 : run sharing init = Done (final sharing))
    by (vm_compute; reflexivity).
  assert (H2 : shared (final sharing) !! 1 = Some (mkShared (Some 7) (Some 0)))
    by (vm_compute; reflexivity).
  assert (H3 : 0 ≠ 1) by lia.
  exact (conj H1 (conj H2 (conj H3 (move_transfers _ _ 0 1 _ H1 H2 H3)))).
Defined.

(** C8. Assigning a handle to itself, by copy or by move, for either kind of
    handle and from any state, succeeds and yields the same state: the
    handle, every counter and the log of deletes are what they were. *)
Theorem self_assignment st x :
  exec (SAssign x x) st = Some (tt, st) ∧
  exec (SMoveAssign x x) st = Some (tt, st) ∧
  exec (WAssign x x) st = Some (tt, st) ∧
  exec (WMoveAssign x x) st = Some (tt, st).
Proof.
  simpl. unfold SharedPtr_assign, SharedPtr_move_assign, WeakPtr_assign,
    WeakPtr_move_assign.
  by rewrite !decide_False by (intros Hne; by apply Hne).
Qed.

(** C9. [WeakPtr(ptr)] at a free object identity [w] succeeds, stores [ptr]
    next to a null [block_] and changes nothing else, so no counter.  As
    long as [w] holds these two fields, in any state, [IsExpired()] returns
    [true] without changing the state and [Lock()] builds an empty owning
    handle and changes nothing else. *)
Theorem WeakPtr_from_raw_spec st w ptr :
  weak st !! w = None →
  WeakPtr_from_raw w ptr st =
    Some (tt, with_weak (insert w (mkWeak None ptr)) st) ∧
  ∀ st2, weak st2 !! w = Some (mkWeak None ptr) →
    WeakPtr_IsExpired w st2 = Some (true, st2) ∧
    ∀ x, shared st2 !! x = None →
      WeakPtr_Lock w x st2 =
        Some (tt, with_shared (insert x (mkShared None None)) st2).
Proof.
  intros Hw. split.
  - destruct st as [sh wk hp nx lg]. simpl in *. unfold_m. by look.
  - intros st2 Hw2. destruct st2 as [sh wk hp nx lg]. simpl in *. split.
    + unfold_m. by look.
    + intros x Hx. unfold_m. by look.
Qed.

Lemma WeakPtr_from_raw_spec_witness :
  weak init !! 0 = None ∧
  WeakPtr_from_raw 0 (Some 7) init =
    Some (tt, with_weak (insert 0 (mkWeak None (Some 7))) init) ∧
  ∀ st2, weak st2 !! 0 = Some (mkWeak None (Some 7)) →
    WeakPtr_IsExpired 0 st2 = Some (true, st2) ∧
    ∀ x, shared st2 !! x = None →
      WeakPtr_Lock 0 x st2 =
        Some (tt, with_shared (insert x (mkShared None None)) st2).
Proof.
  assert (H1 : weak init !! 0 = None) by reflexivity.
  exact (conj H1 (WeakPtr_from_raw_spec init 0 (Some 7) H1)).
Defined.

(** C10, as stated, fails: handle 0 is the only owner of a value, handle 1 is
    empty; the copy assignment [0 = 1] releases what handle 0 held, so the
    block's [shared_count_] goes from 1 to 0 and the value and the block are
    deleted. *)
Lemma assign_from_empty_changes_counter :
  run owner_and_empty init = Done (final owner_and_empty) ∧
  shared (final owner_and_empty) !! 1 = Some (mkShared None None) ∧
  heap (final owner_and_empty) !! 0 = Some (mkBlock 1 0) ∧
  exec (SAssign 0 1) (final owner_and_empty)
    = Some (tt, post (SAssign 0 1) (final owner_and_empty)) ∧
  shared (post (SAssign 0 1) (final owner_and_empty)) !! 0
    = Some (mkShared None None) ∧
  heap (post (SAssign 0 1) (final owner_and_empty)) !! 0 = None ∧
  log (post (SAssign 0 1) (final owner_and_empty)) = [FreeBlock 0; FreeValue 7] ∧
  heap (post (SAssign 0 1) (final owner_and_empty)) ≠ heap (final owner_and_empty).
Proof.
  split_and!; try (vm_compute; reflexivity).
  intros E. apply (f_equal (lookup 0)) in E. vm_compute in E. discriminate.
Qed.

(** C10, amended.  In a reachable state, let the source have no control
    block.  Copy construction, for either kind of handle, gives the new
    handle the fields of the source and changes nothing else, so no counter.
    Copy assignment over a distinct handle applies the release rule to what
    the destination held, which is the only place where a counter changes,
    then gives the destination the fields of the source and changes nothing
    more: no counter is incremented.  The destination ends without a
    control block. *)
Theorem copy_from_empty prog st :
  run prog init = Done st →
  (∀ x y hy, shared st !! x = None → shared st !! y = Some hy →
     block_ hy = None →
     SharedPtr_copy x y st = Some (tt, with_shared (insert x hy) st)) ∧
  (∀ w v hv, weak st !! w = None → weak st !! v = Some hv →
     wblock_ hv = None →
     WeakPtr_copy w v st = Some (tt, with_weak (insert w hv) st)) ∧
  (∀ x y hx hy, x ≠ y → shared st !! x = Some hx → shared st !! y = Some hy →
     block_ hy = None →
     ∃ r, released_s st x hx r ∧
          SharedPtr_assign x y st = Some (tt, with_shared (insert x hy) r)) ∧
  (∀ w v hw hv, w ≠ v → weak st !! w = Some hw → weak st !! v = Some hv →
     wblock_ hv = None →
     ∃ r, released_w st w hw r ∧
          WeakPtr_assign w v st = Some (tt, with_weak (insert w hv) r)).
Proof.
  intros Hrun. pose proof (reachable_wf prog st Hrun) as Hwf. split_and!.
  - intros x y hy Hx Hy Hb. assert (x ≠ y) by congruence.
    destruct st as [sh wk hp nx lg], hy as [p b]. simpl in *. subst.
    unfold_m. by look.
  - intros w v hv Hw Hv Hb. assert (w ≠ v) by congruence.
    destruct st as [sh wk hp nx lg], hv as [b p]. simpl in *. subst.
    unfold_m. by look.
  - intros x y hx hy Hne Hx Hy Hb.
    exists (detach_s x st). split; [by apply detach_s_released|].
    assert (Hok : cmd_ok st (SAssign x y)) by (simpl; eauto).
    pose proof (exec_SAssign st Hwf x y Hok) as Hexec. simpl in Hexec.
    rewrite decide_True in Hexec by done. rewrite Hexec.
    unfold share_s. destruct (detach_s_shared st x) as [Es _]; [eauto|].
    by rewrite Es, lookup_insert_ne, Hy, Hb by done.
  - intros w v hw hv Hne Hw Hv Hb.
    exists (detach_w w st). split; [by apply detach_w_released|].
    assert (Hok : cmd_ok st (WAssign w v)) by (simpl; eauto).
    pose proof (exec_WAssign st Hwf w v Hok) as Hexec. simpl in Hexec.
    rewrite decide_True in Hexec by done. rewrite Hexec.
    unfold share_w. destruct (detach_w_weak st w) as [Ew _]; [eauto|].
    by rewrite Ew, lookup_insert_ne, Hv, Hb by done.
Qed.

Lemma copy_from_empty_witness :
  run owner_and_empty init = Done (final owner_and_empty) ∧
  (∀ x y hy, shared (final owner_and_empty) !! x = None →
     shared (final owner_and_empty) !! y = Some hy → block_ hy = None →
     SharedPtr_copy x y (final owner_and_empty)
       = Some (tt, with_shared (insert x hy) (final owner_and_empty))) ∧
  (∀ w v hv, weak (final owner_and_empty) !! w = None →
     weak (final owner_and_empty) !! v = Some hv → wblock_ hv = None →
     WeakPtr_copy w v (final owner_and_empty)
       = Some (tt, with_weak (insert w hv) (final owner_and_empty))) ∧
  (∀ x y hx hy, x ≠ y → shared (final owner_and_empty) !! x = Some hx →
     shared (final owner_and_empty) !! y = Some hy → block_ hy = None →
     ∃ r, released_s (final owner_and_empty) x hx r ∧
          SharedPtr_assign x y (final owner_and_empty)
            = Some (tt, with_shared (insert x hy) r)) ∧
  (∀ w v hw hv, w ≠ v → weak (final owner_and_empty) !! w = Some hw →
     weak (final owner_and_empty) !! v = Some hv → wblock_ hv = None →
     ∃ r, released_w (final owner_and_empty) w hw r ∧
          WeakPtr_assign w v (final owner_and_empty)
            = Some (tt, with_weak (insert w hv) r)).
Proof.
  assert (H1 : run owner_and_empty init = Done (final owner_and_empty))
    by (vm_compute; reflexivity).
  exact (conj H1 (copy_from_empty _ _ H1)).
Defined.

(** * The scenarios of the specification, run on the model *)

(** An owner A, a copy B: two owners; A goes: one owner, nothing deleted; B
    goes: value and block deleted. *)
Example scenario_two_owners :
  heap (final [SNew 0 (Some 7); SCopy 1 0]) !! 0 = Some (mkBlock 2 0) ∧
  heap (final [SNew 0 (Some 7); SCopy 1 0; SDestroy 0]) !! 0 = Some (mkBlock 1 0) ∧
  log (final [SNew 0 (Some 7); SCopy 1 0; SDestroy 0]) = [] ∧
  run [SNew 0 (Some 7); SCopy 1 0; SDestroy 0; SDestroy 1] init
    = Done (mkState ∅ ∅ ∅ 1 [FreeBlock 0; FreeValue 7]).
Proof. split_and!; vm_compute; reflexivity. Qed.

(** An owner A and an observer W of it; A goes: the value is deleted and the
    block survives with counters 0 and 1; W is expired and locks to an empty
    handle; W goes: the block is deleted. *)
Example scenario_observer_outlives :
  heap (final [SNew 0 (Some 7); WObserve 0 0]) !! 0 = Some (mkBlock 1 1) ∧
  heap (final owner_then_observer) !! 0 = Some (mkBlock 0 1) ∧
  log (final owner_then_observer) = [FreeValue 7] ∧
  fst <$> WeakPtr_IsExpired 0 (final owner_then_observer) = Some true ∧
  shared (final (owner_then_observer ++ [WLock 1 0])) !! 1
    = Some (mkShared None None) ∧
  run (owner_then_observer ++ [WDestroy 0]) init
    = Done (mkState ∅ ∅ ∅ 1 [FreeBlock 0; FreeValue 7]).
Proof. split_and!; vm_compute; reflexivity. Qed.

(** An owner A and an observer W of it; W locks while A is alive: a second
    owner C of the same value; A goes: the value stays until C goes. *)
Example scenario_lock_extends :
  shared (final (owner_and_observer ++ [WLock 1 0])) !! 1
    = Some (mkShared (Some 7) (Some 0)) ∧
  heap (final (owner_and_observer ++ [WLock 1 0])) !! 0 = Some (mkBlock 2 1) ∧
  heap (final (owner_and_observer ++ [WLock 1 0; SDestroy 0])) !! 0
    = Some (mkBlock 1 1) ∧
  log (final (owner_and_observer ++ [WLock 1 0; SDestroy 0])) = [] ∧
  log (final (owner_and_observer ++ [WLock 1 0; SDestroy 0; SDestroy 1]))
    = [FreeValue 7].
Proof. split_and!; vm_compute; reflexivity. Qed.

(** [Reset()] on the only owner deletes value and block and leaves the
    handle empty. *)
Example scenario_reset :
  run [SNew 0 (Some 7); SReset 0 None] init
    = Done (mkState {[0 := mkShared None None]} ∅ ∅ 1 [FreeBlock 0; FreeValue 7]).
Proof. vm_compute. reflexivity. Qed.

(** Handing one raw pointer to two owning handles breaks the caller's
    obligation and is rejected, not run. *)
Example scenario_double_adoption :
  run [SNew 0 (Some 7); SNew 1 (Some 7)] init = Rejected.
Proof. vm_compute. reflexivity. Qed.

(** X23. A program that respects the caller's obligations never runs into
    undefined behaviour: no member function reads a counter through a null
    or dangling [block_], and no control block is deleted twice. *)
Theorem run_safe prog : run prog init ≠ Undefined.
Proof. apply (run_inv prog init wf_init). Qed.

(** * Further properties of the handles *)

Ltac discharge :=
  first [ by vm_compute | apply (bool_decide_eq_true_1 _); by vm_compute ].

(** ** Invariants of reachable states *)

(** X1. In every reachable state an owning handle has a null [ptr_] exactly
    when it has a null [block_]; and when they are not null, the block is
    live with [shared_count_] at least 1, and neither the value nor the
    block has been deleted. *)
Theorem owner_invariant prog st x h :
  run prog init = Done st → shared st !! x = Some h →
  (ptr_ h = None ↔ block_ h = None) ∧
  ∀ b, block_ h = Some b →
    ∃ blk a, heap st !! b = Some blk ∧ (1 ≤ shared_count_ blk)%Z ∧
             ptr_ h = Some a ∧ (FreeValue a ∉ log st) ∧ (FreeBlock b ∉ log st).
Proof.
  intros Hrun Hx. pose proof (reachable_wf prog st Hrun) as Hwf.
  split; [by apply (wf_handle st Hwf x)|]. intros b Hb.
  destruct (wf_shared_block st Hwf x h b Hx Hb) as (blk & Hblk & Hs & _ & Hpos).
  destruct (wf_ptr_Some st Hwf x h b Hx Hb) as [a Ha].
  exists blk, a. split_and!; try done; [lia| |].
  - intros Hin. apply (wf_freed_value st Hwf a Hin). by exists x, h.
  - rewrite (wf_freed_block st Hwf b). intros [_ ?]. congruence.
Qed.

Lemma owner_invariant_witness :
  (run sharing init = Done (final sharing)) ∧
  (shared (final sharing) !! 0 = Some (mkShared (Some 7) (Some 0))) ∧
  ((Some 7 = None ↔ Some 0 = None) ∧ ∀ b : addr, Some 0 = Some b → ∃ (blk :
    ControlBlock) (a : addr), heap (final sharing) !! b = Some blk ∧ (1 ≤
    shared_count_ blk)%Z ∧ Some 7 = Some a ∧ (FreeValue a ∉ log (final
    sharing)) ∧ FreeBlock b ∉ log (final sharing)).
Proof.
  assert (H1 : run sharing init = Done (final sharing))
    by discharge.
  assert (H2 : shared (final sharing) !! 0 = Some (mkShared (Some 7) (Some
    0)))
    by discharge.
  exact (conj H1 (conj H2 (owner_invariant sharing (final sharing) 0 (mkShared
    (Some 7) (Some 0)) H1 H2))).
Defined.


(** X2. In every reachable state the control block of an observer is live,
    has not been deleted and has [weak_count_] at least 1; and while its
    [shared_count_] is positive, the [ptr_] of the observer is a value that
    an owning handle holds and that has not been deleted. *)
Theorem observer_invariant prog st w h b :
  run prog init = Done st → weak st !! w = Some h → wblock_ h = Some b →
  ∃ blk, heap st !! b = Some blk ∧ (1 ≤ weak_count_ blk)%Z ∧
    (0 ≤ shared_count_ blk)%Z ∧ (FreeBlock b ∉ log st) ∧
    ((0 < shared_count_ blk)%Z →
       ∃ a, wptr_ h = Some a ∧ owned st a ∧ (FreeValue a ∉ log st)).
Proof.
  intros Hrun Hw Hb. pose proof (reachable_wf prog st Hrun) as Hwf.
  destruct (wf_weak_block st Hwf w h b Hw Hb) as (blk & Hblk & Hs & Hwc & Hpos).
  exists blk. split_and!; try done; try lia.
  - rewrite (wf_freed_block st Hwf b). intros [_ ?]. congruence.
  - intros Hlt.
    destruct (proj1 (refs_pos block_ (shared st) b)) as (y & hs & Hy & Hyb).
    { unfold s_refs in Hs. lia. }
    destruct (wf_ptr_Some st Hwf y hs b Hy Hyb) as [a Ha].
    assert (owned st a) by by exists y, hs.
    exists a. split_and!; try done.
    + rewrite (wf_observed st Hwf w h y hs Hw Hy); [done|eauto|congruence].
    + intros Hin. by apply (wf_freed_value st Hwf a Hin).
Qed.

Lemma observer_invariant_witness :
  (run owner_and_observer init = Done (final owner_and_observer)) ∧
  (weak (final owner_and_observer) !! 0 = Some (mkWeak (Some 0) (Some 7))) ∧
  (Some 0 = Some 0) ∧
  (∃ blk : ControlBlock, heap (final owner_and_observer) !! 0 = Some blk ∧ (1
    ≤ weak_count_ blk)%Z ∧ (0 ≤ shared_count_ blk)%Z ∧ (FreeBlock 0 ∉ log
    (final owner_and_observer)) ∧ ((0 < shared_count_ blk)%Z → ∃ a : addr,
    Some 7 = Some a ∧ owned (final owner_and_observer) a ∧ FreeValue a ∉ log
    (final owner_and_observer))).
Proof.
  assert (H1 : run owner_and_observer init = Done (final owner_and_observer))
    by discharge.
  assert (H2 : weak (final owner_and_observer) !! 0 = Some (mkWeak (Some 0)
    (Some 7)))
    by discharge.
  assert (H3 : Some 0 = Some 0)
    by discharge.
  exact (conj H1 (conj H2 (conj H3 (observer_invariant owner_and_observer
    (final owner_and_observer) 0 (mkWeak (Some 0) (Some 7)) 0 H1 H2 H3)))).
Defined.


(** ** Member access *)

(** X3. On an owning handle of a reachable state, [Get()] and [operator->]
    return [ptr_] and leave the state as it is; [operator*] returns the
    value of a non-empty handle, which is never a deleted one, and is
    undefined on an empty handle, for which the code has no test. *)
Theorem member_access prog st x h :
  run prog init = Done st → shared st !! x = Some h →
  SharedPtr_Get x st = Some (ptr_ h, st) ∧
  SharedPtr_arrow x st = Some (ptr_ h, st) ∧
  SharedPtr_deref x st =
    match ptr_ h with
    | Some a => Some (a, st)
    | None => None
    end.
Proof.
  intros Hrun Hx. pose proof (reachable_wf prog st Hrun) as Hwf.
  unfold SharedPtr_Get, SharedPtr_arrow, SharedPtr_deref, bind, s_ptr, fail.
  rewrite Hx. split_and!; try done.
  destruct (ptr_ h) as [a|] eqn:Ha; [|done].
  rewrite decide_False; [done|].
  intros Hin. apply (wf_freed_value st Hwf a Hin). by exists x, h.
Qed.

Lemma member_access_witness :
  (run sharing init = Done (final sharing)) ∧
  (shared (final sharing) !! 0 = Some (mkShared (Some 7) (Some 0))) ∧
  (SharedPtr_Get 0 (final sharing) = Some (Some 7, final sharing) ∧
    SharedPtr_arrow 0 (final sharing) = Some (Some 7, final sharing) ∧
    SharedPtr_deref 0 (final sharing) = Some (7, final sharing)).
Proof.
  assert (H1 : run sharing init = Done (final sharing))
    by discharge.
  assert (H2 : shared (final sharing) !! 0 = Some (mkShared (Some 7) (Some
    0)))
    by discharge.
  exact (conj H1 (conj H2 (member_access sharing (final sharing) 0 (mkShared
    (Some 7) (Some 0)) H1 H2))).
Defined.


(** X4. In a reachable state, [Get()] right after [SharedPtr(p)] and right
    after [Reset(p)] returns [p], null or not. *)
Theorem Get_after_set prog st x p :
  run prog init = Done st →
  (shared st !! x = None →
     ∃ st', bind (SharedPtr_from_raw x p) (λ _, SharedPtr_Get x) st = Some (p, st')) ∧
  (is_Some (shared st !! x) →
     ∃ st', bind (SharedPtr_Reset x p) (λ _, SharedPtr_Get x) st = Some (p, st')).
Proof.
  intros Hrun. pose proof (reachable_wf prog st Hrun) as Hwf. split.
  - intros Hx. destruct st as [sh wk hp nx lg]. simpl in *.
    destruct p as [a|]; unfold_m; look; eauto.
  - intros Hx. rewrite (bind_Some _ _ _ _ _ (Reset_code st x p Hwf Hx)).
    unfold SharedPtr_Get, s_ptr, adopt_s. destruct p as [a|]; simpl;
      rewrite lookup_insert_eq; eauto.
Qed.

Lemma Get_after_set_witness :
  (run sharing init = Done (final sharing)) ∧
  ((shared (final sharing) !! 0 = None → ∃ st' : State, (SharedPtr_from_raw 0
    (Some 8);;; SharedPtr_Get 0) (final sharing) = Some (Some 8, st')) ∧
    (is_Some (shared (final sharing) !! 0) → ∃ st' : State, (SharedPtr_Reset 0
    (Some 8);;; SharedPtr_Get 0) (final sharing) = Some (Some 8, st'))).
Proof.
  assert (H1 : run sharing init = Done (final sharing))
    by discharge.
  exact (conj H1 (Get_after_set sharing (final sharing) 0 (Some 8) H1)).
Defined.


(** ** Copies *)

(** X5. Copy construction of an owning handle, in a reachable state with
    room for one more handle: the new handle has the fields of the source;
    when the source has a block, its [shared_count_] goes up by one and
    that is the only change to the heap; nothing is deleted and no observer
    changes. *)
Theorem copy_shares prog st x y hy :
  run prog init = Done st →
  shared st !! x = None → room_s st → shared st !! y = Some hy →
  ∃ st', SharedPtr_copy x y st = Some (tt, st') ∧
    shared st' = <[x:=hy]> (shared st) ∧
    weak st' = weak st ∧ log st' = log st ∧ next st' = next st ∧
    match block_ hy with
    | Some b =>
        ∃ blk, heap st !! b = Some blk ∧
          heap st' =
            <[b:=mkBlock (shared_count_ blk + 1) (weak_count_ blk)]> (heap st)
    | None => heap st' = heap st
    end.
Proof.
  intros Hrun Hx Hroom Hy. pose proof (reachable_wf prog st Hrun) as Hwf.
  assert (Hok : cmd_ok st (SCopy x y)) by (simpl; eauto).
  assert (x ≠ y) by congruence.
  pose proof (exec_SCopy st Hwf x y Hok) as Hexec. simpl in Hexec.
  eexists. split; [exact Hexec|].
  unfold share_s. simpl. rewrite lookup_insert_ne, Hy by done.
  destruct (block_ hy) as [b|] eqn:Hb; simpl.
  - destruct (wf_shared_block st Hwf y hy b Hy Hb) as (blk & Hblk & _).
    unfold add_strong. simpl. rewrite Hblk. simpl.
    rewrite insert_insert_eq. split_and!; try done. by exists blk.
  - by rewrite insert_insert_eq.
Qed.

Lemma copy_shares_witness :
  (run sharing init = Done (final sharing)) ∧
  (shared (final sharing) !! 2 = None) ∧
  (room_s (final sharing)) ∧
  (shared (final sharing) !! 0 = Some (mkShared (Some 7) (Some 0))) ∧
  (∃ st' : State, SharedPtr_copy 2 0 (final sharing) = Some ((), st') ∧ shared
    st' = <[2:=(mkShared (Some 7) (Some 0))]> (shared (final sharing)) ∧ weak
    st' = weak (final sharing) ∧ log st' = log (final sharing) ∧ next st' =
    next (final sharing) ∧ ∃ blk : ControlBlock, heap (final sharing) !! 0 =
    Some blk ∧ heap st' = <[0:=(mkBlock (shared_count_ blk + 1) (weak_count_
    blk))]> (heap (final sharing))).
Proof.
  assert (H1 : run sharing init = Done (final sharing))
    by discharge.
  assert (H2 : shared (final sharing) !! 2 = None)
    by discharge.
  assert (H3 : room_s (final sharing))
    by discharge.
  assert (H4 : shared (final sharing) !! 0 = Some (mkShared (Some 7) (Some
    0)))
    by discharge.
  exact (conj H1 (conj H2 (conj H3 (conj H4 (copy_shares sharing (final
    sharing) 2 0 (mkShared (Some 7) (Some 0)) H1 H2 H3 H4))))).
Defined.


(** X6. Copy assignment between distinct owning handles of a reachable
    state: the release rule is applied to what the destination held, then
    the destination takes the fields of the source and, when the source has
    a block, the [shared_count_] of that block goes up by one. *)
Theorem assign_shares prog st x y hx hy :
  run prog init = Done st →
  x ≠ y → shared st !! x = Some hx → shared st !! y = Some hy →
  ∃ r st', SharedPtr_assign x y st = Some (tt, st') ∧
    released_s st x hx r ∧
    shared st' = <[x:=hy]> (shared st) ∧
    weak st' = weak st ∧ log st' = log r ∧ next st' = next st ∧
    match block_ hy with
    | Some b =>
        ∃ blk, heap r !! b = Some blk ∧
          heap st' =
            <[b:=mkBlock (shared_count_ blk + 1) (weak_count_ blk)]> (heap r)
    | None => heap st' = heap r
    end.
Proof.
  intros Hrun Hne Hx Hy. pose proof (reachable_wf prog st Hrun) as Hwf.
  assert (Hok : cmd_ok st (SAssign x y)) by (simpl; eauto).
  pose proof (exec_SAssign st Hwf x y Hok) as Hexec. simpl in Hexec.
  rewrite decide_True in Hexec by done.
  pose proof (detach_s_released st x hx Hwf Hx) as Hrel.
  assert (Hwf' : wf (detach_s x st)) by (apply wf_detach_s; eauto).
  destruct (detach_s_shared st x) as [Es Ew]; [eauto|].
  assert (Hy' : shared (detach_s x st) !! y = Some hy)
    by by rewrite Es, lookup_insert_ne.
  exists (detach_s x st). eexists. split; [exact Hexec|]. split; [done|].
  destruct Hrel as (_ & _ & Hnx & _).
  unfold share_s. rewrite Hy'.
  destruct (block_ hy) as [b|] eqn:Hb; simpl.
  - destruct (wf_shared_block _ Hwf' y hy b Hy' Hb) as (blk & Hblk & _).
    unfold add_strong. simpl. rewrite Hblk. simpl.
    rewrite Es, insert_insert_eq. split_and!; try done. by exists blk.
  - rewrite Es, insert_insert_eq. done.
Qed.

Lemma assign_shares_witness :
  (run owner_and_empty init = Done (final owner_and_empty)) ∧
  (1 ≠ 0) ∧
  (shared (final owner_and_empty) !! 1 = Some (mkShared None None)) ∧
  (shared (final owner_and_empty) !! 0 = Some (mkShared (Some 7) (Some 0))) ∧
  (∃ r st' : State, SharedPtr_assign 1 0 (final owner_and_empty) = Some ((),
    st') ∧ released_s (final owner_and_empty) 1 (mkShared None None) r ∧
    shared st' = <[1:=(mkShared (Some 7) (Some 0))]> (shared (final
    owner_and_empty)) ∧ weak st' = weak (final owner_and_empty) ∧ log st' =
    log r ∧ next st' = next (final owner_and_empty) ∧ ∃ blk : ControlBlock,
    heap r !! 0 = Some blk ∧ heap st' = <[0:=(mkBlock (shared_count_ blk + 1)
    (weak_count_ blk))]> (heap r)).
Proof.
  assert (H1 : run owner_and_empty init = Done (final owner_and_empty))
    by discharge.
  assert (H2 : 1 ≠ 0)
    by discharge.
  assert (H3 : shared (final owner_and_empty) !! 1 = Some (mkShared None
    None))
    by discharge.
  assert (H4 : shared (final owner_and_empty) !! 0 = Some (mkShared (Some 7)
    (Some 0)))
    by discharge.
  exact (conj H1 (conj H2 (conj H3 (conj H4 (assign_shares owner_and_empty
    (final owner_and_empty) 1 0 (mkShared None None) (mkShared (Some 7) (Some
    0)) H1 H2 H3 H4))))).
Defined.


Lemma block_eta blk : mkBlock (shared_count_ blk) (weak_count_ blk) = blk.
Proof. by destruct blk. Qed.

(** X7. In a reachable state, two distinct owning handles on the same block
    hold the same fields, and copy-assigning one to the other leaves the
    whole state, log included, as it was. *)
Theorem assign_within_group prog st x y hx hy b :
  run prog init = Done st →
  x ≠ y → shared st !! x = Some hx → shared st !! y = Some hy →
  block_ hx = Some b → block_ hy = Some b →
  SharedPtr_assign x y st = Some (tt, st) ∧ hx = hy.
Proof.
  intros Hrun Hne Hx Hy Hbx Hby. pose proof (reachable_wf prog st Hrun) as Hwf.
  assert (Heq : hx = hy).
  { destruct hx as [px bx], hy as [py by']. simpl in *. subst. f_equal.
    symmetry. apply (wf_same st Hwf x _ y _ Hx Hy); simpl; eauto. }
  subst hy. split; [|done].
  assert (Hok : cmd_ok st (SAssign x y)) by (simpl; eauto).
  pose proof (exec_SAssign st Hwf x y Hok) as Hexec. simpl in Hexec.
  rewrite decide_True in Hexec by done. rewrite Hexec. do 2 f_equal.
  destruct (wf_shared_block st Hwf x hx b Hx Hbx) as (blk & Hblk & Hs & _ & _).
  pose proof (refs_two block_ (shared st) x y hx hx b Hne Hx Hy Hbx Hbx) as Htwo.
  unfold s_refs in Hs.
  destruct st as [sh wk hp nx lg]. simpl in *.
  unfold share_s, detach_s, drop_strong, add_strong, put_s, with_shared,
    with_heap. simpl. rewrite Hx, Hbx. simpl. rewrite Hblk.
  destruct (Z.eqb_spec (shared_count_ blk) 1) as [E|E]; [lia|]. simpl.
  rewrite lookup_insert_ne, Hy, Hbx by done. simpl.
  rewrite lookup_insert_eq. simpl.
  rewrite !insert_insert_eq.
  replace (shared_count_ blk - 1 + 1)%Z with (shared_count_ blk) by lia.
  by rewrite block_eta, !insert_id.
Qed.

Lemma assign_within_group_witness :
  (run sharing init = Done (final sharing)) ∧
  (0 ≠ 1) ∧
  (shared (final sharing) !! 0 = Some (mkShared (Some 7) (Some 0))) ∧
  (shared (final sharing) !! 1 = Some (mkShared (Some 7) (Some 0))) ∧
  (Some 0 = Some 0) ∧
  (Some 0 = Some 0) ∧
  (SharedPtr_assign 0 1 (final sharing) = Some ((), final sharing) ∧ (mkShared
    (Some 7) (Some 0)) = (mkShared (Some 7) (Some 0))).
Proof.
  assert (H1 : run sharing init = Done (final sharing))
    by discharge.
  assert (H2 : 0 ≠ 1)
    by discharge.
  assert (H3 : shared (final sharing) !! 0 = Some (mkShared (Some 7) (Some
    0)))
    by discharge.
  assert (H4 : shared (final sharing) !! 1 = Some (mkShared (Some 7) (Some
    0)))
    by discharge.
  assert (H5 : Some 0 = Some 0)
    by discharge.
  assert (H6 : Some 0 = Some 0)
    by discharge.
  exact (conj H1 (conj H2 (conj H3 (conj H4 (conj H5 (conj H6
    (assign_within_group sharing (final sharing) 0 1 (mkShared (Some 7) (Some
    0)) (mkShared (Some 7) (Some 0)) 0 H1 H2 H3 H4 H5 H6))))))).
Defined.


(** ** Observers *)

(** X8. [WeakPtr(shared)] in a reachable state with room for one more
    observer: the new observer holds the block and the pointer of the owning
    handle; when there is a block its [weak_count_] goes up by one and its
    [shared_count_] stays; no owning handle changes and nothing is
    deleted. *)
Theorem observe_attaches prog st w x hx :
  run prog init = Done st →
  weak st !! w = None → room_w st → shared st !! x = Some hx →
  ∃ st', WeakPtr_from_shared w x st = Some (tt, st') ∧
    weak st' = <[w:=mkWeak (block_ hx) (ptr_ hx)]> (weak st) ∧
    shared st' = shared st ∧ log st' = log st ∧ next st' = next st ∧
    match block_ hx with
    | Some b =>
        ∃ blk, heap st !! b = Some blk ∧
          heap st' =
            <[b:=mkBlock (shared_count_ blk) (weak_count_ blk + 1)]> (heap st)
    | None => heap st' = heap st
    end.
Proof.
  intros Hrun Hw Hroom Hx. pose proof (reachable_wf prog st Hrun) as Hwf.
  assert (Hok : cmd_ok st (WObserve w x)) by (simpl; eauto).
  pose proof (exec_WObserve st Hwf w x Hok) as Hexec. simpl in Hexec.
  eexists. split; [exact Hexec|].
  unfold observe_w. simpl. rewrite Hx.
  destruct (block_ hx) as [b|] eqn:Hb; simpl.
  - destruct (wf_shared_block st Hwf x hx b Hx Hb) as (blk & Hblk & _).
    unfold add_weak. simpl. rewrite Hblk. simpl.
    rewrite insert_insert_eq. split_and!; try done. by exists blk.
  - by rewrite insert_insert_eq.
Qed.

Lemma observe_attaches_witness :
  (run sharing init = Done (final sharing)) ∧
  (weak (final sharing) !! 0 = None) ∧
  (room_w (final sharing)) ∧
  (shared (final sharing) !! 0 = Some (mkShared (Some 7) (Some 0))) ∧
  (∃ st' : State, WeakPtr_from_shared 0 0 (final sharing) = Some ((), st') ∧
    weak st' = <[0:=(mkWeak (Some 0) (Some 7))]> (weak (final sharing)) ∧
    shared st' = shared (final sharing) ∧ log st' = log (final sharing) ∧ next
    st' = next (final sharing) ∧ ∃ blk : ControlBlock, heap (final sharing) !!
    0 = Some blk ∧ heap st' = <[0:=(mkBlock (shared_count_ blk) (weak_count_
    blk + 1))]> (heap (final sharing))).
Proof.
  assert (H1 : run sharing init = Done (final sharing))
    by discharge.
  assert (H2 : weak (final sharing) !! 0 = None)
    by discharge.
  assert (H3 : room_w (final sharing))
    by discharge.
  assert (H4 : shared (final sharing) !! 0 = Some (mkShared (Some 7) (Some
    0)))
    by discharge.
  exact (conj H1 (conj H2 (conj H3 (conj H4 (observe_attaches sharing (final
    sharing) 0 0 (mkShared (Some 7) (Some 0)) H1 H2 H3 H4))))).
Defined.


(** X9. Copy construction of an observer, in a reachable state with room
    for one more observer: the new observer has the fields of the source;
    when the source has a block, its [weak_count_] goes up by one and that
    is the only change to the heap. *)
Theorem observer_copy_shares prog st w v hv :
  run prog init = Done st →
  weak st !! w = None → room_w st → weak st !! v = Some hv →
  ∃ st', WeakPtr_copy w v st = Some (tt, st') ∧
    weak st' = <[w:=hv]> (weak st) ∧
    shared st' = shared st ∧ log st' = log st ∧ next st' = next st ∧
    match wblock_ hv with
    | Some b =>
        ∃ blk, heap st !! b = Some blk ∧
          heap st' =
            <[b:=mkBlock (shared_count_ blk) (weak_count_ blk + 1)]> (heap st)
    | None => heap st' = heap st
    end.
Proof.
  intros Hrun Hw Hroom Hv. pose proof (reachable_wf prog st Hrun) as Hwf.
  assert (Hok : cmd_ok st (WCopy w v)) by (simpl; eauto).
  assert (w ≠ v) by congruence.
  pose proof (exec_WCopy st Hwf w v Hok) as Hexec. simpl in Hexec.
  eexists. split; [exact Hexec|].
  unfold share_w. simpl. rewrite lookup_insert_ne, Hv by done.
  destruct (wblock_ hv) as [b|] eqn:Hb; simpl.
  - destruct (wf_weak_block st Hwf v hv b Hv Hb) as (blk & Hblk & _).
    unfold add_weak. simpl. rewrite Hblk. simpl.
    rewrite insert_insert_eq. split_and!; try done. by exists blk.
  - by rewrite insert_insert_eq.
Qed.

Lemma observer_copy_shares_witness :
  (run owner_and_observer init = Done (final owner_and_observer)) ∧
  (weak (final owner_and_observer) !! 1 = None) ∧
  (room_w (final owner_and_observer)) ∧
  (weak (final owner_and_observer) !! 0 = Some (mkWeak (Some 0) (Some 7))) ∧
  (∃ st' : State, WeakPtr_copy 1 0 (final owner_and_observer) = Some ((), st')
    ∧ weak st' = <[1:=(mkWeak (Some 0) (Some 7))]> (weak (final
    owner_and_observer)) ∧ shared st' = shared (final owner_and_observer) ∧
    log st' = log (final owner_and_observer) ∧ next st' = next (final
    owner_and_observer) ∧ ∃ blk : ControlBlock, heap (final
    owner_and_observer) !! 0 = Some blk ∧ heap st' = <[0:=(mkBlock
    (shared_count_ blk) (weak_count_ blk + 1))]> (heap (final
    owner_and_observer))).
Proof.
  assert (H1 : run owner_and_observer init = Done (final owner_and_observer))
    by discharge.
  assert (H2 : weak (final owner_and_observer) !! 1 = None)
    by discharge.
  assert (H3 : room_w (final owner_and_observer))
    by discharge.
  assert (H4 : weak (final owner_and_observer) !! 0 = Some (mkWeak (Some 0)
    (Some 7)))
    by discharge.
  exact (conj H1 (conj H2 (conj H3 (conj H4 (observer_copy_shares
    owner_and_observer (final owner_and_observer) 1 0 (mkWeak (Some 0) (Some
    7)) H1 H2 H3 H4))))).
Defined.


(** X10. Copy assignment between distinct observers of a reachable state:
    the observer release rule is applied to what the destination held, then
    the destination takes the fields of the source and, when the source has
    a block, the [weak_count_] of that block goes up by one. *)
Theorem observer_assign_shares prog st w v hw hv :
  run prog init = Done st →
  w ≠ v → weak st !! w = Some hw → weak st !! v = Some hv →
  ∃ r st', WeakPtr_assign w v st = Some (tt, st') ∧
    released_w st w hw r ∧
    weak st' = <[w:=hv]> (weak st) ∧
    shared st' = shared st ∧ log st' = log r ∧ next st' = next st ∧
    match wblock_ hv with
    | Some b =>
        ∃ blk, heap r !! b = Some blk ∧
          heap st' =
            <[b:=mkBlock (shared_count_ blk) (weak_count_ blk + 1)]> (heap r)
    | None => heap st' = heap r
    end.
Proof.
  intros Hrun Hne Hw Hv. pose proof (reachable_wf prog st Hrun) as Hwf.
  assert (Hok : cmd_ok st (WAssign w v)) by (simpl; eauto).
  pose proof (exec_WAssign st Hwf w v Hok) as Hexec. simpl in Hexec.
  rewrite decide_True in Hexec by done.
  pose proof (detach_w_released st w hw Hwf Hw) as Hrel.
  assert (Hwf' : wf (detach_w w st)) by (apply wf_detach_w; eauto).
  destruct (detach_w_weak st w) as [Ew Es]; [eauto|].
  assert (Hv' : weak (detach_w w st) !! v = Some hv)
    by by rewrite Ew, lookup_insert_ne.
  exists (detach_w w st). eexists. split; [exact Hexec|]. split; [done|].
  destruct Hrel as (_ & _ & Hnx & _).
  unfold share_w. rewrite Hv'.
  destruct (wblock_ hv) as [b|] eqn:Hb; simpl.
  - destruct (wf_weak_block _ Hwf' v hv b Hv' Hb) as (blk & Hblk & _).
    unfold add_weak. simpl. rewrite Hblk. simpl.
    rewrite Ew, Es, insert_insert_eq. split_and!; try done. by exists blk.
  - rewrite Ew, Es, insert_insert_eq. done.
Qed.

Lemma observer_assign_shares_witness :
  (run observer_and_empty init = Done (final observer_and_empty)) ∧
  (1 ≠ 0) ∧
  (weak (final observer_and_empty) !! 1 = Some (mkWeak None None)) ∧
  (weak (final observer_and_empty) !! 0 = Some (mkWeak (Some 0) (Some 7))) ∧
  (∃ r st' : State, WeakPtr_assign 1 0 (final observer_and_empty) = Some ((),
    st') ∧ released_w (final observer_and_empty) 1 (mkWeak None None) r ∧ weak
    st' = <[1:=(mkWeak (Some 0) (Some 7))]> (weak (final observer_and_empty))
    ∧ shared st' = shared (final observer_and_empty) ∧ log st' = log r ∧ next
    st' = next (final observer_and_empty) ∧ ∃ blk : ControlBlock, heap r !! 0
    = Some blk ∧ heap st' = <[0:=(mkBlock (shared_count_ blk) (weak_count_ blk
    + 1))]> (heap r)).
Proof.
  assert (H1 : run observer_and_empty init = Done (final observer_and_empty))
    by discharge.
  assert (H2 : 1 ≠ 0)
    by discharge.
  assert (H3 : weak (final observer_and_empty) !! 1 = Some (mkWeak None None))
    by discharge.
  assert (H4 : weak (final observer_and_empty) !! 0 = Some (mkWeak (Some 0)
    (Some 7)))
    by discharge.
  exact (conj H1 (conj H2 (conj H3 (conj H4 (observer_assign_shares
    observer_and_empty (final observer_and_empty) 1 0 (mkWeak None None)
    (mkWeak (Some 0) (Some 7)) H1 H2 H3 H4))))).
Defined.


(** X11. Moves between distinct observers of a reachable state.  Move
    construction gives the new observer the fields of the source, clears the
    source and changes nothing else, so no counter.  Move assignment first
    applies the observer release rule to what the destination held, then
    does the same transfer. *)
Theorem observer_move_transfers prog st w v hv :
  run prog init = Done st → weak st !! v = Some hv → w ≠ v →
  (weak st !! w = None →
     WeakPtr_move w v st =
     Some (tt, with_weak (λ m, <[v:=mkWeak None None]> (<[w:=hv]> m)) st)) ∧
  (∀ hw, weak st !! w = Some hw →
     ∃ r, released_w st w hw r ∧
          WeakPtr_move_assign w v st =
          Some (tt, with_weak (λ m, <[v:=mkWeak None None]> (<[w:=hv]> m)) r)).
Proof.
  intros Hrun Hv Hne. pose proof (reachable_wf prog st Hrun) as Hwf. split.
  - intros Hw. destruct st as [sh wk hp nx lg], hv as [b p]. simpl in *.
    unfold_m. look. by rewrite !insert_insert_eq.
  - intros hw Hw. exists (detach_w w st). split; [by apply detach_w_released|].
    assert (Hok : cmd_ok st (WMoveAssign w v)) by (simpl; eauto).
    pose proof (exec_WMoveAssign st Hwf w v Hok) as Hexec. simpl in Hexec.
    rewrite decide_True in Hexec by done. rewrite Hexec.
    unfold move_w. destruct (detach_w_weak st w) as [Ew _]; [eauto|].
    rewrite Ew, lookup_insert_ne, Hv by done. done.
Qed.

Lemma observer_move_transfers_witness :
  (run owner_and_observer init = Done (final owner_and_observer)) ∧
  (weak (final owner_and_observer) !! 0 = Some (mkWeak (Some 0) (Some 7))) ∧
  (1 ≠ 0) ∧
  ((weak (final owner_and_observer) !! 1 = None → WeakPtr_move 1 0 (final
    owner_and_observer) = Some ((), with_weak (λ m : gmap addr WeakPtr,
    <[0:=(mkWeak None None)]> (<[1:=(mkWeak (Some 0) (Some 7))]> m)) (final
    owner_and_observer))) ∧ ∀ hw : WeakPtr, weak (final owner_and_observer) !!
    1 = Some hw → ∃ r : State, released_w (final owner_and_observer) 1 hw r ∧
    WeakPtr_move_assign 1 0 (final owner_and_observer) = Some ((), with_weak
    (λ m : gmap addr WeakPtr, <[0:=(mkWeak None None)]> (<[1:=(mkWeak (Some 0)
    (Some 7))]> m)) r)).
Proof.
  assert (H1 : run owner_and_observer init = Done (final owner_and_observer))
    by discharge.
  assert (H2 : weak (final owner_and_observer) !! 0 = Some (mkWeak (Some 0)
    (Some 7)))
    by discharge.
  assert (H3 : 1 ≠ 0)
    by discharge.
  exact (conj H1 (conj H2 (conj H3 (observer_move_transfers owner_and_observer
    (final owner_and_observer) 1 0 (mkWeak (Some 0) (Some 7)) H1 H2 H3)))).
Defined.


(** X12. The destructor of an observer, in a reachable state, applies the
    observer release rule and removes the observer; it never deletes a
    value. *)
Theorem observer_dtor_releases prog st w hw :
  run prog init = Done st → weak st !! w = Some hw →
  ∃ r, released_w st w hw r ∧
       WeakPtr_dtor w st = Some (tt, with_weak (delete w) r) ∧
       ∀ a, FreeValue a ∈ log r ↔ FreeValue a ∈ log st.
Proof.
  intros Hrun Hw. pose proof (reachable_wf prog st Hrun) as Hwf.
  exists (detach_w w st). split; [by apply detach_w_released|].
  assert (Hok : cmd_ok st (WDestroy w)) by (simpl; eauto).
  split; [apply (exec_WDestroy st Hwf w Hok)|].
  intros a. rewrite (log_detach_w st w hw Hw).
  destruct (wblock_ hw) as [b|]; [|done].
  destruct (heap st !! b) as [blk|]; [|done].
  rewrite elem_of_app. case_decide; set_solver.
Qed.

Lemma observer_dtor_releases_witness :
  (run owner_and_observer init = Done (final owner_and_observer)) ∧
  (weak (final owner_and_observer) !! 0 = Some (mkWeak (Some 0) (Some 7))) ∧
  (∃ r : State, released_w (final owner_and_observer) 0 (mkWeak (Some 0) (Some
    7)) r ∧ WeakPtr_dtor 0 (final owner_and_observer) = Some ((), with_weak
    (delete 0) r) ∧ ∀ a : addr, FreeValue a ∈ log r ↔ FreeValue a ∈ log (final
    owner_and_observer)).
Proof.
  assert (H1 : run owner_and_observer init = Done (final owner_and_observer))
    by discharge.
  assert (H2 : weak (final owner_and_observer) !! 0 = Some (mkWeak (Some 0)
    (Some 7)))
    by discharge.
  exact (conj H1 (conj H2 (observer_dtor_releases owner_and_observer (final
    owner_and_observer) 0 (mkWeak (Some 0) (Some 7)) H1 H2))).
Defined.


(** X13. The destructor of an owning handle, in a reachable state, applies
    the release rule and removes the handle. *)
Theorem owner_dtor_releases prog st x hx :
  run prog init = Done st → shared st !! x = Some hx →
  ∃ r, released_s st x hx r ∧
       SharedPtr_dtor x st = Some (tt, with_shared (delete x) r).
Proof.
  intros Hrun Hx. pose proof (reachable_wf prog st Hrun) as Hwf.
  exists (detach_s x st). split; [by apply detach_s_released|].
  assert (Hok : cmd_ok st (SDestroy x)) by (simpl; eauto).
  apply (exec_SDestroy st Hwf x Hok).
Qed.

Lemma owner_dtor_releases_witness :
  (run sharing init = Done (final sharing)) ∧
  (shared (final sharing) !! 0 = Some (mkShared (Some 7) (Some 0))) ∧
  (∃ r : State, released_s (final sharing) 0 (mkShared (Some 7) (Some 0)) r ∧
    SharedPtr_dtor 0 (final sharing) = Some ((), with_shared (delete 0) r)).
Proof.
  assert (H1 : run sharing init = Done (final sharing))
    by discharge.
  assert (H2 : shared (final sharing) !! 0 = Some (mkShared (Some 7) (Some
    0)))
    by discharge.
  exact (conj H1 (conj H2 (owner_dtor_releases sharing (final sharing) 0
    (mkShared (Some 7) (Some 0)) H1 H2))).
Defined.


(** ** What is never deleted, and what is always deleted *)

Lemma log_post_grows st c :
  cmd_ok st c → ∃ evs, log (post c st) = evs ++ log st.
Proof.
  intros Hok. rewrite log_post.
  destruct (releases_s c) as [x|] eqn:Hrs.
  - destruct (releases_s_ok st c x Hok Hrs) as [h Hx].
    rewrite (log_detach_s st x h Hx).
    destruct (block_ h) as [b|]; [|by exists []].
    destruct (heap st !! b) as [blk|]; [|by exists []].
    rewrite app_assoc. eauto.
  - destruct (releases_w c) as [w|] eqn:Hrw; [|by exists []].
    destruct (releases_w_ok st c w Hok Hrw) as [h Hw].
    rewrite (log_detach_w st w h Hw).
    destruct (wblock_ h) as [b|]; [|by exists []].
    destruct (heap st !! b) as [blk|]; [|by exists []]. eauto.
Qed.

Lemma values_kept st c a :
  wf st → cmd_ok st c → releases_s c = None →
  FreeValue a ∈ log (post c st) ↔ FreeValue a ∈ log st.
Proof.
  intros Hwf Hok Hrs. split.
  - intros Hin. destruct (decide (FreeValue a ∈ log st)) as [|Hnew]; [done|].
    destruct (proj1 (new_value_iff st c a Hwf Hok) (conj Hin Hnew))
      as (x & ? & ? & ? & Hrel & _). congruence.
  - intros Hin. destruct (log_post_grows st c Hok) as [evs ->].
    apply elem_of_app. by right.
Qed.

(** X14. A statement that calls [Release()] on no owning handle (every
    constructor, [Lock()], a self-assignment, and every statement on
    observers) runs without undefined behaviour and deletes no value. *)
Theorem only_owners_delete_values prog c st :
  run prog init = Done st → cmd_ok st c → releases_s c = None →
  ∃ st', exec c st = Some (tt, st') ∧
    ∀ a, FreeValue a ∈ log st' ↔ FreeValue a ∈ log st.
Proof.
  intros Hrun Hok Hrs. pose proof (reachable_wf prog st Hrun) as Hwf.
  exists (post c st). split; [by apply exec_post|].
  intros a. by apply values_kept.
Qed.

Lemma only_owners_delete_values_witness :
  (run sharing init = Done (final sharing)) ∧
  (cmd_ok (final sharing) (WObserve 0 0)) ∧
  (releases_s (WObserve 0 0) = None) ∧
  (∃ st' : State, exec (WObserve 0 0) (final sharing) = Some ((), st') ∧ ∀ a :
    addr, FreeValue a ∈ log st' ↔ FreeValue a ∈ log (final sharing)).
Proof.
  assert (H1 : run sharing init = Done (final sharing))
    by discharge.
  assert (H2 : cmd_ok (final sharing) (WObserve 0 0))
    by discharge.
  assert (H3 : releases_s (WObserve 0 0) = None)
    by discharge.
  exact (conj H1 (conj H2 (conj H3 (only_owners_delete_values sharing
    (WObserve 0 0) (final sharing) H1 H2 H3)))).
Defined.


Lemma refs_empty {A} (f : A → option loc) b : refs f ∅ b = 0.
Proof. unfold refs. by rewrite map_filter_empty, map_size_empty. Qed.

(** X15. When a program ends with no handle of either kind left, no control
    block is live, every value that was handed to an owning handle has been
    deleted, every block that was allocated has been deleted, and nothing
    was deleted twice. *)
Theorem nothing_leaks prog st :
  run prog init = Done st → shared st = ∅ → weak st = ∅ →
  heap st = ∅ ∧
  (∀ a, FreeValue a ∈ log st ↔ adopted prog a) ∧
  (∀ b, FreeBlock b ∈ log st ↔ b < next st) ∧
  NoDup (log st).
Proof.
  intros Hrun Hs Hw. pose proof (reachable_wf prog st Hrun) as Hwf.
  assert (Hheap : heap st = ∅).
  { apply map_eq. intros b. rewrite lookup_empty.
    pose proof (wf_blocks st Hwf b) as Hb.
    destruct (heap st !! b); [|done].
    unfold s_refs, w_refs in Hb. rewrite Hs, Hw, !refs_empty in Hb. lia. }
  split_and!; [done| | |apply (wf_nodup st Hwf)].
  - intros a. rewrite <- (reachable_accounted prog st a Hrun).
    unfold accounted, owned, map_Exists. rewrite Hs. split; [by right|].
    intros [(x & h & Hx & _)|?]; [|done]. by rewrite lookup_empty in Hx.
  - intros b. rewrite (wf_freed_block st Hwf b), Hheap, lookup_empty. tauto.
Qed.

Lemma nothing_leaks_witness :
  (run all_gone init = Done (final all_gone)) ∧
  (shared (final all_gone) = ∅) ∧
  (weak (final all_gone) = ∅) ∧
  (heap (final all_gone) = ∅ ∧ (∀ a : addr, FreeValue a ∈ log (final all_gone)
    ↔ adopted all_gone a) ∧ (∀ b : addr, FreeBlock b ∈ log (final all_gone) ↔
    b < next (final all_gone)) ∧ NoDup (log (final all_gone))).
Proof.
  assert (H1 : run all_gone init = Done (final all_gone))
    by discharge.
  assert (H2 : shared (final all_gone) = ∅)
    by discharge.
  assert (H3 : weak (final all_gone) = ∅)
    by discharge.
  exact (conj H1 (conj H2 (conj H3 (nothing_leaks all_gone (final all_gone) H1
    H2 H3)))).
Defined.


(** ** Temporaries *)

Lemma run_two st c1 c2 :
  wf st → cmd_ok st c1 → cmd_ok (post c1 st) c2 →
  run [c1; c2] st = Done (post c2 (post c1 st)).
Proof.
  intros Hwf H1 H2. simpl. rewrite decide_True by done.
  rewrite (exec_post st Hwf c1 H1), decide_True by done.
  by rewrite (exec_post _ (wf_post st c1 Hwf H1) c2 H2).
Qed.

(** X16. A temporary owning handle is neutral: from a reachable state,
    copy-constructing an owning handle, or building one with [Lock()], and
    destroying it right away runs without undefined behaviour and ends in
    the very state it started from. *)
Theorem owner_temporary_is_neutral prog st x :
  run prog init = Done st → shared st !! x = None → room_s st →
  (∀ y, is_Some (shared st !! y) → run [SCopy x y; SDestroy x] st = Done st) ∧
  (∀ w, is_Some (weak st !! w) → run [WLock x w; SDestroy x] st = Done st).
Proof.
  intros Hrun Hx Hroom. pose proof (reachable_wf prog st Hrun) as Hwf. split.
  - intros y [hy Hy]. assert (x ≠ y) by congruence.
    rewrite run_two; try done; simpl; eauto.
    2:{ unfold share_s. simpl. rewrite lookup_insert_ne, Hy by done.
        destruct (block_ hy); simpl; rewrite ?(proj1 (add_strong_proj _ _));
          simpl; rewrite lookup_insert_eq; eauto. }
    f_equal. unfold share_s. simpl. rewrite lookup_insert_ne, Hy by done.
    destruct (block_ hy) as [b|] eqn:Hb.
    + destruct (wf_shared_block st Hwf y hy b Hy Hb) as (blk & Hblk & Hs & _ & Hpos).
      destruct st as [sh wk hp nx lg]. simpl in *.
      unfold detach_s, drop_strong, add_strong, put_s, with_shared, with_heap.
      simpl. rewrite Hblk. simpl. rewrite lookup_insert_eq, Hb. simpl.
      rewrite lookup_insert_eq. simpl.
      destruct (Z.eqb_spec (shared_count_ blk + 1) 1) as [E|E]; [lia|]. simpl.
      rewrite !insert_insert_eq, delete_insert_eq, delete_id by done.
      replace (shared_count_ blk + 1 - 1)%Z with (shared_count_ blk) by lia.
      by rewrite block_eta, insert_id.
    + destruct st as [sh wk hp nx lg]. simpl in *.
      unfold detach_s, put_s, with_shared. simpl.
      rewrite lookup_insert_eq, Hb. simpl.
      by rewrite !insert_insert_eq, delete_insert_eq, delete_id.
  - intros w [hw Hw].
    assert (Hup : shared (upgrade_s x w (put_s x empty_s st)) !! x ≠ None).
    { unfold upgrade_s. simpl. rewrite Hw.
      destruct (live _ _); simpl; [|by rewrite lookup_insert_eq].
      destruct (wblock_ hw); simpl; rewrite ?(proj1 (add_strong_proj _ _));
        simpl; by rewrite lookup_insert_eq. }
    rewrite run_two; try done; simpl; eauto.
    2:{ destruct (shared (upgrade_s x w (put_s x empty_s st)) !! x); eauto.
        done. }
    f_equal. unfold upgrade_s. simpl. rewrite Hw.
    destruct (live (put_s x empty_s st) (wblock_ hw)) eqn:Hlive.
    + unfold live in Hlive. destruct (wblock_ hw) as [b|] eqn:Hb; [|done].
      simpl in Hlive.
      destruct (wf_weak_block st Hwf w hw b Hw Hb) as (blk & Hblk & Hs & _ & _).
      rewrite Hblk in Hlive. apply Z.ltb_lt in Hlive.
      destruct st as [sh wk hp nx lg]. simpl in *.
      unfold detach_s, drop_strong, add_strong, put_s, with_shared, with_heap.
      simpl. rewrite Hblk. simpl. rewrite lookup_insert_eq. simpl.
      rewrite lookup_insert_eq. simpl.
      destruct (Z.eqb_spec (shared_count_ blk + 1) 1) as [E|E]; [lia|]. simpl.
      rewrite !insert_insert_eq, delete_insert_eq, delete_id by done.
      replace (shared_count_ blk + 1 - 1)%Z with (shared_count_ blk) by lia.
      by rewrite block_eta, insert_id.
    + destruct st as [sh wk hp nx lg]. simpl in *.
      unfold detach_s, put_s, with_shared. simpl.
      rewrite lookup_insert_eq. simpl.
      by rewrite !insert_insert_eq, delete_insert_eq, delete_id.
Qed.

Lemma owner_temporary_is_neutral_witness :
  (run owner_and_observer init = Done (final owner_and_observer)) ∧
  (shared (final owner_and_observer) !! 1 = None) ∧
  (room_s (final owner_and_observer)) ∧
  ((∀ y : addr, is_Some (shared (final owner_and_observer) !! y) → run [SCopy
    1 y; SDestroy 1] (final owner_and_observer) = Done (final
    owner_and_observer)) ∧ ∀ w : addr, is_Some (weak (final
    owner_and_observer) !! w) → run [WLock 1 w; SDestroy 1] (final
    owner_and_observer) = Done (final owner_and_observer)).
Proof.
  assert (H1 : run owner_and_observer init = Done (final owner_and_observer))
    by discharge.
  assert (H2 : shared (final owner_and_observer) !! 1 = None)
    by discharge.
  assert (H3 : room_s (final owner_and_observer))
    by discharge.
  exact (conj H1 (conj H2 (conj H3 (owner_temporary_is_neutral
    owner_and_observer (final owner_and_observer) 1 H1 H2 H3)))).
Defined.


(** X17. A temporary observer is neutral: from a reachable state,
    constructing an observer from another observer or from an owning handle
    and destroying it right away ends in the very state it started from. *)
Theorem observer_temporary_is_neutral prog st w :
  run prog init = Done st → weak st !! w = None → room_w st →
  (∀ v, is_Some (weak st !! v) → run [WCopy w v; WDestroy w] st = Done st) ∧
  (∀ x, is_Some (shared st !! x) → run [WObserve w x; WDestroy w] st = Done st).
Proof.
  intros Hrun Hw Hroom. pose proof (reachable_wf prog st Hrun) as Hwf. split.
  - intros v [hv Hv]. assert (w ≠ v) by congruence.
    rewrite run_two; try done; simpl; eauto.
    2:{ unfold share_w. simpl. rewrite lookup_insert_ne, Hv by done.
        destruct (wblock_ hv); simpl;
          rewrite ?(proj1 (proj2 (add_weak_proj _ _)));
          simpl; rewrite lookup_insert_eq; eauto. }
    f_equal. unfold share_w. simpl. rewrite lookup_insert_ne, Hv by done.
    destruct (wblock_ hv) as [b|] eqn:Hb.
    + destruct (wf_weak_block st Hwf v hv b Hv Hb) as (blk & Hblk & _ & Hwc & Hpos).
      destruct st as [sh wk hp nx lg]. simpl in *.
      unfold detach_w, drop_weak, add_weak, put_w, with_weak, with_heap.
      simpl. rewrite Hblk. simpl. rewrite lookup_insert_eq, Hb. simpl.
      rewrite lookup_insert_eq. simpl.
      destruct (Z.eqb_spec (weak_count_ blk + 1) 1) as [E|E]; [lia|]. simpl.
      rewrite !insert_insert_eq, delete_insert_eq, delete_id by done.
      replace (weak_count_ blk + 1 - 1)%Z with (weak_count_ blk) by lia.
      by rewrite block_eta, insert_id.
    + destruct st as [sh wk hp nx lg]. simpl in *.
      unfold detach_w, put_w, with_weak. simpl.
      rewrite lookup_insert_eq, Hb. simpl.
      by rewrite !insert_insert_eq, delete_insert_eq, delete_id.
  - intros x [hx Hx].
    rewrite run_two; try done; simpl; eauto.
    2:{ unfold observe_w. simpl. rewrite Hx.
        destruct (block_ hx); simpl;
          rewrite ?(proj1 (proj2 (add_weak_proj _ _)));
          simpl; rewrite lookup_insert_eq; eauto. }
    f_equal. unfold observe_w. simpl. rewrite Hx.
    destruct (block_ hx) as [b|] eqn:Hb.
    + destruct (wf_shared_block st Hwf x hx b Hx Hb) as (blk & Hblk & Hs & Hwc & Hpos).
      destruct st as [sh wk hp nx lg]. simpl in *.
      unfold detach_w, drop_weak, add_weak, put_w, with_weak, with_heap.
      simpl. rewrite Hblk. simpl. rewrite lookup_insert_eq. simpl.
      rewrite lookup_insert_eq. simpl.
      destruct (Z.eqb_spec (weak_count_ blk + 1) 1) as [E|E];
        destruct (Z.eqb_spec (shared_count_ blk) 0) as [E0|E0]; try lia; simpl.
      all: rewrite !insert_insert_eq, delete_insert_eq, delete_id by done.
      all: replace (weak_count_ blk + 1 - 1)%Z with (weak_count_ blk) by lia.
      all: by rewrite block_eta, insert_id.
    + destruct st as [sh wk hp nx lg]. simpl in *.
      unfold detach_w, put_w, with_weak. simpl.
      rewrite lookup_insert_eq. simpl.
      by rewrite !insert_insert_eq, delete_insert_eq, delete_id.
Qed.

Lemma observer_temporary_is_neutral_witness :
  (run owner_and_observer init = Done (final owner_and_observer)) ∧
  (weak (final owner_and_observer) !! 1 = None) ∧
  (room_w (final owner_and_observer)) ∧
  ((∀ v : addr, is_Some (weak (final owner_and_observer) !! v) → run [WCopy 1
    v; WDestroy 1] (final owner_and_observer) = Done (final
    owner_and_observer)) ∧ ∀ x : addr, is_Some (shared (final
    owner_and_observer) !! x) → run [WObserve 1 x; WDestroy 1] (final
    owner_and_observer) = Done (final owner_and_observer)).
Proof.
  assert (H1 : run owner_and_observer init = Done (final owner_and_observer))
    by discharge.
  assert (H2 : weak (final owner_and_observer) !! 1 = None)
    by discharge.
  assert (H3 : room_w (final owner_and_observer))
    by discharge.
  exact (conj H1 (conj H2 (conj H3 (observer_temporary_is_neutral
    owner_and_observer (final owner_and_observer) 1 H1 H2 H3)))).
Defined.


(** ** [Lock()] and the upgrading constructor *)

(** X18. In every state, [w.Lock()] built into [x] does exactly what the
    constructor [SharedPtr x(w)] does, undefined behaviour included. *)
Theorem Lock_is_upgrade st x w :
  WeakPtr_Lock w x st = SharedPtr_from_weak x w st.
Proof.
  destruct st as [sh wk hp nx lg]. unfold_m.
  destruct (wk !! w) as [[[b|] p]|] eqn:Hw; look.
  - destruct (hp !! b) as [blk|] eqn:Hb; look.
    + destruct (0 <? shared_count_ blk)%Z eqn:E; look; [done|].
      destruct (sh !! x) eqn:Hx; look; [done|].
      rewrite E. look. by rewrite !insert_insert_eq.
    + destruct (sh !! x); look; done.
  - destruct (sh !! x) eqn:Hx; look; [done|].
    by rewrite !insert_insert_eq.
  - destruct (sh !! x); look; done.
Qed.


(** ** Expiry *)

Lemma shared_share_s x y st :
  shared (share_s x y st) =
  match shared st !! y with
  | Some h => <[x:=h]> (shared st)
  | None => shared st
  end.
Proof.
  unfold share_s. destruct (shared st !! y) as [h|]; [|done].
  destruct (block_ h); simpl; by rewrite ?(proj1 (add_strong_proj _ _)).
Qed.

Lemma shared_move_s x y st :
  shared (move_s x y st) =
  match shared st !! y with
  | Some h => <[y:=empty_s]> (<[x:=h]> (shared st))
  | None => shared st
  end.
Proof. unfold move_s. by destruct (shared st !! y). Qed.

Ltac from_before := inserts; simpl in *; simplify_eq; eauto 8.

(** Where the block of an owning handle comes from: after any statement, it
    is the block the statement allocated or the block of an owning handle
    that existed before. *)
Lemma owner_blocks_post st c y hy b :
  wf st → cmd_ok st c →
  shared (post c st) !! y = Some hy → block_ hy = Some b →
  b = next st ∨ ∃ y0 h0, shared st !! y0 = Some h0 ∧ block_ h0 = Some b.
Proof.
  intros Hwf Hok Hy Hb.
  assert (Hup : ∀ x w s, wf s → shared s = <[x:=empty_s]> (shared st) →
            shared (upgrade_s x w s) !! y = Some hy →
            ∃ y0 h0, shared st !! y0 = Some h0 ∧ block_ h0 = Some b).
  { intros x w s Hwfs Es Hl. unfold upgrade_s in Hl.
    destruct (weak s !! w) as [hw|] eqn:Hw.
    2:{ rewrite Es in Hl. from_before. }
    destruct (live s (wblock_ hw)) eqn:Hlive.
    - apply (live_spec s w hw Hwfs Hw) in Hlive as (b' & z & hz & Hb' & Hz & Hzb).
      rewrite Hb' in Hl. simpl in Hl.
      rewrite (proj1 (add_strong_proj _ _)), Es in Hl.
      rewrite Es in Hz.
      from_before.
    - simpl in Hl. rewrite Es in Hl. from_before. }
  destruct c; simpl in *.
  - (* SDefault *) from_before.
  - (* SNew *) unfold adopt_s in Hy. destruct p; simpl in Hy; from_before.
  - (* SCopy *) destruct Hok as (Hx & _ & [h Hl]).
    assert (x ≠ y0) by congruence.
    rewrite shared_share_s in Hy. simpl in Hy.
    rewrite lookup_insert_ne, Hl in Hy by done. from_before.
  - (* SMove *) destruct Hok as (Hx & _ & [h Hl]).
    assert (x ≠ y0) by congruence.
    rewrite shared_move_s in Hy. simpl in Hy.
    rewrite lookup_insert_ne, Hl in Hy by done. from_before.
  - (* SUpgrade *) destruct Hok as (Hx & Hroom & _). right.
    apply (Hup x w (put_s x empty_s st)); [by apply wf_new_s|done|done].
  - (* SAssign *) destruct Hok as (Hx & [h Hl]).
    case_decide; [|eauto].
    destruct (detach_s_shared st x Hx) as [Es _].
    rewrite shared_share_s, Es in Hy.
    rewrite lookup_insert_ne, Hl in Hy by done. from_before.
  - (* SMoveAssign *) destruct Hok as (Hx & [h Hl]).
    case_decide; [|eauto].
    destruct (detach_s_shared st x Hx) as [Es _].
    rewrite shared_move_s, Es in Hy.
    rewrite lookup_insert_ne, Hl in Hy by done. from_before.
  - (* SReset *) destruct Hok as (Hx & _).
    destruct (detach_s_shared st x Hx) as [Es _].
    assert (Hnx : next (detach_s x st) = next st).
    { destruct Hx as [h Hx].
      by destruct (detach_s_released st x h Hwf Hx) as (_ & _ & ? & _). }
    unfold adopt_s in Hy. destruct p; simpl in Hy; rewrite Es in Hy; from_before.
  - (* SDestroy *)
    destruct (detach_s_shared st x Hok) as [Es _]. rewrite Es in Hy.
    from_before.
  - (* WDefault *) eauto.
  - (* WNew *) eauto.
  - (* WCopy *) rewrite shared_share_w in Hy. eauto.
  - (* WMove *) rewrite shared_move_w in Hy. eauto.
  - (* WObserve *) rewrite shared_observe_w in Hy. eauto.
  - (* WAssign *) destruct Hok as (Hw & _). case_decide; [|eauto].
    rewrite shared_share_w in Hy.
    destruct (detach_w_weak st w Hw) as [_ Es]. rewrite Es in Hy. eauto.
  - (* WMoveAssign *) destruct Hok as (Hw & _). case_decide; [|eauto].
    rewrite shared_move_w in Hy.
    destruct (detach_w_weak st w Hw) as [_ Es]. rewrite Es in Hy. eauto.
  - (* WDestroy *)
    destruct (detach_w_weak st w Hok) as [_ Es]. rewrite Es in Hy. eauto.
  - (* WLock *) destruct Hok as (Hx & Hroom & _). right.
    apply (Hup x w (put_s x empty_s st)); [by apply wf_new_s|done|done].
Qed.

(** X19. Expiry is permanent: if [IsExpired()] is true for an observer of a
    reachable state, then after any further statement that leaves the
    fields of this observer as they are, [IsExpired()] is still true. *)
Theorem expiry_is_permanent prog c st w hw :
  run prog init = Done st → cmd_ok st c → weak st !! w = Some hw →
  WeakPtr_IsExpired w st = Some (true, st) →
  ∃ st', exec c st = Some (tt, st') ∧
    (weak st' !! w = Some hw → WeakPtr_IsExpired w st' = Some (true, st')).
Proof.
  intros Hrun Hok Hw Hexp. pose proof (reachable_wf prog st Hrun) as Hwf.
  pose proof (wf_post st c Hwf Hok) as Hwf'.
  exists (post c st). split; [by apply exec_post|]. intros Hw'.
  unfold WeakPtr_IsExpired, bind, w_block, shared_count, ret in *.
  rewrite Hw in Hexp. rewrite Hw'.
  destruct (wblock_ hw) as [b|] eqn:Hb; [|done].
  destruct (wf_weak_block st Hwf w hw b Hw Hb) as (blk & Hblk & Hs & _).
  destruct (wf_weak_block _ Hwf' w hw b Hw' Hb) as (blk' & Hblk' & Hs' & _).
  rewrite Hblk in Hexp. rewrite Hblk'. simplify_eq.
  assert (Hz : shared_count_ blk = 0%Z) by by apply Z.eqb_eq.
  assert (Hnone : s_refs (post c st) b = 0).
  { apply refs_zero. intros y hy Hy Hyb.
    destruct (owner_blocks_post st c y hy b Hwf Hok Hy Hyb)
      as [->|(y0 & h0 & Hy0 & Hb0)].
    - destruct (wf_fresh_block st Hwf) as [Hfresh _]. congruence.
    - assert (0 < s_refs st b) by (apply refs_pos; eauto). lia. }
  do 2 f_equal. apply Z.eqb_eq. lia.
Qed.

Lemma expiry_is_permanent_witness :
  (run owner_then_observer init = Done (final owner_then_observer)) ∧
  (cmd_ok (final owner_then_observer) (SNew 1 (Some 8))) ∧
  (weak (final owner_then_observer) !! 0 = Some (mkWeak (Some 0) (Some 7))) ∧
  (WeakPtr_IsExpired 0 (final owner_then_observer) = Some (true, final
    owner_then_observer)) ∧
  (∃ st' : State, exec (SNew 1 (Some 8)) (final owner_then_observer) = Some
    ((), st') ∧ (weak st' !! 0 = Some (mkWeak (Some 0) (Some 7)) →
    WeakPtr_IsExpired 0 st' = Some (true, st'))).
Proof.
  assert (H1 : run owner_then_observer init = Done (final
    owner_then_observer))
    by discharge.
  assert (H2 : cmd_ok (final owner_then_observer) (SNew 1 (Some 8)))
    by discharge.
  assert (H3 : weak (final owner_then_observer) !! 0 = Some (mkWeak (Some 0)
    (Some 7)))
    by discharge.
  assert (H4 : WeakPtr_IsExpired 0 (final owner_then_observer) = Some (true,
    final owner_then_observer))
    by discharge.
  exact (conj H1 (conj H2 (conj H3 (conj H4 (expiry_is_permanent
    owner_then_observer (SNew 1 (Some 8)) (final owner_then_observer) 0
    (mkWeak (Some 0) (Some 7)) H1 H2 H3 H4))))).
Defined.


(** ** The two kinds of handle keep to their own counter *)


Lemma shared_observer_stmt st c :
  cmd_ok st c → observer_stmt c → shared (post c st) = shared st.
Proof.
  intros Hok Hobs. destruct c; simpl in *; try done; repeat case_decide;
    rewrite ?shared_share_w, ?shared_move_w, ?shared_observe_w; try done.
  - destruct Hok as [Hw _]. by destruct (detach_w_weak st w Hw).
  - destruct Hok as [Hw _]. by destruct (detach_w_weak st w Hw).
  - by destruct (detach_w_weak st w Hok).
Qed.

(** X20. A statement on observers, in a reachable state, changes no owning
    handle, deletes no value, and leaves the [shared_count_] of every block
    that stays live as it was. *)
Theorem observers_do_not_own prog c st :
  run prog init = Done st → cmd_ok st c → observer_stmt c →
  ∃ st', exec c st = Some (tt, st') ∧
    shared st' = shared st ∧
    (∀ a, FreeValue a ∈ log st' ↔ FreeValue a ∈ log st) ∧
    (∀ b blk blk', heap st !! b = Some blk → heap st' !! b = Some blk' →
       shared_count_ blk' = shared_count_ blk).
Proof.
  intros Hrun Hok Hobs. pose proof (reachable_wf prog st Hrun) as Hwf.
  pose proof (wf_post st c Hwf Hok) as Hwf'.
  pose proof (shared_observer_stmt st c Hok Hobs) as Es.
  exists (post c st). split_and!; [by apply exec_post|done| |].
  - intros a. apply values_kept; try done. by destruct c.
  - intros b blk blk' Hblk Hblk'.
    pose proof (wf_blocks st Hwf b) as Hb. rewrite Hblk in Hb.
    pose proof (wf_blocks _ Hwf' b) as Hb'. rewrite Hblk' in Hb'.
    unfold s_refs in *. rewrite Es in Hb'. destruct Hb as [-> _].
    by destruct Hb' as [-> _].
Qed.

Lemma observers_do_not_own_witness :
  (run owner_and_observer init = Done (final owner_and_observer)) ∧
  (cmd_ok (final owner_and_observer) (WDestroy 0)) ∧
  (observer_stmt (WDestroy 0)) ∧
  (∃ st' : State, exec (WDestroy 0) (final owner_and_observer) = Some ((),
    st') ∧ shared st' = shared (final owner_and_observer) ∧ (∀ a : addr,
    FreeValue a ∈ log st' ↔ FreeValue a ∈ log (final owner_and_observer)) ∧ ∀
    (b : addr) (blk blk' : ControlBlock), heap (final owner_and_observer) !! b
    = Some blk → heap st' !! b = Some blk' → shared_count_ blk' =
    shared_count_ blk).
Proof.
  assert (H1 : run owner_and_observer init = Done (final owner_and_observer))
    by discharge.
  assert (H2 : cmd_ok (final owner_and_observer) (WDestroy 0))
    by discharge.
  assert (H3 : observer_stmt (WDestroy 0))
    by discharge.
  exact (conj H1 (conj H2 (conj H3 (observers_do_not_own owner_and_observer
    (WDestroy 0) (final owner_and_observer) H1 H2 H3)))).
Defined.


Lemma weak_share_s x y st : weak (share_s x y st) = weak st.
Proof.
  unfold share_s. repeat case_match; try done. simpl. apply add_strong_proj.
Qed.
Lemma weak_move_s x y st : weak (move_s x y st) = weak st.
Proof. unfold move_s. by repeat case_match. Qed.
Lemma weak_upgrade_s x w st : weak (upgrade_s x w st) = weak st.
Proof.
  unfold upgrade_s. repeat case_match; try done. simpl. apply add_strong_proj.
Qed.
Lemma weak_adopt_s x p st : weak (adopt_s x p st) = weak st.
Proof. unfold adopt_s. by destruct p. Qed.

Lemma weak_owner_stmt st c :
  cmd_ok st c → owner_stmt c → weak (post c st) = weak st.
Proof.
  intros Hok Hown. destruct c; simpl in *; try done; repeat case_decide;
    rewrite ?weak_share_s, ?weak_move_s, ?weak_upgrade_s, ?weak_adopt_s;
    try done.
  - destruct Hok as [Hx _]. by destruct (detach_s_shared st x Hx).
  - destruct Hok as [Hx _]. by destruct (detach_s_shared st x Hx).
  - destruct Hok as [Hx _]. by destruct (detach_s_shared st x Hx).
  - by destruct (detach_s_shared st x Hok).
Qed.

(** X21. A statement that builds, assigns or ends an owning handle, in a
    reachable state, changes no observer and leaves the [weak_count_] of
    every block that stays live as it was. *)
Theorem owners_do_not_observe prog c st :
  run prog init = Done st → cmd_ok st c → owner_stmt c →
  ∃ st', exec c st = Some (tt, st') ∧
    weak st' = weak st ∧
    (∀ b blk blk', heap st !! b = Some blk → heap st' !! b = Some blk' →
       weak_count_ blk' = weak_count_ blk).
Proof.
  intros Hrun Hok Hown. pose proof (reachable_wf prog st Hrun) as Hwf.
  pose proof (wf_post st c Hwf Hok) as Hwf'.
  pose proof (weak_owner_stmt st c Hok Hown) as Ew.
  exists (post c st). split_and!; [by apply exec_post|done|].
  intros b blk blk' Hblk Hblk'.
  pose proof (wf_blocks st Hwf b) as Hb. rewrite Hblk in Hb.
  pose proof (wf_blocks _ Hwf' b) as Hb'. rewrite Hblk' in Hb'.
  unfold w_refs in *. rewrite Ew in Hb'. destruct Hb as (_ & -> & _).
  by destruct Hb' as (_ & -> & _).
Qed.

Lemma owners_do_not_observe_witness :
  (run owner_and_observer init = Done (final owner_and_observer)) ∧
  (cmd_ok (final owner_and_observer) (SDestroy 0)) ∧
  (owner_stmt (SDestroy 0)) ∧
  (∃ st' : State, exec (SDestroy 0) (final owner_and_observer) = Some ((),
    st') ∧ weak st' = weak (final owner_and_observer) ∧ ∀ (b : addr) (blk blk'
    : ControlBlock), heap (final owner_and_observer) !! b = Some blk → heap
    st' !! b = Some blk' → weak_count_ blk' = weak_count_ blk).
Proof.
  assert (H1 : run owner_and_observer init = Done (final owner_and_observer))
    by discharge.
  assert (H2 : cmd_ok (final owner_and_observer) (SDestroy 0))
    by discharge.
  assert (H3 : owner_stmt (SDestroy 0))
    by discharge.
  exact (conj H1 (conj H2 (conj H3 (owners_do_not_observe owner_and_observer
    (SDestroy 0) (final owner_and_observer) H1 H2 H3)))).
Defined.


(** ** A raw pointer handed to two owning handles *)

(** X22. In any state, handing to a new owning handle a raw pointer that an
    owning handle [y] already holds, and destroying the new handle, deletes
    the value under [y]: [y] still holds the pointer and [operator*] on [y]
    is undefined.  The constructor has no test for this; exclusive
    ownership is the caller's obligation. *)
Theorem second_adoption_dangles st x y hy a :
  shared st !! x = None → shared st !! y = Some hy → ptr_ hy = Some a →
  ∃ st', bind (SharedPtr_from_raw x (Some a)) (λ _, SharedPtr_dtor x) st
           = Some (tt, st') ∧
    shared st' = shared st ∧
    log st' = FreeBlock (next st) :: FreeValue a :: log st ∧
    SharedPtr_deref y st' = None.
Proof.
  intros Hx Hy Ha. destruct st as [sh wk hp nx lg]. simpl in *.
  eexists. split.
  - unfold_m. look. change (wrap (0 + 1)) with 1%Z. look.
    change (wrap (1 - 1)) with 0%Z. look. reflexivity.
  - simpl. split_and!.
    + by rewrite !insert_insert_eq, delete_insert_eq, delete_id.
    + done.
    + unfold SharedPtr_deref, bind, s_ptr. simpl.
      rewrite !insert_insert_eq, delete_insert_eq, delete_id, Hy, Ha by done.
      rewrite decide_True; [done|]. set_solver.
Qed.

Lemma second_adoption_dangles_witness :
  (shared (final sharing) !! 2 = None) ∧
  (shared (final sharing) !! 0 = Some (mkShared (Some 7) (Some 0))) ∧
  (Some 7 = Some 7) ∧
  (∃ st' : State, (SharedPtr_from_raw 2 (Some 7);;; SharedPtr_dtor 2) (final
    sharing) = Some ((), st') ∧ shared st' = shared (final sharing) ∧ log st'
    = FreeBlock (next (final sharing)) :: FreeValue 7 :: log (final sharing) ∧
    SharedPtr_deref 0 st' = None).
Proof.
  assert (H1 : shared (final sharing) !! 2 = None)
    by discharge.
  assert (H2 : shared (final sharing) !! 0 = Some (mkShared (Some 7) (Some
    0)))
    by discharge.
  assert (H3 : Some 7 = Some 7)
    by discharge.
  exact (conj H1 (conj H2 (conj H3 (second_adoption_dangles (final sharing) 2
    0 (mkShared (Some 7) (Some 0)) 7 H1 H2 H3)))).
Defined.
